(** * Message splitter: segmentation engine, capper, delay and dispatch

    A shallow embedding of [main.py] (class [MessageSplitterPlugin]).

    Python [str] values are sequences of Unicode code points: [len], indexing
    and the regular-expression engine all count code points.  Texts are
    therefore lists of code points ([N]); string literals of this file are
    read as UTF-8 and decoded by [py]. *)

From Stdlib Require Import Ascii String.
From Stdlib Require Import List Bool Arith NArith ZArith Lia.
From Stdlib Require Import Floats.
Import ListNotations.

(* ================================================================== *)
(** ** Texts *)

Module Text.

Definition char := N.
Definition text := list char.

(** UTF-8 decoding of the bytes of a literal (well-formed input assumed;
    a truncated sequence is dropped). *)
Fixpoint utf8_decode (bs : list N) : text :=
  match bs with
  | [] => []
  | b0 :: r0 =>
    if (b0 <? 0x80)%N then b0 :: utf8_decode r0
    else if (b0 <? 0xE0)%N then
      match r0 with
      | b1 :: r1 =>
        N.lor (N.shiftl (N.land b0 0x1F) 6) (N.land b1 0x3F) :: utf8_decode r1
      | _ => []
      end
    else if (b0 <? 0xF0)%N then
      match r0 with
      | b1 :: b2 :: r2 =>
        N.lor (N.shiftl (N.land b0 0x0F) 12)
          (N.lor (N.shiftl (N.land b1 0x3F) 6) (N.land b2 0x3F))
        :: utf8_decode r2
      | _ => []
      end
    else
      match r0 with
      | b1 :: b2 :: b3 :: r3 =>
        N.lor (N.shiftl (N.land b0 0x07) 18)
          (N.lor (N.shiftl (N.land b1 0x3F) 12)
             (N.lor (N.shiftl (N.land b2 0x3F) 6) (N.land b3 0x3F)))
        :: utf8_decode r3
      | _ => []
      end
  end.

Definition py (s : string) : text :=
  utf8_decode (map N_of_ascii (list_ascii_of_string s)).

Definition text_eqb (a b : text) : bool :=
  if list_eq_dec N.eq_dec a b then true else false.

(** Python truthiness of a [str]: non-empty. *)
Definition truthy (t : text) : bool :=
  match t with [] => false | _ => true end.

End Text.
Import Text.

(* ================================================================== *)
(** ** The regular-expression engine ([re])

    [main.py] relies on Python's [re] for [re.compile], [Pattern.match],
    [re.split], [re.fullmatch] and [re.sub].  The engine is modelled for a
    fragment of its syntax: literals, escapes of single characters, the
    classes [\d \D \s \S], [.], character classes with ranges and
    negation, capturing groups and the groups [(?:...)], the look-ahead
    assertions [(?=...)] and [(?!...)], the anchors [^ $ \A \Z],
    alternation and the quantifiers [*], [+], [?] and [{m,n}], greedy and
    lazy.  Matching is backtracking, leftmost, with ordered alternatives,
    as in [re].  Outside the fragment: [\w \W \b \B], back-references,
    look-behind, named and atomic groups, possessive quantifiers, flags
    and the numeric escapes. *)

Module Re.

Inductive regex : Type :=
| Eps
| Lit (c : char)
| Dot
| Cls (neg : bool) (ranges : list (char * char))
| Cat (a b : regex)
| Alt (a b : regex)
| Star (a : regex)
| Grp (k : nat) (a : regex)
| Lazy (a : regex)
| Upto (lazy : bool) (n : nat) (a : regex)
| Look (neg : bool) (a : regex)
| Bol
| Eol
| Eos.

(** Captured groups, most recent capture first. *)
Definition captures := list (nat * text).

Fixpoint capture (k : nat) (g : captures) : option text :=
  match g with
  | [] => None
  | (j, t) :: g' => if Nat.eqb j k then Some t else capture k g'
  end.

Fixpoint in_ranges (x : char) (rs : list (char * char)) : bool :=
  match rs with
  | [] => false
  | (lo, hi) :: rs' => ((lo <=? x)%N && (x <=? hi)%N) || in_ranges x rs'
  end.

Definition newline : char := 10%N.

(** The loops of the repetitions.  [step] matches the body once and
    hands over to its continuation, [k] is what follows the repetition,
    [count] bounds the iterations still allowed, and [last] is where the
    last iteration began, as the length of the text that was left then:
    no further iteration is taken once the last one consumed nothing.
    The greedy loop takes an iteration before it tries what follows, the
    lazy loop tries what follows first. *)
Section Loops.
Variable A : Type.
Variable step : text -> captures -> (text -> captures -> option A) -> option A.
Variable k : text -> captures -> option A.

Definition stuck (last : option nat) (s0 : text) : bool :=
  match last with
  | Some l => l =? length s0
  | None => false
  end.

Fixpoint greedy (count : nat) (last : option nat) (s0 : text)
    (g0 : captures) {struct count} : option A :=
  match count with
  | O => k s0 g0
  | S c =>
    if stuck last s0 then k s0 g0
    else
      match step s0 g0 (fun s1 g1 => greedy c (Some (length s0)) s1 g1) with
      | Some v => Some v
      | None => k s0 g0
      end
  end.

Fixpoint lazy (count : nat) (last : option nat) (s0 : text)
    (g0 : captures) {struct count} : option A :=
  match k s0 g0 with
  | Some v => Some v
  | None =>
    match count with
    | O => None
    | S c =>
      if stuck last s0 then None
      else step s0 g0 (fun s1 g1 => lazy c (Some (length s0)) s1 g1)
    end
  end.

End Loops.
Arguments greedy {A} step k count last s0 g0.
Arguments lazy {A} step k count last s0 g0.

(** [run total r s g k]: match [r] at the front of [s], then hand the
    rest and the captures to [k]; [None] makes the engine backtrack.
    [total] is the length of the whole text, of which [s] is what is
    left: the position is the beginning of the text when [s] has that
    length.  [Star] and [Lazy] are the repetitions without bound (no
    text allows more than [length s + 2] iterations), [Upto] the
    repetition of at most [n] iterations.  [Look] is the look-ahead
    assertion [(?=...)], negated [(?!...)]; [Bol] is [^], [Eol] is [$]
    (the end of the text, or before a newline that ends it), [Eos] is
    [\Z]. *)
Fixpoint run {A : Type} (total : nat) (r : regex) (s : text) (g : captures)
    (k : text -> captures -> option A) {struct r} : option A :=
  match r with
  | Eps => k s g
  | Lit c =>
    match s with
    | x :: s' => if (x =? c)%N then k s' g else None
    | [] => None
    end
  | Dot =>
    match s with
    | x :: s' => if (x =? newline)%N then None else k s' g
    | [] => None
    end
  | Cls neg rs =>
    match s with
    | x :: s' => if xorb neg (in_ranges x rs) then k s' g else None
    | [] => None
    end
  | Cat a b => run total a s g (fun s' g' => run total b s' g' k)
  | Alt a b =>
    match run total a s g k with
    | Some v => Some v
    | None => run total b s g k
    end
  | Star a =>
    greedy (fun s0 g0 k0 => run total a s0 g0 k0) k (length s + 2) None s g
  | Grp n a =>
    run total a s g
      (fun s' g' => k s' ((n, firstn (length s - length s') s) :: g'))
  | Lazy a =>
    lazy (fun s0 g0 k0 => run total a s0 g0 k0) k (length s + 2) None s g
  | Upto false n a =>
    greedy (fun s0 g0 k0 => run total a s0 g0 k0) k n None s g
  | Upto true n a =>
    lazy (fun s0 g0 k0 => run total a s0 g0 k0) k n None s g
  | Look neg a =>
    match run total a s g (fun _ g' => Some g') with
    | Some g' => if neg then None else k s g'
    | None => if neg then k s g else None
    end
  | Bol => if length s =? total then k s g else None
  | Eol =>
    match s with
    | [] => k s g
    | [x] => if (x =? newline)%N then k s g else None
    | _ => None
    end
  | Eos =>
    match s with
    | [] => k s g
    | _ => None
    end
  end.

(** A compiled pattern: its syntax tree and its number of groups. *)
Record pattern : Type := { ast : regex; ngroups : nat }.

(** A match that begins at the front of [s]: [(rest, captures)].  With
    [must_advance] an empty match is refused (the engine backtracks). *)
Definition attempt (total : nat) (r : regex) (must_advance : bool)
    (s : text) : option (text * captures) :=
  run total r s []
    (fun s' g =>
       if must_advance && (length s' =? length s) then None
       else Some (s', g)).

(** [Pattern.match(text, pos)]: the matched text ([Match.group()]), or
    [None]. *)
Definition match_at (p : pattern) (t : text) (pos : nat) : option text :=
  let s := skipn pos t in
  match attempt (length t) (ast p) false s with
  | Some (s', _) => Some (firstn (length s - length s') s)
  | None => None
  end.

(** [re.fullmatch]: the match must reach the end of the text. *)
Definition fullmatch (p : pattern) (t : text) : bool :=
  match run (length t) (ast p) t []
          (fun s' _ => match s' with [] => Some tt | _ => None end) with
  | Some _ => true
  | None => false
  end.

(** Leftmost match at or after the front of [s]:
    [(text skipped, matched text, captures, rest)]. *)
Fixpoint search (total : nat) (r : regex) (must_advance : bool)
    (pre : text) (s : text) {struct s}
  : option (text * text * captures * text) :=
  match attempt total r must_advance s with
  | Some (s', g) => Some (pre, firstn (length s - length s') s, g, s')
  | None =>
    match s with
    | [] => None
    | x :: s' => search total r false (pre ++ [x]) s'
    end
  end.

Definition group_values (p : pattern) (g : captures) : list (option text) :=
  map (fun k => capture k g) (seq 1 (ngroups p)).

(** [re.split]: the pieces between the matches, each followed by the
    values of all the groups of the pattern ([None] for a group that took
    no part in the match).  After an empty match the next one must
    advance. *)
Fixpoint split_from (fuel : nat) (total : nat) (p : pattern)
    (must_advance : bool) (s : text) : list (option text) :=
  match fuel with
  | O => [Some s]
  | S f =>
    match search total (ast p) must_advance [] s with
    | None => [Some s]
    | Some (pre, mt, g, rest) =>
      Some pre :: group_values p g
        ++ split_from f total p (negb (truthy mt)) rest
    end
  end.

Definition split (p : pattern) (t : text) : list (option text) :=
  split_from (2 * length t + 2) (length t) p false t.

(** [re.sub] with the empty replacement: every match removed. *)
Fixpoint sub_from (fuel : nat) (total : nat) (p : pattern)
    (must_advance : bool) (s : text) : text :=
  match fuel with
  | O => s
  | S f =>
    match search total (ast p) must_advance [] s with
    | None => s
    | Some (pre, mt, _, rest) =>
      pre ++ sub_from f total p (negb (truthy mt)) rest
    end
  end.

Definition sub_empty (p : pattern) (t : text) : text :=
  sub_from (2 * length t + 2) (length t) p false t.

(** *** Pattern syntax ([re.compile]) *)

Definition c_dollar : char := 36%N.
Definition c_lparen : char := 40%N.
Definition c_rparen : char := 41%N.
Definition c_star : char := 42%N.
Definition c_plus : char := 43%N.
Definition c_comma : char := 44%N.
Definition c_dash : char := 45%N.
Definition c_dot : char := 46%N.
Definition c_colon : char := 58%N.
Definition c_equal : char := 61%N.
Definition c_bang : char := 33%N.
Definition c_qmark : char := 63%N.
Definition c_lbracket : char := 91%N.
Definition c_backslash : char := 92%N.
Definition c_rbracket : char := 93%N.
Definition c_caret : char := 94%N.
Definition c_lbrace : char := 123%N.
Definition c_bar : char := 124%N.
Definition c_rbrace : char := 125%N.

Definition is_ascii_alnum (c : char) : bool :=
  ((48 <=? c) && (c <=? 57) || (65 <=? c) && (c <=? 90)
   || (97 <=? c) && (c <=? 122))%N.

Definition is_digit (c : char) : bool := ((48 <=? c) && (c <=? 57))%N.

(** The characters of [\s] and of [\d] for a [str] pattern: Unicode
    white space and the decimal digits of Unicode (as of Unicode 14). *)
Definition space_ranges : list (char * char) :=
  [ (9, 13); (28, 32); (133, 133); (160, 160); (5760, 5760); (8192, 8202);
    (8232, 8233); (8239, 8239); (8287, 8287); (12288, 12288) ]%N.

Definition digit_ranges : list (char * char) :=
  map (fun lo => (lo, lo + 9)%N)
    [48; 1632; 1776; 1984; 2406; 2534; 2662; 2790; 2918; 3046; 3174; 3302;
     3430; 3558; 3664; 3792; 3872; 4160; 4240; 6112; 6160; 6470; 6608; 6784;
     6800; 6992; 7088; 7232; 7248; 42528; 43216; 43264; 43472; 43504; 43600;
     44016; 65296; 66720; 68912; 69734; 69872; 69942; 70096; 70384; 70736;
     70864; 71248; 71360; 71472; 71904; 72016; 72784; 73040; 73120; 92768;
     92864; 93008; 120782; 120792; 120802; 120812; 120822; 123200; 123632;
     125264; 130032]%N.

(** The characters outside the ranges [rs], which are in ascending
    order and apart; [from] is the first character not yet covered. *)
Fixpoint complement (from : N) (rs : list (char * char))
  : list (char * char) :=
  match rs with
  | [] => [(from, 0x10FFFF%N)]
  | (lo, hi) :: rs' =>
    if (from <? lo)%N then (from, lo - 1)%N :: complement (hi + 1)%N rs'
    else complement (hi + 1)%N rs'
  end.

(** What a backslash followed by [c] denotes. *)
Inductive escaped : Type :=
| EChar (c : char)
| EClass (neg : bool) (ranges : list (char * char))
| EBos
| EEos.

(** The control characters [\n \t \r \f \v \a], the classes [\d \D \s \S]
    and the anchors [\A \Z]; any other character that is not an ASCII
    letter or digit stands for itself.  The other letters and digits
    ([\w], [\b], back-references, [\x..], ...) are not modelled. *)
Definition escape (c : char) : option escaped :=
  if (c =? 110)%N then Some (EChar 10%N)
  else if (c =? 116)%N then Some (EChar 9%N)
  else if (c =? 114)%N then Some (EChar 13%N)
  else if (c =? 102)%N then Some (EChar 12%N)
  else if (c =? 118)%N then Some (EChar 11%N)
  else if (c =? 97)%N then Some (EChar 7%N)
  else if (c =? 100)%N then Some (EClass false digit_ranges)
  else if (c =? 68)%N then Some (EClass true digit_ranges)
  else if (c =? 115)%N then Some (EClass false space_ranges)
  else if (c =? 83)%N then Some (EClass true space_ranges)
  else if (c =? 65)%N then Some EBos
  else if (c =? 90)%N then Some EEos
  else if is_ascii_alnum c then None
  else Some (EChar c).

(** One member of a character class: a character ([inl]) or the ranges
    of a class escape ([inr]).  In a class [\b] is the backspace; the
    anchors are not members. *)
Definition class_atom (s : text)
  : option ((char + list (char * char)) * text) :=
  match s with
  | [] => None
  | c :: s1 =>
    if (c =? c_backslash)%N then
      match s1 with
      | e :: s2 =>
        if (e =? 98)%N then Some (inl 8%N, s2)
        else
          match escape e with
          | Some (EChar v) => Some (inl v, s2)
          | Some (EClass false rs) => Some (inr rs, s2)
          | Some (EClass true rs) => Some (inr (complement 0 rs), s2)
          | _ => None
          end
      | [] => None
      end
    else Some (inl c, s1)
  end.

Definition atom_ranges (a : char + list (char * char))
  : list (char * char) :=
  match a with
  | inl c => [(c, c)]
  | inr rs => rs
  end.

(** The members of a class up to its closing bracket; a bracket that
    comes first is a member. *)
Fixpoint class_items (fuel : nat) (first : bool) (s : text)
  : option (list (char * char) * text) :=
  match fuel with
  | O => None
  | S f =>
    match s with
    | [] => None
    | c :: s1 =>
      if (c =? c_rbracket)%N && negb first then Some ([], s1)
      else
        match class_atom s with
        | None => None
        | Some (lo, s2) =>
          let single :=
            match class_items f false s2 with
            | Some (rs, s') => Some (atom_ranges lo ++ rs, s')
            | None => None
            end in
          match s2 with
          | d :: s3 =>
            if (d =? c_dash)%N then
              match s3 with
              | [] => None
              | h :: s4 =>
                if (h =? c_rbracket)%N then
                  Some (atom_ranges lo ++ [(c_dash, c_dash)], s4)
                else
                  match lo, class_atom s3 with
                  | inl lo, Some (inl hi, s5) =>
                    if (hi <? lo)%N then None
                    else
                      match class_items f false s5 with
                      | Some (rs, s') => Some ((lo, hi) :: rs, s')
                      | None => None
                      end
                  | _, _ => None
                  end
              end
            else single
          | [] => single
          end
        end
    end
  end.

(** The decimal number at the front of [s] (0 when there is no digit),
    and whether there was a digit. *)
Fixpoint number (acc : N) (seen : bool) (s : text) : N * bool * text :=
  match s with
  | c :: s' =>
    if is_digit c then number (acc * 10 + (c - 48))%N true s'
    else (acc, seen, s)
  | [] => (acc, seen, s)
  end.

(** A repetition in braces, read behind the opening brace:
    [{m}], [{m,}], [{,n}], [{m,n}]; the bounds and what follows the
    closing brace.  [None]: the brace is no repetition (it is then a
    literal brace). *)
Definition braces (s : text) : option (N * option N * text) :=
  match s with
  | [] => None
  | c :: _ =>
    if (c =? c_rbrace)%N then None
    else
      let '(lo, _, s1) := number 0 false s in
      match s1 with
      | d :: s2 =>
        if (d =? c_comma)%N then
          let '(hi, seen, s3) := number 0 false s2 in
          match s3 with
          | e :: s4 =>
            if (e =? c_rbrace)%N
            then Some (lo, if seen then Some hi else None, s4)
            else None
          | [] => None
          end
        else if (d =? c_rbrace)%N then Some (lo, Some lo, s2)
        else None
      | [] => None
      end
  end.

Definition max_repeat : N := 4294967295%N.

(** The character begins a repetition: one of [* + ?], or a brace that
    reads as a repetition. *)
Definition begins_repeat (s : text) : bool :=
  match s with
  | [] => false
  | c :: s' =>
    ((c =? c_star) || (c =? c_plus) || (c =? c_qmark))%N
    || ((c =? c_lbrace)%N
        && match braces s' with Some _ => true | None => false end)
  end.

Definition cat (a b : regex) : regex :=
  match b with
  | Eps => a
  | _ => Cat a b
  end.

(** [m] copies of [a], then [tail]. *)
Fixpoint power (m : nat) (a tail : regex) : regex :=
  match m with
  | O => tail
  | S m' => cat a (power m' a tail)
  end.

(** [a] repeated from [lo] to [hi] times ([None]: without bound): the
    iterations that must be there, then the loop of those that may. *)
Definition quantify (lo : N) (hi : option N) (lazy : bool) (a : regex)
  : regex :=
  power (N.to_nat lo) a
    match hi with
    | None => if lazy then Lazy a else Star a
    | Some hi => Upto lazy (N.to_nat (hi - lo)) a
    end.

(** The repetition at the front of [s], applied to [a]: the bounds, then
    a question mark for the lazy form.  A second repetition behind it is
    an error, or the possessive [+], which is not modelled. *)
Definition repetition (a : regex) (s : text) : option (regex * text) :=
  match s with
  | [] => None
  | q :: s1 =>
    let bounds :=
      if (q =? c_star)%N then Some (0%N, None, s1)
      else if (q =? c_plus)%N then Some (1%N, None, s1)
      else if (q =? c_qmark)%N then Some (0%N, Some 1%N, s1)
      else if (q =? c_lbrace)%N then braces s1
      else None in
    match bounds with
    | None => None
    | Some (lo, hi, s2) =>
      if (max_repeat <=? lo)%N
         || match hi with
            | Some hi => (max_repeat <=? hi)%N || (hi <? lo)%N
            | None => false
            end
      then None
      else
        let '(lazy, s3) :=
          match s2 with
          | c :: s' => if (c =? c_qmark)%N then (true, s') else (false, s2)
          | [] => (false, s2)
          end in
        if begins_repeat s3 then None
        else Some (quantify lo hi lazy a, s3)
    end
  end.

(** Recursive descent; [gi] counts the groups opened so far (a group is
    numbered by its opening parenthesis).  An atom comes with the mark of
    an anchor, which cannot be repeated. *)
Fixpoint p_alt (fuel : nat) (s : text) (gi : nat) {struct fuel}
  : option (regex * text * nat) :=
  match fuel with
  | O => None
  | S f =>
    match p_cat f s gi with
    | Some (a, s1, g1) =>
      match s1 with
      | c :: s2 =>
        if (c =? c_bar)%N then
          match p_alt f s2 g1 with
          | Some (b, s3, g3) => Some (Alt a b, s3, g3)
          | None => None
          end
        else Some (a, s1, g1)
      | [] => Some (a, s1, g1)
      end
    | None => None
    end
  end
with p_cat (fuel : nat) (s : text) (gi : nat) {struct fuel}
  : option (regex * text * nat) :=
  match fuel with
  | O => None
  | S f =>
    match s with
    | [] => Some (Eps, s, gi)
    | c :: _ =>
      if ((c =? c_bar) || (c =? c_rparen))%N then Some (Eps, s, gi)
      else
        match p_rep f s gi with
        | Some (a, s1, g1) =>
          match p_cat f s1 g1 with
          | Some (b, s2, g2) => Some (cat a b, s2, g2)
          | None => None
          end
        | None => None
        end
    end
  end
with p_rep (fuel : nat) (s : text) (gi : nat) {struct fuel}
  : option (regex * text * nat) :=
  match fuel with
  | O => None
  | S f =>
    match p_atom f s gi with
    | Some (a, anchor, s1, g1) =>
      if begins_repeat s1 then
        if anchor : bool then None
        else
          match repetition a s1 with
          | Some (r, s2) => Some (r, s2, g1)
          | None => None
          end
      else Some (a, s1, g1)
    | None => None
    end
  end
with p_atom (fuel : nat) (s : text) (gi : nat) {struct fuel}
  : option (regex * bool * text * nat) :=
  match fuel with
  | O => None
  | S f =>
    match s with
    | [] => None
    | c :: s1 =>
      if (c =? c_lparen)%N then
        match s1 with
        | [] => None
        | q :: s2 =>
          if (q =? c_qmark)%N then
            match s2 with
            | m :: s3 =>
              if ((m =? c_colon) || (m =? c_equal) || (m =? c_bang))%N then
                match p_alt f s3 gi with
                | Some (a, c2 :: s4, g2) =>
                  if (c2 =? c_rparen)%N then
                    Some (if (m =? c_colon)%N then a
                          else Look (m =? c_bang)%N a,
                          false, s4, g2)
                  else None
                | _ => None
                end
              else None
            | [] => None
            end
          else
            match p_alt f s1 (S gi) with
            | Some (a, c2 :: s2, g2) =>
              if (c2 =? c_rparen)%N then Some (Grp (S gi) a, false, s2, g2)
              else None
            | _ => None
            end
        end
      else if (c =? c_lbracket)%N then
        match s1 with
        | [] => None
        | n :: s2 =>
          let neg := (n =? c_caret)%N in
          match class_items (S (length s1)) true (if neg then s2 else s1) with
          | Some (rs, s3) => Some (Cls neg rs, false, s3, gi)
          | None => None
          end
        end
      else if (c =? c_dot)%N then Some (Dot, false, s1, gi)
      else if (c =? c_caret)%N then Some (Bol, true, s1, gi)
      else if (c =? c_dollar)%N then Some (Eol, true, s1, gi)
      else if (c =? c_backslash)%N then
        match s1 with
        | e :: s2 =>
          match escape e with
          | Some (EChar v) => Some (Lit v, false, s2, gi)
          | Some (EClass neg rs) => Some (Cls neg rs, false, s2, gi)
          | Some EBos => Some (Bol, true, s2, gi)
          | Some EEos => Some (Eos, true, s2, gi)
          | None => None
          end
        | [] => None
        end
      else if begins_repeat s then None
      else Some (Lit c, false, s1, gi)
    end
  end.

(** [re.compile]: [None] when the pattern is rejected by [re] (it raises
    [re.error]) or uses syntax outside the modelled fragment. *)
Definition compile (p : text) : option pattern :=
  match p_alt (4 * length p + 8) p 0 with
  | Some (r, [], n) => Some {| ast := r; ngroups := n |}
  | _ => None
  end.

End Re.

(* ================================================================== *)
(** ** The plugin: [MessageSplitterPlugin] *)

(** What a call can come to: it returns, it raises ([re.error], from a
    pattern that does not compile), or its loop is still running when the
    fuel is spent. *)
Inductive outcome (A : Type) : Type :=
| Done (a : A)
| Raised
| Diverged.
Arguments Done {A} a.
Arguments Raised {A}.
Arguments Diverged {A}.

Definition bind {A B : Type} (x : outcome A) (f : A -> outcome B)
  : outcome B :=
  match x with
  | Done a => f a
  | Raised => Raised
  | Diverged => Diverged
  end.

Notation "'do' x <- c ; k" := (bind c (fun x => k))
  (at level 10, x pattern, c at level 100, k at level 200).

Module Splitter.

(** [BaseMessageComponent]: [Plain] carries text; every other component
    (image, mention, ...) is opaque to the plugin. *)
Inductive component : Type :=
| Plain (text : text)
| Other (payload : nat).

Definition chain := list component.

Definition isinstance_Plain (c : component) : bool :=
  match c with Plain _ => true | Other _ => false end.

(** No [Plain] component of the chain has empty text. *)
Definition no_empty_Plain (mc : chain) : Prop :=
  forall t, In (Plain t) mc -> t <> [].

(** *** [self.pair_map] *)

Definition pair_map : list (char * char) :=
  [ (0x201C, 0x201D); (0x300A, 0x300B); (0xFF08, 0xFF09); (40, 41);
    (91, 93); (123, 125); (34, 34); (39, 39) ]%N.

Fixpoint dict_get (d : list (char * char)) (key : char) : option char :=
  match d with
  | [] => None
  | (k, v) :: d' => if (k =? key)%N then Some v else dict_get d' key
  end.

Definition dict_contains (d : list (char * char)) (key : char) : bool :=
  match dict_get d key with Some _ => true | None => false end.

(** The test of the quote branch: the character is one of the two
    same-glyph quotes (code points 34 and 39). *)
Definition is_quote (c : char) : bool := ((c =? 34) || (c =? 39))%N.

(** *** [_process_text_simple] *)

(** [f"({pattern})"] *)
Definition wrap_group (pattern : text) : text :=
  Re.c_lparen :: pattern ++ [Re.c_rparen].

(** [re.split(f"({pattern})", text)] *)
Definition re_split_wrapped (pattern t : text)
  : outcome (list (option text)) :=
  match Re.compile (wrap_group pattern) with
  | Some p => Done (Re.split p t)
  | None => Raised
  end.

(** [re.fullmatch(pattern, part)] as a truth value *)
Definition re_fullmatch (pattern part : text) : outcome bool :=
  match Re.compile pattern with
  | Some p => Done (Re.fullmatch p part)
  | None => Raised
  end.

(** The [for part in parts] loop.  [segments] and [buffer] are the
    caller's lists, mutated in place; the stack of segments grows at its
    end.  [None] is Python's [None], the value of a group that took no
    part in a match. *)
Fixpoint simple_walk (pattern : text) (parts : list (option text))
    (temp_text : text) (segments : list chain) (buffer : chain)
  : outcome (text * list chain * chain) :=
  match parts with
  | [] => Done (temp_text, segments, buffer)
  | part :: parts' =>
    match part with
    | None | Some [] => simple_walk pattern parts' temp_text segments buffer
    | Some part =>
      do is_delim <- re_fullmatch pattern part;
      if is_delim : bool then
        let temp_text := temp_text ++ part in
        let buffer := buffer ++ [Plain temp_text] in
        simple_walk pattern parts' [] (segments ++ [buffer]) []
      else
        let buffer :=
          if truthy temp_text then buffer ++ [Plain temp_text] else buffer in
        simple_walk pattern parts' part segments buffer
    end
  end.

Definition _process_text_simple (t pattern : text)
    (segments : list chain) (buffer : chain)
  : outcome (list chain * chain) :=
  do parts <- re_split_wrapped pattern t;
  do (temp_text, segments, buffer) <-
     simple_walk pattern parts [] segments buffer;
  Done (segments,
        if truthy temp_text then buffer ++ [Plain temp_text] else buffer).

(** *** [_process_text_smart] *)

(** The variables of the [while] loop.  [stack] has its top first. *)
Record smart_state : Type := {
  i : nat;
  stack : list char;
  current_chunk : text;
  buffer : chain;
  segments : list chain
}.

Definition consume (st : smart_state) (c : char) (stack' : list char)
  : smart_state :=
  {| i := i st + 1;
     stack := stack';
     current_chunk := current_chunk st ++ [c];
     buffer := buffer st;
     segments := segments st |}.

(** One iteration of the loop body, at [i < n]. *)
Definition smart_step (compiled_pattern : Re.pattern) (t : text)
    (st : smart_state) : smart_state :=
  match nth_error t (i st) with
  | None => st
  | Some c =>
    let is_opener := dict_contains pair_map c in
    if is_quote c then
      match stack st with
      | top :: below =>
        if (top =? c)%N then consume st c below
        else consume st c (c :: stack st)
      | [] => consume st c [c]
      end
    else
      match stack st with
      | top :: below =>
        let expected_closer := dict_get pair_map top in
        match expected_closer with
        | Some closer =>
          if (c =? closer)%N then consume st c below
          else if is_opener then consume st c (c :: stack st)
          else consume st c (stack st)
        | None =>
          if is_opener then consume st c (c :: stack st)
          else consume st c (stack st)
        end
      | [] =>
        if is_opener then consume st c [c]
        else
          match Re.match_at compiled_pattern t (i st) with
          | Some delimiter =>
            let current_chunk := current_chunk st ++ delimiter in
            let buffer := buffer st ++ [Plain current_chunk] in
            {| i := i st + length delimiter;
               stack := [];
               current_chunk := [];
               buffer := [];
               segments := segments st ++ [buffer] |}
          | None => consume st c []
          end
      end
  end.

(** [while i < n]: [None] when the fuel is spent with [i < n] still. *)
Fixpoint smart_loop (fuel : nat) (compiled_pattern : Re.pattern) (t : text)
    (st : smart_state) : option smart_state :=
  if i st <? length t then
    match fuel with
    | O => None
    | S fuel' =>
      smart_loop fuel' compiled_pattern t (smart_step compiled_pattern t st)
    end
  else Some st.

(** The state after [k] iterations. *)
Definition smart_steps (compiled_pattern : Re.pattern) (t : text) (k : nat)
    (st : smart_state) : smart_state :=
  Nat.iter k (smart_step compiled_pattern t) st.

Definition _process_text_smart (fuel : nat) (t pattern : text)
    (segments : list chain) (buffer : chain)
  : outcome (list chain * chain) :=
  match Re.compile pattern with
  | None => Raised
  | Some compiled_pattern =>
    match smart_loop fuel compiled_pattern t
            {| i := 0; stack := []; current_chunk := [];
               buffer := buffer; segments := segments |} with
    | None => Diverged
    | Some st =>
      Done (Splitter.segments st,
            if truthy (current_chunk st)
            then Splitter.buffer st ++ [Plain (current_chunk st)]
            else Splitter.buffer st)
    end
  end.

(** *** [split_chain_smart] *)

Fixpoint chain_loop (fuel : nat) (chain : chain) (pattern : text)
    (smart_mode : bool) (segments : list Splitter.chain)
    (current_chain_buffer : Splitter.chain)
  : outcome (list Splitter.chain * Splitter.chain) :=
  match chain with
  | [] => Done (segments, current_chain_buffer)
  | component :: chain' =>
    match component with
    | Other _ =>
      chain_loop fuel chain' pattern smart_mode segments
        (current_chain_buffer ++ [component])
    | Plain [] =>
      chain_loop fuel chain' pattern smart_mode segments current_chain_buffer
    | Plain t =>
      do (segments, current_chain_buffer) <-
         (if smart_mode
          then _process_text_smart fuel t pattern segments
                 current_chain_buffer
          else _process_text_simple t pattern segments current_chain_buffer);
      chain_loop fuel chain' pattern smart_mode segments current_chain_buffer
    end
  end.

Definition nonempty {A : Type} (l : list A) : bool :=
  match l with [] => false | _ => true end.

Definition split_chain_smart (fuel : nat) (chain : chain) (pattern : text)
    (smart_mode : bool) : outcome (list Splitter.chain) :=
  do (segments, current_chain_buffer) <-
     chain_loop fuel chain pattern smart_mode [] [];
  let segments :=
    if nonempty current_chain_buffer
    then segments ++ [current_chain_buffer] else segments in
  Done (filter nonempty segments).

End Splitter.

(* ================================================================== *)
(** ** Configuration, delay, capping and dispatch *)

Module Plugin.
Import Splitter.

(** A decimal literal denotes the nearest binary64 value, here as in
    Python. *)
#[local] Set Warnings "-inexact-float".

(** [self.config]: a key that is absent is [None], and [get] supplies the
    default that the call site gives. *)
Record Config : Type := {
  split_regex : option text;
  clean_regex : option text;
  enable_smart_split : option bool;
  max_segments : option Z;
  delay_strategy : option text;
  random_min : option float;
  random_max : option float;
  log_base : option float;
  log_factor : option float;
  fixed_delay : option float
}.

Definition get {A : Type} (v : option A) (default : A) : A :=
  match v with Some a => a | None => default end.

(** The default of [split_regex], character for character as the raw
    string literal of the source spells it: the class holds two
    backslashes followed by the letter n. *)
Definition default_split_regex : text := py "[。？！?!\\n…]+".

(** The members of the character class of [default_split_regex], as
    [re] reads it: the escaped backslash is a backslash, and the letter n
    after it is a letter. *)
Definition default_class : list (char * char) :=
  map (fun c => (c, c)) (py "。？！?!\n…").

(** The configuration that sets no key. *)
Definition no_config : Config :=
  {| split_regex := None; clean_regex := None; enable_smart_split := None;
     max_segments := None; delay_strategy := None; random_min := None;
     random_max := None; log_base := None; log_factor := None;
     fixed_delay := None |}.

(** The configuration whose only key is an empty [split_regex]. *)
Definition empty_split_config : Config :=
  {| split_regex := Some []; clean_regex := None;
     enable_smart_split := None; max_segments := None;
     delay_strategy := None; random_min := None; random_max := None;
     log_base := None; log_factor := None; fixed_delay := None |}.

(** [__is_llm_reply], [__splitter_processed] and the chain of
    [event.get_result()] ([None] when there is no result). *)
Record Event : Type := {
  is_llm_reply : bool;
  splitter_processed : bool;
  result_chain : option chain
}.

Definition on_llm_response (event : Event) : Event :=
  {| is_llm_reply := true;
     splitter_processed := splitter_processed event;
     result_chain := result_chain event |}.

(** How [await self.context.send_message(...)] ends: the call returns;
    it raises an [Exception], which the [except Exception] of the loop
    catches; or it raises a [BaseException] that is no [Exception]
    ([asyncio.CancelledError], when the task is cancelled at the await),
    which no handler of the loop catches. *)
Inductive send_result : Type := Delivered | Refused | Interrupted.

(** What the handler does to the outside, in order: a chain handed to
    [send_message] (delivered, refused with an exception that the handler
    catches, or interrupted by the cancellation of the task), and a wait
    of [asyncio.sleep] (run to its end, or interrupted). *)
Inductive effect : Type :=
| Sent (mc : chain)
| SendFailed (mc : chain)
| Slept (wait_time : float)
| SendCancelled (mc : chain)
| SleepCancelled (wait_time : float).

(** How a call of the handler ends: it returns, it raises [re.error], its
    scan never ends, or it is cancelled at an await. *)
Inductive ending : Type := Returned | Raises | Diverges | Cancelled.

(** A chain was handed to [send_message], delivered or not. *)
Definition handed_to_sender (mc : chain) (tr : list effect) : Prop :=
  In (Sent mc) tr \/ In (SendFailed mc) tr \/ In (SendCancelled mc) tr.

(** Step 4 of [on_decorating_result]: the segment-count cap. *)
Definition cap_segments (segments : list chain) (max_segs : Z)
  : list chain :=
  if (Z.of_nat (length segments) >? max_segs)%Z && (max_segs >? 0)%Z then
    let trimmed_segments := firstn (Z.to_nat (max_segs - 1)) segments in
    let merged_last_segment :=
      concat (skipn (Z.to_nat (max_segs - 1)) segments) in
    trimmed_segments ++ [merged_last_segment]
  else segments.

(** The text of the [Plain] components of a chain, joined. *)
Fixpoint text_content (segment_chain : chain) : text :=
  match segment_chain with
  | [] => []
  | Plain t :: rest => t ++ text_content rest
  | Other _ :: rest => text_content rest
  end.

(** [re.sub(clean_pattern, empty, comp.text)] on every [Plain] component
    whose text is not empty. *)
Fixpoint clean_chain (clean_pattern : text) (segment_chain : chain)
  : outcome chain :=
  match segment_chain with
  | [] => Done []
  | Plain ((_ :: _) as t) :: rest =>
    match Re.compile clean_pattern with
    | None => Raised
    | Some p =>
      do rest' <- clean_chain clean_pattern rest;
      Done (Plain (Re.sub_empty p t) :: rest')
    end
  | comp :: rest =>
    do rest' <- clean_chain clean_pattern rest;
    Done (comp :: rest')
  end.

(** Lines 74-78: the cleanup of a segment before it is sent, when a
    cleanup pattern is configured. *)
Definition cleanup (clean_pattern : text) (segment_chain : chain)
  : outcome chain :=
  if truthy clean_pattern then clean_chain clean_pattern segment_chain
  else Done segment_chain.

(** Lines 81-86: the test of the skip, on the cleaned segment: it holds
    text components only and their joined text is empty. *)
Definition skipped (segment_chain : chain) : bool :=
  forallb isinstance_Plain segment_chain
  && negb (truthy (text_content segment_chain)).

(** Python's [min(a, b)]: [b] when [b < a], else [a]. *)
Definition py_min (a b : float) : float := if (b <? a)%float then b else a.

(** The conversion of a length to a float (lengths stay below 2^63). *)
Definition float_of_nat (n : nat) : float :=
  PrimFloat.of_uint63 (Uint63.of_Z (Z.of_nat n)).

Section Environment.

(** The collaborators: [math.log], the draw of [random.uniform], the
    outcome of [send_message] and whether [asyncio.sleep] runs to its end
    ([false]: the task is cancelled during the wait), the last three for
    the segment at a given position. *)
Variable math_log : float -> float.
Variable random_uniform : nat -> float -> float -> float.
Variable send_message : nat -> chain -> send_result.
Variable asyncio_sleep : nat -> float -> bool.

Definition calculate_delay (config : Config) (i : nat) (t : text) : float :=
  let strategy := get (delay_strategy config) (py "log") in
  if text_eqb strategy (py "random") then
    let mn := get (random_min config) 1%float in
    let mx := get (random_max config) 3%float in
    random_uniform i mn mx
  else if text_eqb strategy (py "log") then
    let base := get (log_base config) 0.5%float in
    let factor := get (log_factor config) 0.8%float in
    let length := length t in
    let delay := (base + factor * math_log (float_of_nat (length + 1)))%float in
    py_min delay 5%float
  else get (fixed_delay config) 1.5%float.

(** Step 5: the body of the loop for the segment at position [i] of [n]:
    what it does to the outside and how it ends ([Returned]: the loop goes
    on with the next segment; [Raises]: the cleanup pattern does not
    compile; [Cancelled]: the task is cancelled at one of the two
    awaits). *)
Definition dispatch_one (config : Config) (clean_pattern : text)
    (n i : nat) (segment_chain : chain) : list effect * ending :=
  if negb (nonempty segment_chain) then ([], Returned)
  else
    match cleanup clean_pattern segment_chain with
    | Raised => ([], Raises)
    | Diverged => ([], Diverges)
    | Done segment_chain =>
      let text_content := text_content segment_chain in
      if skipped segment_chain then ([], Returned)
      else
        match send_message i segment_chain with
        | Interrupted => ([SendCancelled segment_chain], Cancelled)
        | Refused => ([SendFailed segment_chain], Returned)
        | Delivered =>
          if i <? n - 1 then
            let wait_time := calculate_delay config i text_content in
            if asyncio_sleep i wait_time
            then ([Sent segment_chain; Slept wait_time], Returned)
            else ([Sent segment_chain; SleepCancelled wait_time], Cancelled)
          else ([Sent segment_chain], Returned)
        end
    end.

(** [for i, segment_chain in enumerate(segments)], from position [i]. *)
Fixpoint dispatch (config : Config) (clean_pattern : text) (n i : nat)
    (segments : list chain) : list effect * ending :=
  match segments with
  | [] => ([], Returned)
  | segment_chain :: rest =>
    match dispatch_one config clean_pattern n i segment_chain with
    | (evs, Returned) =>
      let (tr, e) := dispatch config clean_pattern n (S i) rest in
      (evs ++ tr, e)
    | (evs, e) => (evs, e)
    end
  end.

Definition mark_processed (event : Event) : Event :=
  {| is_llm_reply := is_llm_reply event;
     splitter_processed := true;
     result_chain := result_chain event |}.

Definition clear_chain (event : Event) : Event :=
  {| is_llm_reply := is_llm_reply event;
     splitter_processed := splitter_processed event;
     result_chain := Some [] |}.

(** The handler: the event as it leaves it, what was sent and awaited,
    and how the call ended.  Only a call that returns from the loop
    reaches [result.chain.clear()]. *)
Definition on_decorating_result (fuel : nat) (config : Config)
    (event : Event) : Event * list effect * ending :=
  if negb (is_llm_reply event) then (event, [], Returned)
  else if splitter_processed event then (event, [], Returned)
  else
    let event := mark_processed event in
    match result_chain event with
    | None | Some [] => (event, [], Returned)
    | Some chain =>
      let split_pattern := get (split_regex config) default_split_regex in
      let clean_pattern := get (clean_regex config) [] in
      let smart_mode := get (enable_smart_split config) true in
      let max_segs := get (max_segments config) 7%Z in
      match split_chain_smart fuel chain split_pattern smart_mode with
      | Raised => (event, [], Raises)
      | Diverged => (event, [], Diverges)
      | Done segments =>
        let segments := cap_segments segments max_segs in
        if (length segments <=? 1) && negb (truthy clean_pattern)
        then (event, [], Returned)
        else
          match dispatch config clean_pattern (length segments) 0 segments
          with
          | (tr, Returned) => (clear_chain event, tr, Returned)
          | (tr, e) => (event, tr, e)
          end
      end
    end.

End Environment.

End Plugin.

(* ================================================================== *)
(** ** Notions used to state the properties *)

Module Notions.
Import Splitter Plugin.

(** The text of the parts that are not [None], joined. *)
Fixpoint parts_text (parts : list (option text)) : text :=
  match parts with
  | [] => []
  | Some t :: parts' => t ++ parts_text parts'
  | None :: parts' => parts_text parts'
  end.

(** The non-text components of a chain, in order. *)
Definition others (mc : chain) : chain :=
  filter (fun c => negb (isinstance_Plain c)) mc.

(** All the components emitted so far, in order. *)
Definition emitted (segs : list chain) (buf : chain) : chain :=
  concat segs ++ buf.

(** The pattern has no capturing group of its own: wrapped as simple
    mode wraps it, it compiles to a single group. *)
Definition group_free_wrap (pattern : text) : Prop :=
  exists r, Re.compile (wrap_group pattern)
            = Some {| Re.ast := Re.Grp 1 r; Re.ngroups := 1 |}.

(** The text emitted, the chunk and the text still to scan make up the
    text emitted before the loop and the whole text; the non-text
    components are untouched. *)
Definition smart_inv (t : text) (base : chain) (st : smart_state) : Prop :=
  text_content (emitted (segments st) (buffer st)) ++ current_chunk st
    ++ skipn (i st) t = text_content base ++ t
  /\ others (emitted (segments st) (buffer st)) = others base.




(** The pattern never matches the empty text. *)
Definition never_empty (p : Re.pattern) : Prop :=
  forall t pos, Re.match_at p t pos <> Some [].

End Notions.

(* ================================================================== *)
(** ** What a call of the handler shows to the outside *)

Module Observables.
Import Splitter Plugin.

(** The chain ends with a [Plain] of non-empty text. *)
Definition ends_with_Plain (seg : chain) : Prop :=
  exists pre t, t <> [] /\ seg = pre ++ [Plain t].

(** The component carries no text: it is not a [Plain], or its text is
    empty. *)
Definition textless (c : component) : bool :=
  match c with Plain (_ :: _) => false | _ => true end.

(** The chains handed to [send_message], delivered or not, in order. *)
Fixpoint attempts (tr : list effect) : list chain :=
  match tr with
  | [] => []
  | Sent mc :: tr' => mc :: attempts tr'
  | SendFailed mc :: tr' => mc :: attempts tr'
  | SendCancelled mc :: tr' => mc :: attempts tr'
  | Slept _ :: tr' => attempts tr'
  | SleepCancelled _ :: tr' => attempts tr'
  end.

(** The number of waits, run to their end or not. *)
Fixpoint sleeps (tr : list effect) : nat :=
  match tr with
  | [] => 0
  | Slept _ :: tr' => S (sleeps tr')
  | SleepCancelled _ :: tr' => S (sleeps tr')
  | _ :: tr' => sleeps tr'
  end.

(** Every wait comes directly after a delivered chain. *)
Fixpoint well_paced (tr : list effect) : bool :=
  match tr with
  | [] => true
  | Slept _ :: _ => false
  | SleepCancelled _ :: _ => false
  | Sent _ :: Slept _ :: tr' => well_paced tr'
  | Sent _ :: SleepCancelled _ :: tr' => well_paced tr'
  | _ :: tr' => well_paced tr'
  end.

Definition starts_with_wait (tr : list effect) : bool :=
  match tr with
  | Slept _ :: _ => true
  | SleepCancelled _ :: _ => true
  | _ => false
  end.

(** The body of the dispatch loop up to the call of [send_message]: the
    chain that the iteration hands to the sender, if it hands one. *)
Definition offered (clean_pattern : text) (seg : chain)
  : outcome (list chain) :=
  if negb (nonempty seg) then Done []
  else
    do mc <- cleanup clean_pattern seg;
    if skipped mc then Done [] else Done [mc].

Fixpoint offered_all (clean_pattern : text) (segs : list chain)
  : list chain * ending :=
  match segs with
  | [] => ([], Returned)
  | seg :: rest =>
    match offered clean_pattern seg with
    | Done l =>
      let (r, e) := offered_all clean_pattern rest in (l ++ r, e)
    | Raised => ([], Raises)
    | Diverged => ([], Diverges)
    end
  end.

(** The two handlers of the plugin, as the framework calls them on one
    event: each call of [on_decorating_result] with its own collaborators
    and configuration. *)
Inductive call : Type :=
| Llm_response
| Decorating_result (math_log : float -> float)
    (random_uniform : nat -> float -> float -> float)
    (send_message : nat -> chain -> send_result)
    (asyncio_sleep : nat -> float -> bool) (fuel : nat) (config : Config).

(** A sequence of calls on one event: the event after the last call and
    everything sent and awaited on the way.  A call that raises leaves
    the event to the next call as it left it. *)
Fixpoint run_calls (calls : list call) (event : Event)
  : Event * list effect :=
  match calls with
  | [] => (event, [])
  | Llm_response :: calls => run_calls calls (on_llm_response event)
  | Decorating_result math_log random_uniform send_message asyncio_sleep
      fuel config :: calls =>
    let '(event, tr, _) :=
      on_decorating_result math_log random_uniform send_message
        asyncio_sleep fuel config event in
    let (event, tr') := run_calls calls event in
    (event, tr ++ tr')
  end.

End Observables.

(* ================================================================== *)
(** * Properties *)

Import Splitter Plugin Notions Observables.

(** ** Fuel: a loop that ends keeps its result under more fuel *)

Lemma smart_loop_mono p t f : forall st r,
  smart_loop f p t st = Some r ->
  forall f', f <= f' -> smart_loop f' p t st = Some r.
Proof.
  induction f as [|f IH]; intros st r H f' Hle.
  - simpl in H. destruct f'; simpl; destruct (i st <? length t); congruence.
  - destruct f' as [|f']; [lia|]. simpl in *.
    destruct (i st <? length t); [|exact H].
    apply IH with (f' := f') in H; [exact H | lia].
Qed.

Lemma process_text_smart_mono f f' t pattern segs buf r :
  f <= f' ->
  _process_text_smart f t pattern segs buf = Done r ->
  _process_text_smart f' t pattern segs buf = Done r.
Proof.
  intros Hle. unfold _process_text_smart.
  destruct (Re.compile pattern) as [cp|]; [|discriminate].
  destruct (smart_loop f cp t _) as [st|] eqn:E; [|discriminate].
  now rewrite (smart_loop_mono _ _ _ _ _ E _ Hle).
Qed.

Lemma chain_loop_mono f f' pattern smart_mode : f <= f' ->
  forall ch segs buf r,
    chain_loop f ch pattern smart_mode segs buf = Done r ->
    chain_loop f' ch pattern smart_mode segs buf = Done r.
Proof.
  intros Hle ch. induction ch as [|c ch IH]; intros segs buf r H.
  - exact H.
  - destruct c as [[|x t]|n]; cbn [chain_loop] in *; auto.
    destruct smart_mode.
    + destruct (_process_text_smart f (x :: t) pattern segs buf)
        as [[segs' buf']| |] eqn:E; try discriminate.
      rewrite (process_text_smart_mono _ _ _ _ _ _ _ Hle E).
      cbn [bind] in *. auto.
    + destruct (_process_text_simple (x :: t) pattern segs buf)
        as [[segs' buf']| |]; try discriminate. cbn [bind] in *. auto.
Qed.

Lemma split_chain_smart_mono f f' chain pattern smart_mode r : f <= f' ->
  split_chain_smart f chain pattern smart_mode = Done r ->
  split_chain_smart f' chain pattern smart_mode = Done r.
Proof.
  intros Hle. unfold split_chain_smart.
  destruct (chain_loop f chain pattern smart_mode [] []) as [[s b]| |] eqn:E;
    try discriminate.
  now rewrite (chain_loop_mono _ _ _ _ Hle _ _ _ _ E).
Qed.

(** ** The handler around the segmenter *)

(** The handler on a fresh reply of the provider with a non-empty chain,
    once the segmenter has returned. *)
Lemma handler_after_split math_log random_uniform send_message asyncio_sleep
    fuel config c ch segs :
  split_chain_smart fuel (c :: ch)
    (get (split_regex config) default_split_regex)
    (get (enable_smart_split config) true) = Done segs ->
  on_decorating_result math_log random_uniform send_message asyncio_sleep
    fuel config
    {| is_llm_reply := true; splitter_processed := false;
       result_chain := Some (c :: ch) |}
  = let event := {| is_llm_reply := true; splitter_processed := true;
                    result_chain := Some (c :: ch) |} in
    let clean_pattern := get (clean_regex config) [] in
    let segments := cap_segments segs (get (max_segments config) 7%Z) in
    if (length segments <=? 1) && negb (truthy clean_pattern)
    then (event, [], Returned)
    else
      match dispatch math_log random_uniform send_message asyncio_sleep config
              clean_pattern (length segments) 0 segments with
      | (tr, Returned) => (clear_chain event, tr, Returned)
      | (tr, e) => (event, tr, e)
      end.
Proof.
  intros H. unfold on_decorating_result.
  cbn [is_llm_reply splitter_processed negb mark_processed result_chain].
  rewrite H. reflexivity.
Qed.

Lemma handler_split_diverges math_log random_uniform send_message asyncio_sleep
    fuel config c ch :
  split_chain_smart fuel (c :: ch)
    (get (split_regex config) default_split_regex)
    (get (enable_smart_split config) true) = Diverged ->
  on_decorating_result math_log random_uniform send_message asyncio_sleep
    fuel config
    {| is_llm_reply := true; splitter_processed := false;
       result_chain := Some (c :: ch) |}
  = ({| is_llm_reply := true; splitter_processed := true;
        result_chain := Some (c :: ch) |}, [], Diverges).
Proof.
  intros H. unfold on_decorating_result.
  cbn [is_llm_reply splitter_processed negb mark_processed result_chain].
  rewrite H. reflexivity.
Qed.

(** ** The bracket/quote tracker of smart mode *)

Section Tracker.
Variables (p : Re.pattern) (t : text).

(** With a non-empty stack the iteration only consumes the character. *)
Lemma step_nonempty_stack st x :
  stack st <> [] -> nth_error t (i st) = Some x ->
  exists stk, smart_step p t st = consume st x stk.
Proof.
  intros Hs Hx. unfold smart_step. rewrite Hx.
  destruct (stack st) as [|top below] eqn:E; [congruence|].
  destruct (is_quote x).
  - destruct (top =? x)%N; eauto.
  - destruct (dict_get pair_map top) as [closer|].
    + destruct (x =? closer)%N; [eauto|].
      destruct (dict_contains pair_map x); eauto.
    + destruct (dict_contains pair_map x); eauto.
Qed.

Lemma closer_of_opener a b :
  dict_get pair_map a = Some b -> dict_contains pair_map b = true ->
  is_quote b = true.
Proof.
  unfold dict_contains, pair_map; cbn [dict_get].
  repeat match goal with
         | |- context [N.eqb ?k a] =>
           destruct (N.eqb_spec k a); [ intros [= <-]; vm_compute; congruence |]
         end.
  intros; discriminate.
Qed.

Lemma step_opener st o c :
  dict_get pair_map o = Some c -> is_quote o = false ->
  nth_error t (i st) = Some o ->
  smart_step p t st = consume st o (o :: stack st).
Proof.
  intros Ho Hq Hx. unfold smart_step. rewrite Hx, Hq.
  assert (Hc : dict_contains pair_map o = true)
    by (unfold dict_contains; now rewrite Ho).
  rewrite Hc.
  destruct (stack st) as [|top below] eqn:E; [reflexivity|].
  destruct (dict_get pair_map top) as [closer|] eqn:Et; [|reflexivity].
  destruct (N.eqb_spec o closer) as [->|]; [|reflexivity].
  apply closer_of_opener in Et; congruence.
Qed.

Lemma step_inside st o c x above below :
  dict_get pair_map o = Some c -> is_quote o = false -> x <> c ->
  stack st = above ++ o :: below ->
  nth_error t (i st) = Some x ->
  exists above', smart_step p t st = consume st x (above' ++ o :: below).
Proof.
  intros Ho Hq Hxc Hs Hx. unfold smart_step. rewrite Hx, Hs.
  destruct above as [|top above]; cbn [app].
  - destruct (is_quote x) eqn:Qx.
    + destruct (N.eqb_spec o x) as [->|]; [congruence|]. now exists [x].
    + rewrite Ho. destruct (N.eqb_spec x c); [congruence|].
      destruct (dict_contains pair_map x); [now exists [x] | now exists []].
  - destruct (is_quote x).
    + destruct (top =? x)%N;
        [now exists above | now exists (x :: top :: above)].
    + destruct (dict_get pair_map top) as [closer|].
      * destruct (x =? closer)%N; [now exists above|].
        destruct (dict_contains pair_map x);
          [now exists (x :: top :: above) | now exists (top :: above)].
      * destruct (dict_contains pair_map x);
          [now exists (x :: top :: above) | now exists (top :: above)].
Qed.

End Tracker.

Lemma nth_error_mid {A} (pre body post : list A) j :
  j < length body ->
  nth_error (pre ++ body ++ post) (length pre + j) = nth_error body j.
Proof.
  intros H. rewrite nth_error_app2 by lia.
  replace (length pre + j - length pre) with j by lia.
  now rewrite nth_error_app1.
Qed.


Lemma smart_loop_steps p t k : forall st fuel,
  (forall j, j < k -> i (smart_steps p t j st) < length t) ->
  smart_loop (k + fuel) p t st = smart_loop fuel p t (smart_steps p t k st).
Proof.
  induction k as [|k IH]; intros st fuel H; [reflexivity|].
  cbn [Nat.add smart_loop].
  pose proof (H 0 ltac:(lia)) as H0. cbn in H0.
  apply Nat.ltb_lt in H0. rewrite H0.
  rewrite IH.
  - unfold smart_steps. now rewrite Nat.iter_succ_r.
  - intros j Hj. specialize (H (S j) ltac:(lia)).
    unfold smart_steps in *. now rewrite Nat.iter_succ_r in H.
Qed.


(** A loop that meets an empty match with an empty stack never ends. *)
Lemma empty_match_stuck p t c fuel : forall st,
  nth_error t (i st) = Some c -> stack st = [] ->
  dict_contains pair_map c = false -> is_quote c = false ->
  Re.match_at p t (i st) = Some [] ->
  smart_loop fuel p t st = None.
Proof.
  induction fuel as [|fuel IH]; intros st Hc Hs Ho Hq Hm;
    assert (i st < length t) by (apply nth_error_Some; congruence);
    simpl; destruct (Nat.ltb_spec (i st) (length t)); try lia; [reflexivity|].
  assert (E : smart_step p t st =
              {| i := i st + 0; stack := []; current_chunk := [];
                 buffer := [];
                 segments := segments st
                   ++ [buffer st ++ [Plain (current_chunk st ++ [])]] |}).
  { unfold smart_step. now rewrite Hc, Hq, Hs, Ho, Hm. }
  rewrite E. apply IH; simpl; rewrite ?Nat.add_0_r; auto.
Qed.




(** ** Capping, simple mode, the default pattern, the empty pattern *)

(** C3: the segment-count cap.  With [M <= 0] or at most [M] segments
    the list is returned as it is.  Otherwise the result has exactly [M]
    segments: the first [M-1] are those of the input, and what follows
    them is one segment, the concatenation in order of the segments from
    the [M]-th on.  Ten segments capped at 3 give three, the third being
    segments 3 to 10 joined in order. *)
Theorem cap_segments_spec :
  (forall (S : list chain) (M : Z),
      (M <= 0 \/ Z.of_nat (length S) <= M)%Z -> cap_segments S M = S)
  /\
  (forall (S : list chain) (M : Z),
      (0 < M < Z.of_nat (length S))%Z ->
      length (cap_segments S M) = Z.to_nat M /\
      firstn (Z.to_nat M - 1) (cap_segments S M) = firstn (Z.to_nat M - 1) S /\
      skipn (Z.to_nat M - 1) (cap_segments S M)
      = [concat (skipn (Z.to_nat M - 1) S)])
  /\
  (forall s1 s2 s3 s4 s5 s6 s7 s8 s9 s10 : chain,
      cap_segments [s1; s2; s3; s4; s5; s6; s7; s8; s9; s10] 3
      = [s1; s2; concat [s3; s4; s5; s6; s7; s8; s9; s10]]).
Proof.
  split; [|split].
  - intros S M H. unfold cap_segments.
    destruct (Z.gtb_spec (Z.of_nat (length S)) M), (Z.gtb_spec M 0);
      simpl; try reflexivity; lia.
  - intros S M H. unfold cap_segments.
    destruct (Z.gtb_spec (Z.of_nat (length S)) M), (Z.gtb_spec M 0);
      simpl; try lia.
    replace (Z.to_nat (M - 1)) with (Z.to_nat M - 1) by lia.
    set (k := Z.to_nat M - 1).
    assert (Hk : k < length S) by (unfold k; lia).
    assert (Hl : length (firstn k S) = k) by (rewrite length_firstn; lia).
    repeat split.
    + rewrite length_app, Hl. simpl. unfold k. lia.
    + rewrite firstn_app, Hl, Nat.sub_diag. simpl. rewrite app_nil_r.
      rewrite firstn_firstn. f_equal. lia.
    + rewrite skipn_app, Hl, Nat.sub_diag. simpl.
      rewrite skipn_all2; [reflexivity | lia].
  - intros. reflexivity.
Qed.

Lemma cap_segments_spec_witness :
  cap_segments [[Other 1]; [Other 2]; [Other 3]] 5
  = [[Other 1]; [Other 2]; [Other 3]]
  /\ cap_segments [[Other 1]; [Other 2]; [Other 3]] (-1)
     = [[Other 1]; [Other 2]; [Other 3]]
  /\ skipn (Z.to_nat 2 - 1)
       (cap_segments [[Other 1]; [Other 2]; [Other 3]] 2)
     = [concat (skipn (Z.to_nat 2 - 1) [[Other 1]; [Other 2]; [Other 3]])].
Proof.
  split; [|split].
  - apply (proj1 cap_segments_spec). right. simpl. lia.
  - apply (proj1 cap_segments_spec). left. lia.
  - apply (proj1 (proj2 cap_segments_spec)). simpl. lia.
Defined.

(** C4, as the code has it: with no [split_regex] in the configuration
    the pattern is the text of the raw string literal, whose class holds
    an escaped backslash and the letter n; the newline character is not a
    member.  So a newline does not end a segment (in either mode), while
    the letter n does; the pattern with a single backslash would split
    at the newline. *)
Theorem default_split_regex_has_no_newline :
  get (split_regex no_config) default_split_regex = py "[。？！?!\\n…]+"
  /\ Re.compile default_split_regex
     = Some {| Re.ast := Re.Cat (Re.Cls false default_class)
                           (Re.Star (Re.Cls false default_class));
               Re.ngroups := 0 |}
  /\ Re.in_ranges Re.newline default_class = false
  /\ Re.in_ranges 92%N default_class = true
  /\ Re.in_ranges 110%N default_class = true
  /\ (forall fuel, 3 <= fuel ->
        split_chain_smart fuel [Plain [97; 10; 98]%N] default_split_regex true
        = Done [[Plain [97; 10; 98]%N]])
  /\ (forall fuel,
        split_chain_smart fuel [Plain [97; 10; 98]%N] default_split_regex
          false
        = Done [[Plain [97; 10; 98]%N]])
  /\ (forall math_log random_uniform send_message asyncio_sleep
             fuel, 3 <= fuel ->
        on_decorating_result math_log random_uniform send_message asyncio_sleep
          fuel no_config
          {| is_llm_reply := true; splitter_processed := false;
             result_chain := Some [Plain [97; 10; 98]%N] |}
        = ({| is_llm_reply := true; splitter_processed := true;
              result_chain := Some [Plain [97; 10; 98]%N] |}, [], Returned))
  /\ (forall fuel, 3 <= fuel ->
        split_chain_smart fuel [Plain [97; 10; 98]%N] (py "[。？！?!\n…]+")
          true
        = Done [[Plain [97; 10]%N]; [Plain [98]%N]])
  /\ (forall fuel, 3 <= fuel ->
        split_chain_smart fuel [Plain (py "one")] default_split_regex true
        = Done [[Plain (py "on")]; [Plain (py "e")]]).
Proof.
  assert (E : forall fuel, 3 <= fuel ->
            split_chain_smart fuel [Plain [97; 10; 98]%N] default_split_regex
              true
            = Done [[Plain [97; 10; 98]%N]]).
  { intros fuel Hf. apply split_chain_smart_mono with (f := 3); [exact Hf|].
    vm_compute. reflexivity. }
  split; [reflexivity|]. split; [vm_compute; reflexivity|].
  split; [reflexivity|]. split; [reflexivity|]. split; [reflexivity|].
  split; [exact E|]. split; [intros fuel; vm_compute; reflexivity|].
  split; [|split].
  - intros ml ru sm sl fuel Hf.
    rewrite (handler_after_split ml ru sm sl fuel no_config _ _
               [[Plain [97; 10; 98]%N]]); [reflexivity|].
    apply E. exact Hf.
  - intros fuel Hf. apply split_chain_smart_mono with (f := 3); [exact Hf|].
    vm_compute. reflexivity.
  - intros fuel Hf. apply split_chain_smart_mono with (f := 3); [exact Hf|].
    vm_compute. reflexivity.
Qed.

(** C5, as the code has it: the empty pattern compiles to the pattern of
    the empty text, which matches (emptily) at every position.  Smart
    mode then never returns, whatever the fuel, as soon as the scanner
    meets a character outside the pair table with an empty stack.  Simple
    mode returns one segment with all the text, one component per
    character. *)
Theorem empty_pattern_smart_mode_diverges :
  Re.compile [] = Some {| Re.ast := Re.Eps; Re.ngroups := 0 |}
  /\ (forall t pos,
        Re.match_at {| Re.ast := Re.Eps; Re.ngroups := 0 |} t pos = Some [])
  /\ (forall fuel, split_chain_smart fuel [Plain (py "a")] [] true = Diverged)
  /\ (forall fuel c rest chain',
        dict_contains pair_map c = false -> is_quote c = false ->
        split_chain_smart fuel (Plain (c :: rest) :: chain') [] true
        = Diverged)
  /\ (forall math_log random_uniform send_message asyncio_sleep fuel,
        on_decorating_result math_log random_uniform send_message asyncio_sleep
          fuel empty_split_config
          {| is_llm_reply := true; splitter_processed := false;
             result_chain := Some [Plain (py "a")] |}
        = ({| is_llm_reply := true; splitter_processed := true;
              result_chain := Some [Plain (py "a")] |}, [], Diverges))
  /\ (forall fuel,
        split_chain_smart fuel [Plain (py "ab")] [] false
        = Done [[Plain (py "a"); Plain (py "b")]]).
Proof.
  assert (M : forall t pos,
             Re.match_at {| Re.ast := Re.Eps; Re.ngroups := 0 |} t pos
             = Some []).
  { intros t pos. unfold Re.match_at, Re.attempt. simpl.
    now rewrite Nat.sub_diag. }
  assert (G : forall fuel c rest chain',
        dict_contains pair_map c = false -> is_quote c = false ->
        split_chain_smart fuel (Plain (c :: rest) :: chain') [] true
        = Diverged).
  { intros fuel c rest chain' Ho Hq.
    unfold split_chain_smart. cbn [chain_loop]. unfold _process_text_smart.
    change (Re.compile [])
      with (Some {| Re.ast := Re.Eps; Re.ngroups := 0 |}).
    cbv beta iota.
    rewrite (empty_match_stuck _ (c :: rest) c); auto. }
  split; [reflexivity|]. split; [exact M|].
  split; [intros fuel; apply G; reflexivity|]. split; [exact G|].
  split.
  - intros ml ru sm sl fuel. apply handler_split_diverges.
    apply G; reflexivity.
  - intros fuel. vm_compute. reflexivity.
Qed.

(** C1, as the code has it: with a capturing group in the pattern,
    [re.split] returns the delimiter twice (as the wrapping group and as
    the group of the pattern) and simple mode emits it twice: the text of
    the output segments is not the text of the input.  Smart mode keeps
    the text on the same input. *)
Theorem capturing_group_duplicates_delimiter :
  re_split_wrapped (py "(。)") (py "你好。世界")
  = Done [Some (py "你好"); Some (py "。"); Some (py "。"); Some (py "世界")]
  /\ (forall fuel,
      split_chain_smart fuel [Plain (py "你好。世界")] (py "(。)") false
      = Done [[Plain (py "你好。")]; [Plain (py "。")]; [Plain (py "世界")]])
  /\ concat (map text_content
       [[Plain (py "你好。")]; [Plain (py "。")]; [Plain (py "世界")]])
     = py "你好。。世界"
  /\ text_content [Plain (py "你好。世界")] <> py "你好。。世界"
  /\ (forall fuel, 5 <= fuel ->
      split_chain_smart fuel [Plain (py "你好。世界")] (py "(。)") true
      = Done [[Plain (py "你好。")]; [Plain (py "世界")]]).
Proof.
  split; [vm_compute; reflexivity|].
  split; [intros fuel; vm_compute; reflexivity|].
  split; [vm_compute; reflexivity|].
  split; [vm_compute; discriminate|].
  intros fuel Hf.
  apply split_chain_smart_mono with (f := 5); [exact Hf|].
  vm_compute; reflexivity.
Qed.

#[local] Set Warnings "-inexact-float".

(** ** The delay *)

(** The conversion of a length: the binary64 value nearest to the
    integer, as Python converts an [int] to a [float]. *)
Lemma float_of_nat_spec (n : nat) :
  (Z.of_nat n < 2 ^ 63)%Z ->
  float_of_nat n
  = SF2Prim (SpecFloat.binary_normalize prec emax (Z.of_nat n) 0 false).
Proof.
  intros H. unfold float_of_nat.
  rewrite <- (SF2Prim_Prim2SF (of_uint63 _)), of_uint63_spec.
  rewrite Uint63.of_Z_spec, Z.mod_small; [reflexivity|].
  change Uint63.wB with (2 ^ 63)%Z. lia.
Qed.

(** C8: the log strategy.  With the strategy [log] (set, or absent from
    the configuration), [base] the value of [log_base] (0.5 when the key
    is absent) and [factor] the value of [log_factor] (0.8 when absent),
    the delay is [base + factor * log (length + 1)], computed in binary64
    on the binary64 value nearest to the integer [length + 1], and cut at
    the ceiling 5.0: it is 5.0 when the sum is above 5.0 and the sum
    itself otherwise, so the result is never above 5.0.  With
    [base = 0.5], [factor = 0.8] and the empty text the delay is exactly
    0.5, the logarithm of 1 being 0. *)
Theorem log_delay_formula_and_ceiling :
  forall (math_log : float -> float)
         (random_uniform : nat -> float -> float -> float)
         (config : Config) (i : nat) (t : text) (base factor : float),
    match delay_strategy config with
    | Some strategy => strategy = py "log"
    | None => True
    end ->
    match log_base config with
    | Some b => base = b
    | None => base = 0.5%float
    end ->
    match log_factor config with
    | Some f => factor = f
    | None => factor = 0.8%float
    end ->
    (Z.of_nat (length t) + 1 < 2 ^ 63)%Z ->
    let arg :=
      SF2Prim (SpecFloat.binary_normalize prec emax
                 (Z.of_nat (length t) + 1) 0 false) in
    let delay := (base + factor * math_log arg)%float in
    let result := calculate_delay math_log random_uniform config i t in
    ((5 <? delay)%float = true -> result = 5%float) /\
    ((5 <? delay)%float = false -> result = delay) /\
    (5 <? result)%float = false /\
    (math_log 1%float = 0%float -> base = 0.5%float -> factor = 0.8%float ->
     t = [] -> result = 0.5%float).
Proof.
  intros math_log random_uniform config i t base factor Hs Hb Hf Hlen
         arg delay result.
  assert (Es : get (delay_strategy config) (py "log") = py "log")
    by (destruct (delay_strategy config); [exact Hs | reflexivity]).
  assert (Eb : get (log_base config) 0.5%float = base)
    by (destruct (log_base config); now subst).
  assert (Ef : get (log_factor config) 0.8%float = factor)
    by (destruct (log_factor config); now subst).
  assert (Ea : float_of_nat (length t + 1) = arg).
  { rewrite float_of_nat_spec; [|lia]. unfold arg. repeat f_equal. lia. }
  assert (E : result = py_min delay 5%float).
  { unfold result, calculate_delay. rewrite Es. cbv zeta.
    change (text_eqb (py "log") (py "random")) with false.
    change (text_eqb (py "log") (py "log")) with true.
    cbv iota. now rewrite Eb, Ef, Ea. }
  rewrite E. unfold py_min.
  repeat split.
  - intros H. now rewrite H.
  - intros H. now rewrite H.
  - destruct (5 <? delay)%float eqn:H; [reflexivity | exact H].
  - intros Hl Hb' Hf' Ht. unfold delay, arg. rewrite Hb', Hf', Ht.
    change (SF2Prim (SpecFloat.binary_normalize prec emax
                       (Z.of_nat (length (@nil char)) + 1) 0 false))
      with 1%float.
    rewrite Hl. reflexivity.
Qed.

(** A text of three characters under [log_base = 1.0] and
    [log_factor = 2.0]: with a logarithm whose value at 4.0 is 4.0 the
    sum 9.0 is cut at the ceiling, and with one whose value at 4.0 is 0.5
    the delay is the sum 2.0. *)
Lemma log_delay_formula_and_ceiling_witness :
  calculate_delay (fun x => x) (fun _ a _ => a)
    {| split_regex := None; clean_regex := None;
       enable_smart_split := None; max_segments := None;
       delay_strategy := Some (py "log"); random_min := None;
       random_max := None; log_base := Some 1%float;
       log_factor := Some 2%float; fixed_delay := None |} 0 (py "你好。")
  = 5%float
  /\ calculate_delay (fun x => (x / 8)%float) (fun _ a _ => a)
       {| split_regex := None; clean_regex := None;
          enable_smart_split := None; max_segments := None;
          delay_strategy := None; random_min := None;
          random_max := None; log_base := Some 1%float;
          log_factor := Some 2%float; fixed_delay := None |} 0 (py "你好。")
     = (1 + 2 * (4 / 8))%float.
Proof.
  split.
  - refine (proj1 (log_delay_formula_and_ceiling (fun x => x)
                     (fun _ a _ => a)
                     {| split_regex := None; clean_regex := None;
                        enable_smart_split := None; max_segments := None;
                        delay_strategy := Some (py "log");
                        random_min := None; random_max := None;
                        log_base := Some 1%float;
                        log_factor := Some 2%float; fixed_delay := None |}
                     0 (py "你好。") 1%float 2%float
                     eq_refl eq_refl eq_refl _) _).
    + vm_compute. reflexivity.
    + vm_compute. reflexivity.
  - refine (proj1 (proj2 (log_delay_formula_and_ceiling
                     (fun x => (x / 8)%float) (fun _ a _ => a)
                     {| split_regex := None; clean_regex := None;
                        enable_smart_split := None; max_segments := None;
                        delay_strategy := None;
                        random_min := None; random_max := None;
                        log_base := Some 1%float;
                        log_factor := Some 2%float; fixed_delay := None |}
                     0 (py "你好。") 1%float 2%float
                     I eq_refl eq_refl _)) _).
    + vm_compute. reflexivity.
    + vm_compute. reflexivity.
Defined.

(** ** The guards of the handler *)

Section Handler.
Variable math_log : float -> float.
Variable random_uniform : nat -> float -> float -> float.
Variable send_message : nat -> chain -> send_result.
Variable asyncio_sleep : nat -> float -> bool.

Abbreviation handler :=
  (on_decorating_result math_log random_uniform send_message asyncio_sleep).

Lemma handler_guarded fuel config event :
  is_llm_reply event = false \/ splitter_processed event = true ->
  handler fuel config event = (event, [], Returned).
Proof.
  unfold on_decorating_result. intros [H|H].
  - now rewrite H.
  - rewrite H. now destruct (is_llm_reply event).
Qed.

Lemma handler_leaves_guarded fuel config event event1 tr1 e1 :
  handler fuel config event = (event1, tr1, e1) ->
  is_llm_reply event1 = false \/ splitter_processed event1 = true.
Proof.
  unfold on_decorating_result.
  destruct (is_llm_reply event) eqn:L; cbn [negb].
  2:{ intros [= <- _ _]. now left. }
  destruct (splitter_processed event) eqn:P.
  { intros [= <- _ _]. now right. }
  cbn [result_chain mark_processed].
  destruct (result_chain event) as [[|c ch]|].
  1,3: intros [= <- _ _]; now right.
  destruct (split_chain_smart _ _ _ _) as [segs| |].
  2,3: intros [= <- _ _]; now right.
  destruct (_ && _).
  { intros [= <- _ _]; now right. }
  destruct (dispatch _ _ _ _ _ _ _ _) as [tr []]; intros [= <- _ _]; now right.
Qed.

End Handler.

(** C9: the guards.  An event that is not flagged as a reply of the
    provider, or is already marked as processed, or has no result or an
    empty chain, goes through the handler with nothing sent or awaited and
    its chain as it was.  And whatever a first call did, a second call on
    the event it left sends nothing and changes nothing. *)
Theorem guarded_event_is_left_alone :
  (forall math_log random_uniform send_message asyncio_sleep fuel config event,
      is_llm_reply event = false \/ splitter_processed event = true \/
      result_chain event = None \/ result_chain event = Some [] ->
      exists event',
        on_decorating_result math_log random_uniform send_message asyncio_sleep
          fuel config event = (event', [], Returned)
        /\ result_chain event' = result_chain event)
  /\
  (forall math_log random_uniform send_message asyncio_sleep fuel config event
          math_log' random_uniform' send_message' asyncio_sleep' fuel' config'
          event1 tr1 e1,
      on_decorating_result math_log random_uniform send_message asyncio_sleep
        fuel config event = (event1, tr1, e1) ->
      on_decorating_result math_log' random_uniform' send_message'
        asyncio_sleep' fuel' config' event1 = (event1, [], Returned)).
Proof.
  split.
  - intros ml ru sm sl fuel config event [H|[H|H]].
    + exists event. split; [|reflexivity]. apply handler_guarded. now left.
    + exists event. split; [|reflexivity]. apply handler_guarded. now right.
    + unfold on_decorating_result.
      destruct (is_llm_reply event); cbn [negb]; [|eauto].
      destruct (splitter_processed event); [eauto|].
      cbn [result_chain mark_processed].
      destruct H as [H|H]; rewrite H; eauto.
  - intros ml ru sm sl fuel config event ml' ru' sm' sl' fuel' config'
           event1 tr1 e1 H.
    apply handler_guarded. eapply handler_leaves_guarded. exact H.
Qed.

Lemma guarded_event_is_left_alone_witness :
  exists event',
    on_decorating_result (fun x => x) (fun _ a _ => a) (fun _ _ => Delivered)
            (fun _ _ => true) 0
      no_config
      {| is_llm_reply := false; splitter_processed := false;
         result_chain := Some [Plain (py "你好。世界！")] |}
    = (event', [], Returned)
    /\ result_chain event' = Some [Plain (py "你好。世界！")].
Proof.
  apply (proj1 guarded_event_is_left_alone). left. reflexivity.
Defined.


(** ** The dispatch loop *)

Section Dispatch.
Variable math_log : float -> float.
Variable random_uniform : nat -> float -> float -> float.
Variable send_message : nat -> chain -> send_result.
Variable asyncio_sleep : nat -> float -> bool.
Variables (config : Config) (clean_pattern : text).

Abbreviation one :=
  (dispatch_one math_log random_uniform send_message asyncio_sleep config
     clean_pattern).
Abbreviation loop :=
  (dispatch math_log random_uniform send_message asyncio_sleep config
     clean_pattern).

(** What one iteration of the loop can do. *)
Lemma dispatch_one_cases n i seg evs e :
  one n i seg = (evs, e) ->
  (evs = [] /\ e <> Cancelled) \/
  exists mc,
    cleanup clean_pattern seg = Done mc /\ seg <> [] /\
    skipped mc = false /\
    let w := calculate_delay math_log random_uniform config i
               (text_content mc) in
    (send_message i mc = Refused /\ evs = [SendFailed mc] /\ e = Returned
     \/ send_message i mc = Interrupted /\ evs = [SendCancelled mc]
        /\ e = Cancelled
     \/ send_message i mc = Delivered /\
        (~ i < n - 1 /\ evs = [Sent mc] /\ e = Returned
         \/ i < n - 1 /\
            (asyncio_sleep i w = true /\ evs = [Sent mc; Slept w]
             /\ e = Returned
             \/ asyncio_sleep i w = false
                /\ evs = [Sent mc; SleepCancelled w] /\ e = Cancelled))).
Proof.
  unfold dispatch_one.
  destruct seg as [|c seg]; cbn [nonempty negb];
    [intros [= <- <-]; left; split; [reflexivity | discriminate]|].
  destruct (cleanup clean_pattern (c :: seg)) as [mc| |];
    try (intros [= <- <-]; left; split; [reflexivity | discriminate]).
  destruct (skipped mc) eqn:E;
    [intros [= <- <-]; left; split; [reflexivity | discriminate]|].
  intros H. right. exists mc. split; [reflexivity|]. split; [discriminate|].
  split; [exact E|]. cbv zeta.
  destruct (send_message i mc).
  - right. right. split; [reflexivity|].
    destruct (Nat.ltb_spec i (n - 1)).
    + right. split; [assumption|].
      destruct (asyncio_sleep i _); injection H as <- <-; auto.
    + left. injection H as <- <-. repeat split; auto. lia.
  - left. injection H as <- <-. auto.
  - right. left. injection H as <- <-. auto.
Qed.

Lemma dispatch_skipped n : forall rest i,
  Forall (fun seg => forall j, one n j seg = ([], Returned)) rest ->
  loop n i rest = ([], Returned).
Proof.
  induction rest as [|seg rest IH]; intros i H; [reflexivity|].
  inversion H as [|? ? H1 H2]; subst. cbn [dispatch]. rewrite H1.
  now rewrite (IH (S i) H2).
Qed.

(** The trace of the loop, iteration by iteration: one block for every
    segment that the loop came to, all of them when the loop returns. *)
Lemma dispatch_blocks n : forall segs i tr e,
  loop n i segs = (tr, e) ->
  exists per,
    tr = concat per /\ length per <= length segs /\
    (e = Returned -> length per = length segs) /\
    forall j seg evs,
      nth_error segs j = Some seg -> nth_error per j = Some evs ->
      exists e1, one n (i + j) seg = (evs, e1).
Proof.
  induction segs as [|seg segs IH]; intros i tr e H.
  - injection H as <- <-. exists []. repeat split; auto.
    intros [|j] seg evs; discriminate.
  - cbn [dispatch] in H.
    destruct (dispatch_one _ _ _ _ _ _ n i seg) as [evs e0] eqn:E.
    assert (Hstop : e0 <> Returned -> (evs, e0) = (tr, e) ->
              exists per,
                tr = concat per /\ length per <= length (seg :: segs) /\
                (e = Returned -> length per = length (seg :: segs)) /\
                forall j s evs',
                  nth_error (seg :: segs) j = Some s ->
                  nth_error per j = Some evs' ->
                  exists e1, one n (i + j) s = (evs', e1)).
    { intros Hne [= <- <-]. exists [evs]. simpl. rewrite app_nil_r.
      repeat split; auto; try lia; try congruence.
      intros [|[|j]] s evs'; simpl; try discriminate.
      intros [= <-] [= <-]. rewrite Nat.add_0_r. eauto. }
    destruct e0; try (apply Hstop; [discriminate | exact H]).
    clear Hstop.
    destruct (dispatch _ _ _ _ _ _ n (S i) segs) as [tr' e'] eqn:E'.
    injection H as <- <-.
    destruct (IH _ _ _ E') as (per & -> & Hl & Hr & Hb).
    exists (evs :: per). simpl.
    split; [reflexivity|]. split; [lia|]. split; [intros He; now rewrite Hr|].
    intros [|j] s evs'; simpl.
    + intros [= <-] [= <-]. rewrite Nat.add_0_r. eauto.
    + intros H1 H2. replace (i + S j) with (S i + j) by lia. eauto.
Qed.

(** The iteration on a segment that is delivered, and on one that is
    skipped. *)
Lemma dispatch_one_delivered n i seg mc :
  cleanup clean_pattern seg = Done mc -> skipped mc = false ->
  send_message i mc = Delivered ->
  one n i seg =
  let w := calculate_delay math_log random_uniform config i
             (text_content mc) in
  if i <? n - 1 then
    if asyncio_sleep i w then ([Sent mc; Slept w], Returned)
    else ([Sent mc; SleepCancelled w], Cancelled)
  else ([Sent mc], Returned).
Proof.
  intros Hc Hs Hd. unfold dispatch_one.
  destruct seg as [|c seg].
  { unfold cleanup in Hc. cbn [clean_chain] in Hc.
    destruct (truthy clean_pattern); injection Hc as <-; discriminate. }
  cbn [nonempty negb]. rewrite Hc, Hs, Hd. reflexivity.
Qed.

Lemma dispatch_one_skips n i seg mc :
  cleanup clean_pattern seg = Done mc -> skipped mc = true ->
  one n i seg = ([], Returned).
Proof.
  intros Hc Hs. unfold dispatch_one.
  destruct (negb (nonempty seg)); [reflexivity|]. now rewrite Hc, Hs.
Qed.

(** A loop that returns has run through every part of its list. *)
Lemma dispatch_app n : forall pre i post tr,
  loop n i (pre ++ post) = (tr, Returned) ->
  exists t1 t2,
    tr = t1 ++ t2 /\ loop n i pre = (t1, Returned) /\
    loop n (i + length pre) post = (t2, Returned).
Proof.
  induction pre as [|seg pre IH]; intros i post tr H.
  - exists [], tr. rewrite Nat.add_0_r. auto.
  - cbn [app dispatch] in *.
    destruct (dispatch_one _ _ _ _ _ _ n i seg) as [evs e0].
    destruct e0; try discriminate.
    destruct (dispatch _ _ _ _ _ _ n (S i) (pre ++ post)) as [tr' e'] eqn:E.
    injection H as <- ->.
    destruct (IH _ _ _ E) as (t1 & t2 & -> & -> & H2).
    exists (evs ++ t1), t2. rewrite app_assoc.
    replace (i + length (seg :: pre)) with (S i + length pre)
      by (simpl; lia).
    auto.
Qed.

End Dispatch.

Lemma concat_repeat_nil {A} n : concat (repeat (@nil A) n) = [].
Proof. induction n; simpl; auto. Qed.

(** C10: the delay of the dispatch loop, on a reply that the segmenter
    has split.  (1) The trace of the call is made of one block for each
    segment of the capped list that the loop came to, in order, all of
    them when the call returns.  The block of the segment at position [j]
    is empty (the segment is skipped), or it hands the cleaned segment to
    the sender; a delivered segment is followed by the wait for it
    exactly when [j] is below the last position of the capped list, and a
    segment that is refused or interrupted is followed by nothing.  (2) A
    segment delivered at the last position of the capped list ends the
    trace: no delay comes after it.  (3) When every later segment is
    skipped because its cleaned text is empty, the last message sent is
    still followed by its delay. *)
Theorem delay_follows_send_unless_last_position :
  forall math_log random_uniform send_message asyncio_sleep fuel config c ch
         segs event' tr e,
    split_chain_smart fuel (c :: ch)
      (get (split_regex config) default_split_regex)
      (get (enable_smart_split config) true) = Done segs ->
    on_decorating_result math_log random_uniform send_message asyncio_sleep
      fuel config
      {| is_llm_reply := true; splitter_processed := false;
         result_chain := Some (c :: ch) |} = (event', tr, e) ->
    let clean_pattern := get (clean_regex config) [] in
    let capped := cap_segments segs (get (max_segments config) 7%Z) in
    let n := length capped in
    let delay i mc :=
      calculate_delay math_log random_uniform config i (text_content mc) in
    (exists per,
        tr = concat per /\ length per <= n /\
        (e = Returned -> length per = n) /\
        forall j seg evs,
          nth_error capped j = Some seg -> nth_error per j = Some evs ->
          evs = [] \/
          exists mc,
            cleanup clean_pattern seg = Done mc /\
            (evs = [SendFailed mc] \/ evs = [SendCancelled mc]
             \/ j = n - 1 /\ evs = [Sent mc]
             \/ j < n - 1 /\
                (evs = [Sent mc; Slept (delay j mc)]
                 \/ evs = [Sent mc; SleepCancelled (delay j mc)])))
    /\
    (forall init last mc,
        e = Returned -> 1 < n \/ clean_pattern <> [] ->
        capped = init ++ [last] ->
        cleanup clean_pattern last = Done mc -> skipped mc = false ->
        send_message (n - 1) mc = Delivered ->
        exists tr0, tr = tr0 ++ [Sent mc])
    /\
    (forall pre seg post mc,
        e = Returned -> capped = pre ++ seg :: post -> post <> [] ->
        cleanup clean_pattern seg = Done mc -> skipped mc = false ->
        send_message (length pre) mc = Delivered ->
        Forall (fun s => exists mc',
                    cleanup clean_pattern s = Done mc'
                    /\ skipped mc' = true) post ->
        exists tr0, tr = tr0 ++ [Sent mc; Slept (delay (length pre) mc)]).
Proof.
  intros ml ru sm sl fuel config c ch segs event' tr e Hs H.
  intros clean_pattern capped n delay.
  rewrite (handler_after_split ml ru sm sl _ _ _ _ _ Hs) in H.
  cbv zeta in H. fold clean_pattern capped n in H.
  destruct ((n <=? 1) && negb (truthy clean_pattern)) eqn:Hcond.
  - injection H as _ <- <-.
    apply andb_true_iff in Hcond as [Hn Hc].
    apply Nat.leb_le in Hn.
    assert (Hclean : clean_pattern = [])
      by (destruct clean_pattern; [reflexivity | discriminate]).
    split; [|split].
    + exists (repeat [] n). rewrite concat_repeat_nil, repeat_length.
      repeat split; auto.
      intros j seg evs _ Hj. left. apply nth_error_In in Hj.
      now apply repeat_spec in Hj.
    + intros init last mc _ [Hlt|Hne]; [lia | congruence].
    + intros pre seg post mc _ Hcap Hpost. exfalso.
      assert (n = length pre + S (length post))
        by (unfold n; rewrite Hcap, length_app; reflexivity).
      destruct post; [congruence | simpl in *; lia].
  - destruct (dispatch ml ru sm sl config clean_pattern n 0 capped)
      as [tr' e'] eqn:Hd.
    assert (tr' = tr /\ e' = e) as [-> ->]
      by (destruct e'; injection H as _ <- <-; auto).
    clear H. split; [|split].
    + destruct (dispatch_blocks _ _ _ _ _ _ _ _ _ _ _ Hd)
        as (per & -> & Hl & Hr & Hb).
      exists per. repeat split; auto.
      intros j seg evs Hseg Hevs.
      destruct (Hb j seg evs Hseg Hevs) as [e1 H1]. simpl in H1.
      destruct (dispatch_one_cases _ _ _ _ _ _ _ _ _ _ _ H1)
        as [[-> _]|(mc & Hc & _ & _ & Hcase)]; [now left|].
      right. exists mc. split; [exact Hc|]. cbv zeta in Hcase.
      assert (Hj : j < n) by (apply nth_error_Some; congruence).
      destruct Hcase
        as [(_ & -> & _)|[(_ & -> & _)|(_ & [(Hlast & -> & _)|(Hlt & Hw)])]];
        auto.
      * right. right. left. split; [lia | reflexivity].
      * right. right. right. split; [exact Hlt|].
        destruct Hw as [(_ & -> & _)|(_ & -> & _)]; auto.
    + intros init last mc -> _ Hcap Hc Hsk Hsend.
      rewrite Hcap in Hd.
      destruct (dispatch_app _ _ _ _ _ _ _ _ _ _ _ Hd)
        as (t1 & t2 & -> & _ & H2).
      assert (Hn : n = length init + 1)
        by (unfold n; rewrite Hcap, length_app; reflexivity).
      cbn [dispatch Nat.add] in H2.
      replace (n - 1) with (length init) in Hsend by lia.
      rewrite (dispatch_one_delivered _ _ _ _ _ _ n _ _ _ Hc Hsk Hsend) in H2.
      cbv zeta in H2.
      destruct (Nat.ltb_spec (length init) (n - 1)); [lia|].
      injection H2 as <-. now exists t1.
    + intros pre seg post mc -> Hcap Hpost Hc Hsk Hsend Hall.
      rewrite Hcap in Hd.
      destruct (dispatch_app _ _ _ _ _ _ _ _ _ _ _ Hd)
        as (t1 & t2 & -> & _ & H2).
      assert (Hn : n = length pre + S (length post))
        by (unfold n; rewrite Hcap, length_app; reflexivity).
      cbn [dispatch Nat.add] in H2.
      rewrite (dispatch_one_delivered _ _ _ _ _ _ n _ _ _ Hc Hsk Hsend) in H2.
      cbv zeta in H2.
      destruct (Nat.ltb_spec (length pre) (n - 1));
        [|destruct post; [congruence | simpl in *; lia]].
      fold (delay (length pre) mc) in H2.
      destruct (sl (length pre) (delay (length pre) mc)); [|discriminate].
      rewrite (dispatch_skipped ml ru sm sl config clean_pattern n post) in H2.
      * injection H2 as <-. now exists t1.
      * eapply Forall_impl; [|exact Hall].
        intros s (mc' & Hc' & Hs') j.
        eapply dispatch_one_skips; eauto.
Qed.

(** The reply a。b。c。 under a cap of two segments: the merged segment
    at the last position of the capped list ends the trace.  The reply
    a。b cleaned with the pattern b: the second segment is skipped, and
    the first is still followed by its delay. *)
Lemma delay_follows_send_unless_last_position_witness :
  (exists tr0,
      [Sent [Plain (py "a。")]; Slept 1.5%float;
       Sent [Plain (py "b。"); Plain (py "c。")]]
      = tr0 ++ [Sent [Plain (py "b。"); Plain (py "c。")]])
  /\
  (exists tr0,
      [Sent [Plain (py "a。")]; Slept 1.5%float]
      = tr0 ++ [Sent [Plain (py "a。")]; Slept 1.5%float]).
Proof.
  split.
  - refine (proj1 (proj2 (delay_follows_send_unless_last_position
              (fun x => x) (fun _ a _ => a) (fun _ _ => Delivered)
              (fun _ _ => true) 6
              {| split_regex := None; clean_regex := None;
                 enable_smart_split := None; max_segments := Some 2%Z;
                 delay_strategy := Some (py "fixed"); random_min := None;
                 random_max := None; log_base := None; log_factor := None;
                 fixed_delay := None |}
              (Plain (py "a。b。c。")) []
              [[Plain (py "a。")]; [Plain (py "b。")]; [Plain (py "c。")]]
              {| is_llm_reply := true; splitter_processed := true;
                 result_chain := Some [] |}
              _ Returned _ _))
            [[Plain (py "a。")]] [Plain (py "b。"); Plain (py "c。")] _
            eq_refl _ _ _ _ _).
    + vm_compute. reflexivity.
    + vm_compute. reflexivity.
    + left. vm_compute. lia.
    + reflexivity.
    + reflexivity.
    + reflexivity.
    + reflexivity.
  - refine (proj2 (proj2 (delay_follows_send_unless_last_position
              (fun x => x) (fun _ a _ => a) (fun _ _ => Delivered)
              (fun _ _ => true) 3
              {| split_regex := None; clean_regex := Some (py "b");
                 enable_smart_split := None; max_segments := None;
                 delay_strategy := Some (py "fixed"); random_min := None;
                 random_max := None; log_base := None; log_factor := None;
                 fixed_delay := None |}
              (Plain (py "a。b")) []
              [[Plain (py "a。")]; [Plain (py "b")]]
              {| is_llm_reply := true; splitter_processed := true;
                 result_chain := Some [] |}
              _ Returned _ _))
            [] [Plain (py "a。")] [[Plain (py "b")]] [Plain (py "a。")]
            eq_refl _ _ _ _ _ _).
    + vm_compute. reflexivity.
    + vm_compute. reflexivity.
    + reflexivity.
    + discriminate.
    + reflexivity.
    + reflexivity.
    + reflexivity.
    + constructor; [|constructor]. exists [Plain []].
      split; vm_compute; reflexivity.
Defined.

(** ** What is handed to the sender *)

Lemma no_empty_Plain_nil : no_empty_Plain [].
Proof. intros t []. Qed.

Lemma no_empty_Plain_app a b :
  no_empty_Plain a -> no_empty_Plain b -> no_empty_Plain (a ++ b).
Proof. intros Ha Hb t H. apply in_app_or in H as [H|H]; auto. Qed.

Lemma no_empty_Plain_one t : t <> [] -> no_empty_Plain [Plain t].
Proof. intros H u [[= <-]|[]]. exact H. Qed.

Lemma no_empty_Plain_other n : no_empty_Plain [Other n].
Proof. intros u [[=]|[]]. Qed.

Lemma truthy_nonempty t : truthy t = true -> t <> [].
Proof. destruct t; simpl; congruence. Qed.

Lemma flush_no_empty buf t :
  no_empty_Plain buf ->
  no_empty_Plain (if truthy t then buf ++ [Plain t] else buf).
Proof.
  intros H. destruct (truthy t) eqn:E; [|exact H].
  apply no_empty_Plain_app; [exact H|]. apply no_empty_Plain_one.
  now apply truthy_nonempty.
Qed.

Create HintDb plain.
#[local] Hint Resolve no_empty_Plain_nil no_empty_Plain_app no_empty_Plain_one
  no_empty_Plain_other flush_no_empty : plain.

Lemma Forall_snoc {A} (P : A -> Prop) l x :
  Forall P l -> P x -> Forall P (l ++ [x]).
Proof. intros Hl Hx. apply Forall_app. split; [exact Hl | now constructor]. Qed.

Lemma simple_walk_no_empty pattern :
  forall parts temp segs buf temp' segs' buf',
  simple_walk pattern parts temp segs buf = Done (temp', segs', buf') ->
  Forall no_empty_Plain segs -> no_empty_Plain buf ->
  Forall no_empty_Plain segs' /\ no_empty_Plain buf'.
Proof.
  induction parts as [|part parts IH];
    intros temp segs buf temp' segs' buf' H Hs Hb.
  - injection H as <- <- <-. auto.
  - destruct part as [[|x part]|]; cbn [simple_walk] in H; eauto.
    destruct (re_fullmatch pattern (x :: part)) as [[]| |]; cbn [bind] in H;
      try discriminate.
    + eapply IH; [exact H | | auto with plain].
      apply Forall_snoc; [exact Hs|].
      apply no_empty_Plain_app; [exact Hb|]. apply no_empty_Plain_one.
      destruct temp; discriminate.
    + eapply IH; [exact H | exact Hs | auto with plain].
Qed.

Lemma process_text_simple_no_empty t pattern segs buf segs' buf' :
  _process_text_simple t pattern segs buf = Done (segs', buf') ->
  Forall no_empty_Plain segs -> no_empty_Plain buf ->
  Forall no_empty_Plain segs' /\ no_empty_Plain buf'.
Proof.
  unfold _process_text_simple. intros H Hs Hb.
  destruct (re_split_wrapped pattern t) as [parts| |]; cbn [bind] in H;
    try discriminate.
  destruct (simple_walk pattern parts [] segs buf) as [[[temp s1] b1]| |] eqn:E;
    cbn [bind] in H; try discriminate.
  injection H as <- <-.
  destruct (simple_walk_no_empty _ _ _ _ _ _ _ _ E Hs Hb) as [H1 H2].
  auto with plain.
Qed.

Lemma smart_loop_no_empty p t fuel : forall st r,
  smart_loop fuel p t st = Some r ->
  Forall no_empty_Plain (segments st) -> no_empty_Plain (buffer st) ->
  Forall no_empty_Plain (segments r) /\ no_empty_Plain (buffer r).
Proof.
  induction fuel as [|fuel IH]; intros st r H Hs Hb; pose proof H as H0;
    simpl in H;
    destruct (Nat.ltb_spec (i st) (length t)); try discriminate;
    try (injection H as <-; now auto).
  assert (Hn : exists c, nth_error t (i st) = Some c).
  { destruct (nth_error t (i st)) eqn:E; [eauto|].
    apply nth_error_None in E. lia. }
  destruct Hn as [c Hc].
  destruct (stack st) as [|top below] eqn:Est.
  - destruct (is_quote c) eqn:Hq.
    { apply IH in H; [exact H| |];
        unfold smart_step; rewrite Hc, Hq, Est; exact Hs || exact Hb. }
    destruct (dict_contains pair_map c) eqn:Ho.
    { apply IH in H; [exact H| |];
        unfold smart_step; rewrite Hc, Hq, Est, Ho; exact Hs || exact Hb. }
    destruct (Re.match_at p t (i st)) as [[|d ds]|] eqn:Hm.
    + rewrite (empty_match_stuck p t c (S fuel) st Hc Est Ho Hq Hm) in H0.
      discriminate.
    + apply IH in H; [exact H| |];
        unfold smart_step; rewrite Hc, Hq, Est, Ho, Hm; cbn [segments buffer];
        auto with plain.
      apply Forall_snoc; [exact Hs|].
      apply no_empty_Plain_app; [exact Hb|]. apply no_empty_Plain_one.
      destruct (current_chunk st); discriminate.
    + apply IH in H; [exact H| |];
        unfold smart_step; rewrite Hc, Hq, Est, Ho, Hm; exact Hs || exact Hb.
  - destruct (step_nonempty_stack p t st c) as [stk E];
      [rewrite Est; discriminate | exact Hc |].
    rewrite E in H. apply IH in H; [exact H | exact Hs | exact Hb].
Qed.

Lemma process_text_smart_no_empty fuel t pattern segs buf segs' buf' :
  _process_text_smart fuel t pattern segs buf = Done (segs', buf') ->
  Forall no_empty_Plain segs -> no_empty_Plain buf ->
  Forall no_empty_Plain segs' /\ no_empty_Plain buf'.
Proof.
  unfold _process_text_smart. intros H Hs Hb.
  destruct (Re.compile pattern) as [cp|]; [|discriminate].
  destruct (smart_loop fuel cp t _) as [st|] eqn:E; [|discriminate].
  injection H as <- <-.
  destruct (smart_loop_no_empty _ _ _ _ _ E Hs Hb) as [H1 H2].
  auto with plain.
Qed.

Lemma chain_loop_no_empty fuel pattern smart_mode :
  forall ch segs buf segs' buf',
  chain_loop fuel ch pattern smart_mode segs buf = Done (segs', buf') ->
  Forall no_empty_Plain segs -> no_empty_Plain buf ->
  Forall no_empty_Plain segs' /\ no_empty_Plain buf'.
Proof.
  induction ch as [|c ch IH]; intros segs buf segs' buf' H Hs Hb.
  - injection H as <- <-. auto.
  - destruct c as [[|x t]|n]; cbn [chain_loop] in H.
    + eauto.
    + destruct smart_mode.
      * destruct (_process_text_smart fuel (x :: t) pattern segs buf)
          as [[s1 b1]| |] eqn:E; cbn [bind] in H; try discriminate.
        destruct (process_text_smart_no_empty _ _ _ _ _ _ _ E Hs Hb). eauto.
      * destruct (_process_text_simple (x :: t) pattern segs buf)
          as [[s1 b1]| |] eqn:E; cbn [bind] in H; try discriminate.
        destruct (process_text_simple_no_empty _ _ _ _ _ _ E Hs Hb). eauto.
    + eapply IH; [exact H | exact Hs | auto with plain].
Qed.

(** The segmenter returns non-empty segments, none with an empty [Plain]. *)
Lemma split_chain_smart_no_empty fuel ch pattern smart_mode segs :
  split_chain_smart fuel ch pattern smart_mode = Done segs ->
  Forall (fun seg => seg <> [] /\ no_empty_Plain seg) segs.
Proof.
  unfold split_chain_smart. intros H.
  destruct (chain_loop fuel ch pattern smart_mode [] []) as [[s b]| |] eqn:E;
    cbn [bind] in H; try discriminate.
  injection H as <-.
  destruct (chain_loop_no_empty _ _ _ _ _ _ _ _ E (Forall_nil _)
              no_empty_Plain_nil) as [Hs Hb].
  apply Forall_forall. intros seg Hin. apply filter_In in Hin as [Hin Hne].
  split; [destruct seg; [discriminate | congruence]|].
  destruct (nonempty b).
  - apply in_app_or in Hin as [Hin|[<-|[]]]; [|exact Hb].
    eapply Forall_forall in Hs; eauto.
  - eapply Forall_forall in Hs; eauto.
Qed.

Lemma no_empty_Plain_concat segs :
  Forall no_empty_Plain segs -> no_empty_Plain (concat segs).
Proof.
  induction 1; simpl; auto with plain.
Qed.

Lemma In_firstn {A} k (l : list A) x : In x (firstn k l) -> In x l.
Proof.
  intros H. rewrite <- (firstn_skipn k l). apply in_or_app. now left.
Qed.

Lemma In_skipn {A} k (l : list A) x : In x (skipn k l) -> In x l.
Proof.
  intros H. rewrite <- (firstn_skipn k l). apply in_or_app. now right.
Qed.

Lemma cap_segments_no_empty segs M :
  Forall no_empty_Plain segs -> Forall no_empty_Plain (cap_segments segs M).
Proof.
  intros H. unfold cap_segments. destruct (_ && _); [|exact H].
  apply Forall_snoc.
  - apply Forall_forall. intros x Hx. apply In_firstn in Hx.
    eapply Forall_forall in H; eauto.
  - apply no_empty_Plain_concat. apply Forall_forall. intros x Hx.
    apply In_skipn in Hx. eapply Forall_forall in H; eauto.
Qed.

Section Sends.
Variable math_log : float -> float.
Variable random_uniform : nat -> float -> float -> float.
Variable send_message : nat -> chain -> send_result.
Variable asyncio_sleep : nat -> float -> bool.
Variables (config : Config) (clean_pattern : text).

Lemma dispatch_one_sends n i seg evs e mc :
  dispatch_one math_log random_uniform send_message asyncio_sleep config
    clean_pattern n i seg = (evs, e) ->
  handed_to_sender mc evs ->
  cleanup clean_pattern seg = Done mc /\ seg <> [] /\ skipped mc = false.
Proof.
  intros H Hin.
  destruct (dispatch_one_cases _ _ _ _ _ _ _ _ _ _ _ H)
    as [[-> _]|(mc' & Hc & Hne & Ht & Hcase)].
  { destruct Hin as [[]|[[]|[]]]. }
  cbv zeta in Hcase.
  assert (mc = mc'); [|subst; auto].
  destruct Hcase
    as [(_ & -> & _)|[(_ & -> & _)|(_ & [(_ & -> & _)|(_ & Hw)])]];
    [| | |destruct Hw as [(_ & -> & _)|(_ & -> & _)]];
    destruct Hin as [Hin|[Hin|Hin]]; simpl in Hin;
    repeat match goal with
           | H : _ \/ _ |- _ => destruct H
           | H : False |- _ => destruct H
           | H : _ = _ :> effect |- _ => inversion H; clear H; subst
           end; auto.
Qed.

Lemma handed_to_sender_app mc a b :
  handed_to_sender mc (a ++ b) ->
  handed_to_sender mc a \/ handed_to_sender mc b.
Proof.
  unfold handed_to_sender. rewrite !in_app_iff. tauto.
Qed.

Lemma dispatch_sends n : forall segs i tr e mc,
  dispatch math_log random_uniform send_message asyncio_sleep config
    clean_pattern n i segs = (tr, e) ->
  handed_to_sender mc tr ->
  exists seg j evs e1,
    In seg segs /\
    dispatch_one math_log random_uniform send_message asyncio_sleep config
      clean_pattern n j seg = (evs, e1) /\
    handed_to_sender mc evs.
Proof.
  induction segs as [|seg segs IH]; intros i tr e mc H Hin.
  - injection H as <- <-. destruct Hin as [[]|[[]|[]]].
  - cbn [dispatch] in H.
    destruct (dispatch_one _ _ _ _ _ _ n i seg) as [evs e0] eqn:E.
    assert (Hstop : (evs, e0) = (tr, e) ->
              exists seg0 j evs0 e1,
                In seg0 (seg :: segs) /\
                dispatch_one math_log random_uniform send_message
                  asyncio_sleep config clean_pattern n j seg0 = (evs0, e1) /\
                handed_to_sender mc evs0).
    { intros [= <- <-]. exists seg, i, evs, e0. simpl; auto. }
    destruct e0; try (apply Hstop; exact H). clear Hstop.
    destruct (dispatch _ _ _ _ _ _ n (S i) segs) as [tr' e'] eqn:E'.
    injection H as <- <-.
    apply handed_to_sender_app in Hin as [Hh|Hh].
    + exists seg, i, evs, Returned. simpl; auto.
    + destruct (IH _ _ _ _ E' Hh) as (seg' & j & evs' & e1 & H1 & H2 & H3).
      exists seg', j, evs', e1. simpl; auto.
Qed.

End Sends.

Lemma clean_chain_length clean_pattern : forall seg mc,
  clean_chain clean_pattern seg = Done mc -> length mc = length seg.
Proof.
  induction seg as [|c seg IH]; intros mc H.
  - now injection H as <-.
  - destruct c as [[|x t]|n]; cbn [clean_chain] in H.
    + destruct (clean_chain clean_pattern seg) as [r| |]; cbn [bind] in H;
        try discriminate.
      injection H as <-. simpl. f_equal. now apply IH.
    + destruct (Re.compile clean_pattern); [|discriminate].
      destruct (clean_chain clean_pattern seg) as [r| |]; cbn [bind] in H;
        try discriminate.
      injection H as <-. simpl. f_equal. now apply IH.
    + destruct (clean_chain clean_pattern seg) as [r| |]; cbn [bind] in H;
        try discriminate.
      injection H as <-. simpl. f_equal. now apply IH.
Qed.

(** C7, amended: every chain that the dispatch loop hands to the sender
    is non-empty and, when it consists of [Plain] components only, has
    non-empty joined text; when no cleanup pattern is configured, each of
    its [Plain] components has non-empty text.  (With a cleanup pattern a
    component emptied by the cleanup stays in a chain that is sent for its
    other content.) *)
Theorem sent_segment_is_never_empty_text_only :
  forall math_log random_uniform send_message asyncio_sleep
         fuel config event event' tr e mc,
    on_decorating_result math_log random_uniform send_message asyncio_sleep
      fuel config event = (event', tr, e) ->
    handed_to_sender mc tr ->
    mc <> [] /\
    (forallb isinstance_Plain mc = true -> text_content mc <> []) /\
    (get (clean_regex config) [] = [] -> no_empty_Plain mc).
Proof.
  intros ml ru sm sl fuel config event event' tr e mc H Hin.
  unfold on_decorating_result in H.
  destruct (negb (is_llm_reply event));
    [injection H as <- <- <-; destruct Hin as [[]|[[]|[]]]|].
  destruct (splitter_processed event);
    [injection H as <- <- <-; destruct Hin as [[]|[[]|[]]]|].
  destruct (result_chain (mark_processed event)) as [[|c ch]|];
    try (injection H as <- <- <-; destruct Hin as [[]|[[]|[]]]).
  destruct (split_chain_smart _ _ _ _) as [segs| |] eqn:Es;
    try (injection H as <- <- <-; destruct Hin as [[]|[[]|[]]]).
  destruct (_ && _);
    [injection H as <- <- <-; destruct Hin as [[]|[[]|[]]]|].
  destruct (dispatch _ _ _ _ _ _ _ _ _) as [tr' e'] eqn:Ed.
  assert (tr' = tr) as -> by (destruct e'; now injection H).
  clear H.
  destruct (dispatch_sends _ _ _ _ _ _ _ _ _ _ _ _ Ed Hin)
    as (seg & j & evs & e1 & Hseg & Hone & Hev).
  destruct (dispatch_one_sends _ _ _ _ _ _ _ _ _ _ _ _ Hone Hev)
    as (Hc & Hne & Ht).
  unfold cleanup in Hc. unfold skipped in Ht.
  assert (Hsegs : Forall no_empty_Plain
                    (cap_segments segs (get (max_segments config) 7%Z))).
  { apply cap_segments_no_empty.
    apply split_chain_smart_no_empty in Es.
    eapply Forall_impl; [|exact Es]. now intros a [_ Ha]. }
  repeat split.
  - destruct (truthy (get (clean_regex config) [])).
    + apply clean_chain_length in Hc.
      destruct mc; [destruct seg; [congruence | discriminate] | discriminate].
    + congruence.
  - intros Hp. rewrite Hp in Ht. simpl in Ht.
    destruct (text_content mc); [discriminate | discriminate].
  - intros Hcl. rewrite Hcl in Hc. simpl in Hc. injection Hc as <-.
    eapply Forall_forall in Hsegs; eauto.
Qed.

Lemma sent_segment_is_never_empty_text_only_witness :
  [Plain (py "你好。")] <> [] /\
  (forallb isinstance_Plain [Plain (py "你好。")] = true ->
   text_content [Plain (py "你好。")] <> []) /\
  (get (clean_regex no_config) [] = [] -> no_empty_Plain [Plain (py "你好。")]).
Proof.
  apply (sent_segment_is_never_empty_text_only
           (fun x => x) (fun _ a _ => a) (fun _ _ => Delivered)
            (fun _ _ => true) 6 no_config
           {| is_llm_reply := true; splitter_processed := false;
              result_chain := Some [Plain (py "你好。世界！")] |}
           {| is_llm_reply := true; splitter_processed := true;
              result_chain := Some [] |}
           [Sent [Plain (py "你好。")];
            Slept (calculate_delay (fun x => x) (fun _ a _ => a) no_config 0
                     (py "你好。"));
            Sent [Plain (py "世界！")]]
           Returned).
  - vm_compute. reflexivity.
  - left. simpl. auto.
Defined.

(** C7 as stated fails: with the cleanup pattern ab, the chain of the
    text ab followed by a non-text component is sent with its [Plain]
    component emptied. *)
Lemma cleaned_component_is_sent_empty :
  ~ (forall math_log random_uniform send_message asyncio_sleep
            fuel config event event' tr e mc,
        on_decorating_result math_log random_uniform send_message asyncio_sleep
          fuel config event = (event', tr, e) ->
        In (Sent mc) tr -> no_empty_Plain mc).
Proof.
  intros H.
  specialize (H (fun x => x) (fun _ a _ => a) (fun _ _ => Delivered)
            (fun _ _ => true) 2
                {| split_regex := None; clean_regex := Some (py "ab");
                   enable_smart_split := None; max_segments := None;
                   delay_strategy := None; random_min := None;
                   random_max := None; log_base := None; log_factor := None;
                   fixed_delay := None |}
                {| is_llm_reply := true; splitter_processed := false;
                   result_chain := Some [Plain (py "ab"); Other 7] |}
                {| is_llm_reply := true; splitter_processed := true;
                   result_chain := Some [] |}
                [Sent [Plain []; Other 7]] Returned [Plain []; Other 7]
                ltac:(vm_compute; reflexivity) ltac:(simpl; auto)).
  exact (H [] ltac:(simpl; auto) eq_refl).
Qed.

(** ** Content preservation *)

(** The loops consume a prefix of the text when their body does. *)
Section LoopSuffix.
Variable A : Type.
Variable step : text -> Re.captures
                -> (text -> Re.captures -> option A) -> option A.
Variable k : text -> Re.captures -> option A.
Hypothesis step_suffix :
  forall s g k' v, step s g k' = Some v ->
                   exists m s' g', s = m ++ s' /\ k' s' g' = Some v.

Lemma greedy_suffix : forall count last s g v,
  Re.greedy step k count last s g = Some v ->
  exists m s' g', s = m ++ s' /\ k s' g' = Some v.
Proof.
  induction count as [|count IH]; intros last s g v H; cbn [Re.greedy] in H.
  - exists [], s, g. auto.
  - destruct (Re.stuck last s); [exists [], s, g; auto|].
    match type of H with
    | match ?x with _ => _ end = _ => destruct x eqn:E
    end.
    + injection H as <-.
      apply step_suffix in E as (m1 & s1 & g1 & -> & E).
      apply IH in E as (m2 & s2 & g2 & -> & E).
      exists (m1 ++ m2), s2, g2. now rewrite app_assoc.
    + exists [], s, g. auto.
Qed.

Lemma lazy_suffix : forall count last s g v,
  Re.lazy step k count last s g = Some v ->
  exists m s' g', s = m ++ s' /\ k s' g' = Some v.
Proof.
  induction count as [|count IH]; intros last s g v H; cbn [Re.lazy] in H;
    destruct (k s g) eqn:Ek;
    try (injection H as <-; exists [], s, g; now auto);
    try discriminate.
  destruct (Re.stuck last s); [discriminate|].
  apply step_suffix in H as (m1 & s1 & g1 & -> & E).
  apply IH in E as (m2 & s2 & g2 & -> & E).
  exists (m1 ++ m2), s2, g2. now rewrite app_assoc.
Qed.

End LoopSuffix.

(** The engine consumes a prefix of the text: what is left is a suffix. *)
Lemma run_suffix (r : Re.regex) :
  forall (A : Type) total s g (k : text -> Re.captures -> option A) v,
    Re.run total r s g k = Some v ->
    exists m s' g', s = m ++ s' /\ k s' g' = Some v.
Proof.
  induction r as [|c| |neg rs|a IHa b IHb|a IHa b IHb|a IHa|n a IHa
                  |a IHa|lz n a IHa|neg a IHa| | |];
    intros A total s g k v H; cbn [Re.run] in H.
  - exists [], s, g. auto.
  - destruct s as [|x s]; [discriminate|].
    destruct (x =? c)%N; [|discriminate]. exists [x], s, g. auto.
  - destruct s as [|x s]; [discriminate|].
    destruct (x =? Re.newline)%N; [discriminate|]. exists [x], s, g. auto.
  - destruct s as [|x s]; [discriminate|].
    destruct (xorb neg (Re.in_ranges x rs)); [|discriminate].
    exists [x], s, g. auto.
  - apply IHa in H as (m1 & s1 & g1 & -> & H).
    apply IHb in H as (m2 & s2 & g2 & -> & H).
    exists (m1 ++ m2), s2, g2. now rewrite app_assoc.
  - destruct (Re.run total a s g k) eqn:E.
    + injection H as <-. eapply IHa; eauto.
    + eapply IHb; eauto.
  - eapply greedy_suffix; [|exact H]. intros; eapply IHa; eauto.
  - apply IHa in H as (m & s' & g' & -> & H). eauto.
  - eapply lazy_suffix; [|exact H]. intros; eapply IHa; eauto.
  - destruct lz.
    + eapply lazy_suffix; [|exact H]. intros; eapply IHa; eauto.
    + eapply greedy_suffix; [|exact H]. intros; eapply IHa; eauto.
  - destruct (Re.run total a s g _) as [g'|]; destruct neg;
      try discriminate; exists [], s; eauto.
  - destruct (length s =? total); [|discriminate]. exists [], s, g. auto.
  - destruct s as [|x [|y s]]; try discriminate.
    + exists [], [], g. auto.
    + destruct (x =? Re.newline)%N; [|discriminate]. exists [], [x], g. auto.
  - destruct s; [|discriminate]. exists [], [], g. auto.
Qed.

Lemma firstn_length_app {A} (m s : list A) :
  firstn (length (m ++ s) - length s) (m ++ s) = m.
Proof.
  rewrite length_app, Nat.add_sub. rewrite firstn_app, Nat.sub_diag.
  simpl. rewrite app_nil_r. apply firstn_all.
Qed.

(** A pattern that is one group around a pattern without groups: the group
    holds the whole match. *)
Lemma attempt_group total r adv s s' g :
  Re.attempt total (Re.Grp 1 r) adv s = Some (s', g) ->
  s = firstn (length s - length s') s ++ s'
  /\ Re.capture 1 g = Some (firstn (length s - length s') s).
Proof.
  unfold Re.attempt. cbn [Re.run]. intros H.
  apply run_suffix in H as (m & s1 & g1 & -> & H).
  destruct (adv && _); [discriminate|]. injection H as <- <-.
  cbn [Re.capture Nat.eqb]. now rewrite firstn_length_app.
Qed.

Lemma search_group total r : forall s adv pre pre' mt g rest,
  Re.search total (Re.Grp 1 r) adv pre s = Some (pre', mt, g, rest) ->
  pre ++ s = pre' ++ mt ++ rest /\ Re.capture 1 g = Some mt.
Proof.
  induction s as [|x s IH]; intros adv pre pre' mt g rest H;
    cbn [Re.search] in H;
    destruct (Re.attempt total (Re.Grp 1 r) adv _) as [[s' g']|] eqn:E;
    try discriminate;
    try (injection H as E1 E2 E3 E4; subst pre' mt g rest;
         apply attempt_group in E as [E C];
         split; [f_equal; exact E | exact C]).
  apply IH in H as [H C]. rewrite <- app_assoc in H. auto.
Qed.

Lemma split_from_group total r fuel : forall adv s,
  parts_text (Re.split_from fuel total
                {| Re.ast := Re.Grp 1 r; Re.ngroups := 1 |} adv s) = s.
Proof.
  induction fuel as [|fuel IH]; intros adv s; cbn [Re.split_from].
  - simpl. apply app_nil_r.
  - cbn [Re.ast].
    destruct (Re.search total (Re.Grp 1 r) adv [] s)
      as [[[[pre mt] g] rest]|] eqn:E.
    + apply search_group in E as [E C].
      unfold Re.group_values. cbn [Re.ngroups seq map app]. rewrite C.
      cbn [parts_text]. rewrite IH. exact (eq_sym E).
    + simpl. apply app_nil_r.
Qed.

(** ** Local patterns: a match is matched in full on its own *)

(** ** A match can be found again by a more tolerant continuation *)


Section LoopPath.
Variable A : Type.
Variable step : text -> Re.captures
                -> (text -> Re.captures -> option A) -> option A.
Hypothesis step_path :
  forall s g k1 v, step s g k1 = Some v ->
    exists s' g', k1 s' g' = Some v /\
      forall k2 : text -> Re.captures -> option A,
        k2 s' g' <> None -> step s g k2 <> None.



End LoopPath.


(** ** A match of a local pattern does not depend on what follows it *)



Section LoopTrunc.
Variables A B : Type.
Variable stepf : text -> Re.captures
                 -> (text -> Re.captures -> option A) -> option A.
Variable stept : text -> Re.captures
                 -> (text -> Re.captures -> option B) -> option B.
Variables x rest : text.
Hypothesis step_trunc :
  forall x0 g0 K KT,
    length x0 <= length x ->
    (forall x1 g1, length x1 <= length x0 ->
                   K (x1 ++ rest) g1 <> None -> KT x1 g1 <> None) ->
    (forall s' g', length s' < length rest -> K s' g' = None) ->
    stepf (x0 ++ rest) g0 K <> None -> stept x0 g0 KT <> None.
Hypothesis stepf_suffix :
  forall s g k' v, stepf s g k' = Some v ->
                   exists m s' g', s = m ++ s' /\ k' s' g' = Some v.
Variable k : text -> Re.captures -> option A.
Variable kt : text -> Re.captures -> option B.
Hypothesis Hk1 :
  forall x1 g1, length x1 <= length x ->
                k (x1 ++ rest) g1 <> None -> kt x1 g1 <> None.
Hypothesis Hk2 : forall s' g', length s' < length rest -> k s' g' = None.





End LoopTrunc.



(** ** The delimiter tokens of simple mode *)








Lemma text_content_app a b :
  text_content (a ++ b) = text_content a ++ text_content b.
Proof.
  induction a as [|[t|n] a IH]; simpl; auto. now rewrite IH, app_assoc.
Qed.

Lemma others_app a b : others (a ++ b) = others a ++ others b.
Proof. apply filter_app. Qed.

Lemma text_content_concat segs :
  text_content (concat segs) = concat (map text_content segs).
Proof.
  induction segs as [|s segs IH]; simpl; auto.
  now rewrite text_content_app, IH.
Qed.

Lemma concat_filter_nonempty {A} (l : list (list A)) :
  concat (filter nonempty l) = concat l.
Proof.
  induction l as [|[|x a] l IH]; simpl; auto. now rewrite IH.
Qed.

Lemma emitted_close segs buf c :
  emitted (segs ++ [buf ++ [c]]) [] = emitted segs buf ++ [c].
Proof.
  unfold emitted. rewrite concat_app. simpl. now rewrite !app_nil_r, app_assoc.
Qed.

Lemma emitted_push segs buf c :
  emitted segs (buf ++ [c]) = emitted segs buf ++ [c].
Proof. unfold emitted. now rewrite app_assoc. Qed.

Lemma simple_walk_text pattern : forall parts temp segs buf temp' segs' buf',
  simple_walk pattern parts temp segs buf = Done (temp', segs', buf') ->
  text_content (emitted segs' buf') ++ temp'
  = text_content (emitted segs buf) ++ temp ++ parts_text parts
  /\ others (emitted segs' buf') = others (emitted segs buf).
Proof.
  induction parts as [|part parts IH]; intros temp segs buf temp' segs' buf' H.
  - injection H as <- <- <-. now rewrite app_nil_r.
  - destruct part as [[|x part]|]; cbn [simple_walk] in H;
      try (apply IH in H; exact H).
    destruct (re_fullmatch pattern (x :: part)) as [[]| |]; cbn [bind] in H;
      try discriminate; cbv zeta in H; apply IH in H as [H1 H2];
      rewrite H1, H2.
    + rewrite emitted_close, text_content_app, others_app. simpl.
      now rewrite !app_nil_r, <- !app_assoc.
    + cbn [parts_text]. destruct temp as [|y temp]; cbn [truthy app].
      * auto.
      * rewrite emitted_push, text_content_app, others_app. simpl.
        now rewrite !app_nil_r, <- !app_assoc.
Qed.

Lemma process_text_simple_text t pattern segs buf segs' buf' :
  group_free_wrap pattern ->
  _process_text_simple t pattern segs buf = Done (segs', buf') ->
  text_content (emitted segs' buf') = text_content (emitted segs buf) ++ t
  /\ others (emitted segs' buf') = others (emitted segs buf).
Proof.
  intros [r Hr]. unfold _process_text_simple, re_split_wrapped. rewrite Hr.
  cbn [bind]. intros H.
  destruct (simple_walk pattern _ [] segs buf) as [[[temp s1] b1]| |] eqn:E;
    cbn [bind] in H; try discriminate.
  injection H as <- <-.
  apply simple_walk_text in E as [E1 E2].
  unfold Re.split in E1. rewrite split_from_group in E1. simpl in E1.
  destruct temp as [|y temp]; cbn [truthy].
  - rewrite app_nil_r in E1. auto.
  - rewrite emitted_push, text_content_app, others_app. simpl.
    rewrite !app_nil_r. auto.
Qed.

Lemma skipn_cons_nth {A} (l : list A) i x :
  nth_error l i = Some x -> skipn i l = x :: skipn (i + 1) l.
Proof.
  revert i. induction l as [|a l IH]; intros [|i] H; simpl in *;
    try discriminate.
  - now injection H as ->.
  - now apply IH.
Qed.

Lemma match_at_prefix p t i d :
  Re.match_at p t i = Some d -> skipn i t = d ++ skipn (i + length d) t.
Proof.
  unfold Re.match_at.
  destruct (Re.attempt (length t) (Re.ast p) false (skipn i t))
    as [[s' g]|];
    [|discriminate].
  intros [= <-]. set (s := skipn i t). set (k := length s - length s').
  rewrite Nat.add_comm, <- skipn_skipn. fold s.
  rewrite <- (firstn_skipn k s) at 1. f_equal.
  rewrite length_firstn.
  destruct (Nat.le_ge_cases k (length s)).
  - now rewrite Nat.min_l.
  - rewrite Nat.min_r by assumption. now rewrite !skipn_all2.
Qed.

Lemma smart_step_inv p t base st :
  i st < length t -> smart_inv t base st ->
  smart_inv t base (smart_step p t st).
Proof.
  intros Hi [H1 H2].
  destruct (nth_error t (i st)) as [c|] eqn:Hc;
    [| apply nth_error_None in Hc; lia].
  assert (Hcons : forall stk, smart_inv t base (consume st c stk)).
  { intros stk. split; [|exact H2].
    cbn [consume i current_chunk buffer segments].
    rewrite <- H1, (skipn_cons_nth _ _ _ Hc), <- !app_assoc. reflexivity. }
  unfold smart_step. rewrite Hc.
  destruct (is_quote c).
  { destruct (stack st) as [|top below]; [apply Hcons|].
    destruct (top =? c)%N; apply Hcons. }
  destruct (stack st) as [|top below].
  - destruct (dict_contains pair_map c); [apply Hcons|].
    destruct (Re.match_at p t (i st)) as [d|] eqn:Hm; [|apply Hcons].
    split; cbn [i current_chunk buffer segments].
    + rewrite emitted_close, text_content_app. simpl.
      rewrite <- H1, (match_at_prefix _ _ _ _ Hm), !app_nil_r, <- !app_assoc.
      reflexivity.
    + rewrite emitted_close, others_app. simpl. now rewrite app_nil_r.
  - destruct (dict_get pair_map top) as [closer|].
    + destruct (c =? closer)%N; [apply Hcons|].
      destruct (dict_contains pair_map c); apply Hcons.
    + destruct (dict_contains pair_map c); apply Hcons.
Qed.

Lemma smart_loop_inv p t base fuel : forall st r,
  smart_loop fuel p t st = Some r -> smart_inv t base st ->
  smart_inv t base r /\ length t <= i r.
Proof.
  induction fuel as [|fuel IH]; intros st r H Hinv; simpl in H;
    destruct (Nat.ltb_spec (i st) (length t)); try discriminate;
    try (injection H as <-; now auto).
  apply IH in H; [exact H|]. now apply smart_step_inv.
Qed.

Lemma process_text_smart_text fuel t pattern segs buf segs' buf' :
  _process_text_smart fuel t pattern segs buf = Done (segs', buf') ->
  text_content (emitted segs' buf') = text_content (emitted segs buf) ++ t
  /\ others (emitted segs' buf') = others (emitted segs buf).
Proof.
  unfold _process_text_smart. intros H.
  destruct (Re.compile pattern) as [cp|]; [|discriminate].
  destruct (smart_loop fuel cp t _) as [st|] eqn:E; [|discriminate].
  injection H as <- <-.
  apply (smart_loop_inv cp t (emitted segs buf)) in E as [[H1 H2] Hi].
  - rewrite skipn_all2, app_nil_r in H1 by exact Hi.
    destruct (current_chunk st) as [|y ch]; cbn [truthy].
    + rewrite app_nil_r in H1. auto.
    + rewrite emitted_push, text_content_app, others_app. simpl.
      rewrite !app_nil_r. auto.
  - split; reflexivity.
Qed.

Lemma chain_loop_text fuel pattern smart_mode :
  smart_mode = true \/ group_free_wrap pattern ->
  forall ch segs buf segs' buf',
    chain_loop fuel ch pattern smart_mode segs buf = Done (segs', buf') ->
    text_content (emitted segs' buf')
    = text_content (emitted segs buf) ++ text_content ch
    /\ others (emitted segs' buf') = others (emitted segs buf) ++ others ch.
Proof.
  intros Hm. induction ch as [|c ch IH]; intros segs buf segs' buf' H.
  - injection H as <- <-. now rewrite !app_nil_r.
  - destruct c as [[|x t]|n]; cbn [chain_loop] in H.
    + apply IH in H. exact H.
    + assert (Hp : forall s1 b1,
                 (if smart_mode
                  then _process_text_smart fuel (x :: t) pattern segs buf
                  else _process_text_simple (x :: t) pattern segs buf)
                 = Done (s1, b1) ->
                 text_content (emitted s1 b1)
                 = text_content (emitted segs buf) ++ x :: t
                 /\ others (emitted s1 b1) = others (emitted segs buf)).
      { intros s1 b1 E. destruct smart_mode.
        - eapply process_text_smart_text; eauto.
        - destruct Hm as [|Hm]; [discriminate|].
          eapply process_text_simple_text; eauto. }
      destruct (if smart_mode then _ else _) as [[s1 b1]| |];
        cbn [bind] in H; try discriminate.
      destruct (Hp s1 b1 eq_refl) as [E1 E2].
      apply IH in H as [H1 H2]. rewrite H1, H2, E1, E2.
      cbn [text_content]. now rewrite <- app_assoc.
    + apply IH in H as [H1 H2]. rewrite H1, H2.
      rewrite emitted_push, text_content_app, others_app. simpl.
      now rewrite app_nil_r, <- app_assoc.
Qed.

(** The segmenter keeps the content (the part of C1 that holds): when it
    returns, in smart mode for every pattern, and in simple mode for
    every pattern that has no capturing group of its own, the text of the
    [Plain] components of the segments, joined in order, is the text of
    the [Plain] components of the input, and the non-text components come
    in the order of the input. *)
Theorem segmenter_preserves_content :
  forall fuel ch pattern smart_mode segs,
    smart_mode = true \/ group_free_wrap pattern ->
    split_chain_smart fuel ch pattern smart_mode = Done segs ->
    concat (map text_content segs) = text_content ch
    /\ others (concat segs) = others ch.
Proof.
  intros fuel ch pattern smart_mode segs Hm H.
  unfold split_chain_smart in H.
  destruct (chain_loop fuel ch pattern smart_mode [] []) as [[s b]| |] eqn:E;
    cbn [bind] in H; try discriminate.
  injection H as <-.
  apply (chain_loop_text _ _ _ Hm) in E as [E1 E2]. simpl in E1, E2.
  rewrite <- text_content_concat, concat_filter_nonempty.
  unfold emitted in E1, E2.
  destruct b as [|c b]; cbn [nonempty].
  - rewrite app_nil_r in E1, E2. auto.
  - rewrite concat_app. simpl concat. rewrite app_nil_r. auto.
Qed.

Lemma segmenter_preserves_content_witness :
  concat (map text_content [[Plain (py "你好。")]; [Other 1; Plain (py "世界！")]])
  = text_content [Plain (py "你好。"); Other 1; Plain (py "世界！")]
  /\ others (concat [[Plain (py "你好。")]; [Other 1; Plain (py "世界！")]])
     = others [Plain (py "你好。"); Other 1; Plain (py "世界！")].
Proof.
  apply (segmenter_preserves_content 0
           [Plain (py "你好。"); Other 1; Plain (py "世界！")]
           default_split_regex false).
  - right. eexists. vm_compute. reflexivity.
  - vm_compute. reflexivity.
Defined.

(** ** Termination *)

Lemma smart_step_advances p t st :
  never_empty p -> i st < length t -> i st < i (smart_step p t st).
Proof.
  intros Hp Hi.
  destruct (nth_error t (i st)) as [c|] eqn:Hc;
    [| apply nth_error_None in Hc; lia].
  assert (Hcons : forall stk, i st < i (consume st c stk))
    by (intros; simpl; lia).
  unfold smart_step. rewrite Hc.
  destruct (is_quote c).
  { destruct (stack st) as [|top below]; [apply Hcons|].
    destruct (top =? c)%N; apply Hcons. }
  destruct (stack st) as [|top below].
  - destruct (dict_contains pair_map c); [apply Hcons|].
    destruct (Re.match_at p t (i st)) as [[|x d]|] eqn:Hm;
      [|simpl; lia|apply Hcons].
    now apply Hp in Hm.
  - destruct (dict_get pair_map top) as [closer|].
    + destruct (c =? closer)%N; [apply Hcons|].
      destruct (dict_contains pair_map c); apply Hcons.
    + destruct (dict_contains pair_map c); apply Hcons.
Qed.

Lemma smart_loop_terminates p t : never_empty p ->
  forall fuel st, length t - i st <= fuel ->
    exists r, smart_loop fuel p t st = Some r.
Proof.
  intros Hp. induction fuel as [|fuel IH]; intros st Hf; simpl;
    destruct (Nat.ltb_spec (i st) (length t)); eauto; try lia.
  apply IH. pose proof (smart_step_advances p t st Hp H). lia.
Qed.

Lemma chain_loop_terminates fuel pattern cp :
  Re.compile pattern = Some cp -> never_empty cp ->
  forall ch segs buf,
    (forall t, In (Plain t) ch -> length t <= fuel) ->
    exists r, chain_loop fuel ch pattern true segs buf = Done r.
Proof.
  intros Hc Hp. induction ch as [|c ch IH]; intros segs buf Hlen.
  - simpl. eauto.
  - assert (Hlen' : forall t, In (Plain t) ch -> length t <= fuel)
      by (intros t Ht; apply Hlen; now right).
    destruct c as [[|x t]|n]; cbn [chain_loop]; auto.
    unfold _process_text_smart. rewrite Hc.
    destruct (smart_loop_terminates cp (x :: t) Hp fuel
                {| i := 0; stack := []; current_chunk := [];
                   buffer := buf; segments := segs |}) as [r ->].
    + cbn [i]. rewrite Nat.sub_0_r. apply Hlen. now left.
    + cbn [bind]. apply IH. exact Hlen'.
Qed.

(** A pattern that begins with a character class takes at least that
    character. *)
Lemma class_first_never_empty neg rs r n :
  never_empty {| Re.ast := Re.Cat (Re.Cls neg rs) r; Re.ngroups := n |}.
Proof.
  intros t pos. unfold Re.match_at, Re.attempt. cbn [Re.ast Re.run].
  destruct (skipn pos t) as [|x s]; [discriminate|].
  destruct (xorb neg (Re.in_ranges x rs)); [|discriminate].
  destruct (Re.run _ r s [] _) as [[s' g]|] eqn:E; [|discriminate].
  apply run_suffix in E as (m & s1 & g1 & -> & E).
  simpl in E. injection E as <- <-.
  intros [= H]. apply (f_equal (@length char)) in H.
  rewrite length_firstn in H. cbn [length] in H. rewrite length_app in H.
  destruct (length s1); lia.
Qed.

(** X2: smart mode returns (the part of C5 that holds) for every pattern
    that compiles and never matches the empty text, the fuel being at
    least the length of the longest text of the chain: every iteration of
    the scan advances by at least one character. *)
Theorem segmenter_terminates :
  forall fuel ch pattern cp,
    Re.compile pattern = Some cp -> never_empty cp ->
    (forall t, In (Plain t) ch -> length t <= fuel) ->
    exists segs, split_chain_smart fuel ch pattern true = Done segs.
Proof.
  intros fuel ch pattern cp Hc Hp Hlen. unfold split_chain_smart.
  destruct (chain_loop_terminates fuel pattern cp Hc Hp ch [] [] Hlen)
    as [[s b] ->].
  cbn [bind]. eauto.
Qed.

Lemma segmenter_terminates_witness :
  exists segs,
    split_chain_smart 6 [Plain (py "你好。世界！"); Other 1]
      default_split_regex true
    = Done segs.
Proof.
  refine (segmenter_terminates 6 [Plain (py "你好。世界！"); Other 1]
            default_split_regex _ eq_refl _ _).
  - apply class_first_never_empty.
  - intros t [[= <-]|[[=]|[]]]. vm_compute. reflexivity.
Defined.

(* ================================================================== *)
(** * Further properties *)

(** ** The cap keeps every component *)

Lemma concat_nonempty {A} (l : list (list A)) :
  l <> [] -> Forall (fun s => s <> []) l -> concat l <> [].
Proof.
  intros Hl H. destruct H as [|s l' Hs _]; [congruence|].
  simpl. destruct s; [congruence | discriminate].
Qed.

Lemma cap_segments_cases (segs : list chain) (M : Z) :
  cap_segments segs M = segs
  \/ ((0 < M)%Z /\ Z.to_nat (M - 1) < length segs
      /\ cap_segments segs M
         = firstn (Z.to_nat (M - 1)) segs
           ++ [concat (skipn (Z.to_nat (M - 1)) segs)]).
Proof.
  unfold cap_segments.
  destruct (Z.gtb_spec (Z.of_nat (length segs)) M) as [Hlen|Hlen];
    destruct (Z.gtb_spec M 0) as [Hm|Hm]; cbn [andb]; auto.
  right. repeat split; auto; lia.
Qed.

Lemma cap_segments_length segs M :
  (0 < M)%Z -> length (cap_segments segs M) <= Z.to_nat M.
Proof.
  intros Hm. unfold cap_segments.
  destruct (Z.gtb_spec (Z.of_nat (length segs)) M) as [Hlen|Hlen];
    destruct (Z.gtb_spec M 0) as [Hm'|Hm']; cbn [andb]; try lia.
  rewrite length_app, length_firstn. simpl. lia.
Qed.

Lemma cap_segments_concat segs M :
  concat (cap_segments segs M) = concat segs.
Proof.
  destruct (cap_segments_cases segs M) as [->|(_ & _ & ->)]; auto.
  rewrite concat_app. simpl. rewrite app_nil_r, <- concat_app.
  now rewrite firstn_skipn.
Qed.

Lemma cap_segments_nonempty segs M :
  Forall (fun seg => seg <> [] /\ no_empty_Plain seg) segs ->
  Forall (fun seg => seg <> [] /\ no_empty_Plain seg) (cap_segments segs M).
Proof.
  intros H.
  assert (H1 : Forall (fun s : chain => s <> []) segs)
    by (eapply Forall_impl; [|exact H]; now intros a [Ha _]).
  assert (H2 : Forall no_empty_Plain segs)
    by (eapply Forall_impl; [|exact H]; now intros a [_ Ha]).
  apply (cap_segments_no_empty _ M) in H2.
  assert (H3 : Forall (fun s : chain => s <> []) (cap_segments segs M)).
  { destruct (cap_segments_cases segs M) as [->|(_ & Hk & ->)]; auto.
    apply Forall_app. split.
    - apply Forall_forall. intros x Hx. apply In_firstn in Hx.
      eapply Forall_forall in H1; eauto.
    - constructor; [|constructor]. apply concat_nonempty.
      + intros E'. apply (f_equal (@length _)) in E'.
        rewrite length_skipn in E'. simpl in E'. lia.
      + apply Forall_forall. intros x Hx. apply In_skipn in Hx.
        eapply Forall_forall in H1; eauto. }
  apply Forall_forall. intros x Hx. split.
  - eapply Forall_forall in H3; eauto.
  - eapply Forall_forall in H2; eauto.
Qed.

(** X3: the cap of step 4 loses nothing.  The capped list holds the same
    components in the same order as the list it is given, is never
    longer, has at most [max_segs] segments when [max_segs] is positive,
    is left as it is by a second cap, and has no empty segment when the
    list had none. *)
Theorem cap_segments_keeps_components :
  forall (S : list chain) (M : Z),
    concat (cap_segments S M) = concat S
    /\ length (cap_segments S M) <= length S
    /\ ((0 < M)%Z -> length (cap_segments S M) <= Z.to_nat M)
    /\ cap_segments (cap_segments S M) M = cap_segments S M
    /\ (Forall (fun s => s <> []) S ->
        Forall (fun s => s <> []) (cap_segments S M)).
Proof.
  intros S M.
  destruct (Z.gtb_spec (Z.of_nat (length S)) M) as [Hlen|Hlen];
    destruct (Z.gtb_spec M 0) as [Hm|Hm].
  2-4: assert (E : cap_segments S M = S)
         by (unfold cap_segments;
             destruct (Z.gtb_spec (Z.of_nat (length S)) M);
             destruct (Z.gtb_spec M 0); cbn [andb]; auto; lia);
       rewrite !E; repeat split; auto; lia.
  set (k := Z.to_nat (M - 1)).
  assert (E : cap_segments S M = firstn k S ++ [concat (skipn k S)]).
  { unfold cap_segments.
    destruct (Z.gtb_spec (Z.of_nat (length S)) M);
      destruct (Z.gtb_spec M 0); cbn [andb]; auto; lia. }
  assert (Hk : k < length S) by (unfold k; lia).
  assert (Hl : length (cap_segments S M) = Z.to_nat M).
  { rewrite E, length_app, length_firstn. simpl. unfold k. lia. }
  repeat split.
  - rewrite E, concat_app. simpl. rewrite app_nil_r, <- concat_app.
    now rewrite firstn_skipn.
  - rewrite Hl. lia.
  - intros _. rewrite Hl. lia.
  - unfold cap_segments at 1. rewrite Hl.
    destruct (Z.gtb_spec (Z.of_nat (Z.to_nat M)) M); [lia | reflexivity].
  - intros H. rewrite E. apply Forall_app. split.
    + apply Forall_forall. intros x Hx. apply In_firstn in Hx.
      eapply Forall_forall in H; eauto.
    + constructor; [|constructor]. apply concat_nonempty.
      * intros E'. apply (f_equal (@length _)) in E'.
        rewrite length_skipn in E'. simpl in E'. lia.
      * apply Forall_forall. intros x Hx. apply In_skipn in Hx.
        eapply Forall_forall in H; eauto.
Qed.

(** ** The shape of the segments *)

Lemma ends_with_Plain_close buf t :
  t <> [] -> ends_with_Plain (buf ++ [Plain t]).
Proof. intros H. now exists buf, t. Qed.

Lemma ends_with_Plain_nonempty seg : ends_with_Plain seg -> seg <> [].
Proof. intros (pre & t & _ & ->). now destruct pre. Qed.

Lemma simple_walk_closed pattern :
  forall parts temp segs buf temp' segs' buf',
    simple_walk pattern parts temp segs buf = Done (temp', segs', buf') ->
    Forall ends_with_Plain segs -> Forall ends_with_Plain segs'.
Proof.
  induction parts as [|part parts IH];
    intros temp segs buf temp' segs' buf' H Hs.
  - now injection H as <- <- <-.
  - destruct part as [[|x part]|]; cbn [simple_walk] in H; eauto.
    destruct (re_fullmatch pattern (x :: part)) as [[]| |]; cbn [bind] in H;
      try discriminate; eapply IH; eauto.
    apply Forall_snoc; [exact Hs|]. apply ends_with_Plain_close.
    destruct temp; discriminate.
Qed.

Lemma smart_loop_closed p t fuel : forall st r,
  smart_loop fuel p t st = Some r ->
  Forall ends_with_Plain (segments st) -> Forall ends_with_Plain (segments r).
Proof.
  induction fuel as [|fuel IH]; intros st r H Hs; pose proof H as H0;
    simpl in H;
    destruct (Nat.ltb_spec (i st) (length t)); try discriminate;
    try (injection H as <-; now auto).
  assert (Hn : exists c, nth_error t (i st) = Some c).
  { destruct (nth_error t (i st)) eqn:E; [eauto|].
    apply nth_error_None in E. lia. }
  destruct Hn as [c Hc].
  destruct (stack st) as [|top below] eqn:Est.
  - destruct (is_quote c) eqn:Hq.
    { apply IH in H; [exact H|].
      unfold smart_step; rewrite Hc, Hq, Est; exact Hs. }
    destruct (dict_contains pair_map c) eqn:Ho.
    { apply IH in H; [exact H|].
      unfold smart_step; rewrite Hc, Hq, Est, Ho; exact Hs. }
    destruct (Re.match_at p t (i st)) as [[|d ds]|] eqn:Hm.
    + rewrite (empty_match_stuck p t c (S fuel) st Hc Est Ho Hq Hm) in H0.
      discriminate.
    + apply IH in H; [exact H|].
      unfold smart_step; rewrite Hc, Hq, Est, Ho, Hm; cbn [segments].
      apply Forall_snoc; [exact Hs|]. apply ends_with_Plain_close.
      destruct (current_chunk st); discriminate.
    + apply IH in H; [exact H|].
      unfold smart_step; rewrite Hc, Hq, Est, Ho, Hm; exact Hs.
  - destruct (step_nonempty_stack p t st c) as [stk E];
      [rewrite Est; discriminate | exact Hc |].
    rewrite E in H. apply IH in H; [exact H | exact Hs].
Qed.

Lemma chain_loop_closed fuel pattern smart_mode :
  forall ch segs buf segs' buf',
    chain_loop fuel ch pattern smart_mode segs buf = Done (segs', buf') ->
    Forall ends_with_Plain segs -> Forall ends_with_Plain segs'.
Proof.
  induction ch as [|c ch IH]; intros segs buf segs' buf' H Hs.
  - now injection H as <- <-.
  - destruct c as [[|x t]|n]; cbn [chain_loop] in H; eauto.
    destruct smart_mode.
    + unfold _process_text_smart in H.
      destruct (Re.compile pattern) as [cp|]; [|discriminate].
      destruct (smart_loop fuel cp (x :: t) _) as [st|] eqn:E;
        [|discriminate].
      cbn [bind] in H. eapply IH; [exact H|].
      apply (smart_loop_closed _ _ _ _ _ E Hs).
    + unfold _process_text_simple in H.
      destruct (re_split_wrapped pattern (x :: t)) as [parts| |];
        cbn [bind] in H; try discriminate.
      destruct (simple_walk pattern parts [] segs buf)
        as [[[temp s1] b1]| |] eqn:E; cbn [bind] in H; try discriminate.
      eapply IH; [exact H|]. eapply simple_walk_closed; eauto.
Qed.

Lemma filter_nonempty_closed segs :
  Forall ends_with_Plain segs -> filter nonempty segs = segs.
Proof.
  induction 1 as [|s l Hs _ IH]; [reflexivity|].
  simpl. apply ends_with_Plain_nonempty in Hs.
  destruct s; [congruence|]. simpl. now rewrite IH.
Qed.

(** The result of the segmenter, from what its loop leaves. *)
Lemma split_chain_smart_shape fuel ch pattern smart_mode segs :
  split_chain_smart fuel ch pattern smart_mode = Done segs ->
  exists closed buf,
    chain_loop fuel ch pattern smart_mode [] [] = Done (closed, buf) /\
    Forall ends_with_Plain closed /\
    segs = (if nonempty buf then closed ++ [buf] else closed).
Proof.
  unfold split_chain_smart. intros H.
  destruct (chain_loop fuel ch pattern smart_mode [] []) as [[s b]| |] eqn:E;
    cbn [bind] in H; try discriminate.
  injection H as <-.
  pose proof (chain_loop_closed _ _ _ _ _ _ _ _ E (Forall_nil _)) as Hc.
  exists s, b. split; [reflexivity|]. split; [exact Hc|].
  destruct b as [|c b]; cbn [nonempty].
  - now apply filter_nonempty_closed.
  - rewrite filter_app. simpl. now rewrite filter_nonempty_closed.
Qed.

(** X4: the shape of what [split_chain_smart] returns, in both modes and
    for every pattern.  No segment is empty and no [Plain] of a segment
    has empty text; every segment but the last ends with a [Plain] of
    non-empty text, so a segment is only ever closed by text and a
    non-text component never ends a segment that has a successor. *)
Theorem segments_are_nonempty_and_closed_by_text :
  forall fuel ch pattern smart_mode segs,
    split_chain_smart fuel ch pattern smart_mode = Done segs ->
    Forall (fun seg => seg <> [] /\ no_empty_Plain seg) segs
    /\ (forall init last, segs = init ++ [last] ->
        Forall ends_with_Plain init).
Proof.
  intros fuel ch pattern smart_mode segs H. split.
  - exact (split_chain_smart_no_empty _ _ _ _ _ H).
  - intros init last E.
    destruct (split_chain_smart_shape _ _ _ _ _ H) as (cl & b & _ & Hc & Hs).
    destruct (nonempty b).
    + rewrite Hs in E. apply app_inj_tail in E as [<- _]. exact Hc.
    + rewrite Hs in E. rewrite E in Hc. now apply Forall_app in Hc as [Hc _].
Qed.

Lemma segments_are_nonempty_and_closed_by_text_witness :
  Forall (fun seg => seg <> [] /\ no_empty_Plain seg)
    [[Plain (py "你好。")]; [Other 1; Plain (py "世界！")]; [Other 2]]
  /\ (forall init last,
        [[Plain (py "你好。")]; [Other 1; Plain (py "世界！")]; [Other 2]]
        = init ++ [last] -> Forall ends_with_Plain init).
Proof.
  apply (segments_are_nonempty_and_closed_by_text 0
           [Plain (py "你好。"); Plain []; Other 1; Plain (py "世界！");
            Other 2]
           default_split_regex false).
  vm_compute. reflexivity.
Defined.

(** ** Chains without text *)

Lemma chain_loop_textless fuel pattern smart_mode :
  forall ch segs buf,
    forallb textless ch = true ->
    chain_loop fuel ch pattern smart_mode segs buf
    = Done (segs, buf ++ others ch).
Proof.
  induction ch as [|c ch IH]; intros segs buf H.
  - simpl. now rewrite app_nil_r.
  - simpl in H. apply andb_prop in H as [Hc H].
    destruct c as [[|x t]|n]; try discriminate; cbn [chain_loop].
    + rewrite IH by exact H. reflexivity.
    + rewrite IH by exact H. unfold others. simpl. now rewrite <- app_assoc.
Qed.

(** X5: a chain that carries no text (non-text components and [Plain]
    components of empty text only) is never matched against the pattern.
    Whatever the pattern, one that does not compile included, whatever
    the mode and the fuel, the result is the single segment of its
    non-text components, and no segment when there is none. *)
Theorem textless_chain_never_consults_pattern :
  forall fuel ch pattern smart_mode,
    forallb textless ch = true ->
    split_chain_smart fuel ch pattern smart_mode
    = Done (if nonempty (others ch) then [others ch] else []).
Proof.
  intros fuel ch pattern smart_mode H. unfold split_chain_smart.
  rewrite chain_loop_textless by exact H. cbn [bind app].
  destruct (others ch); reflexivity.
Qed.

Lemma textless_chain_never_consults_pattern_witness :
  split_chain_smart 0 [Other 1; Plain []; Other 2] (py "(((") true
  = Done (if nonempty (others [Other 1; Plain []; Other 2])
          then [others [Other 1; Plain []; Other 2]] else []).
Proof.
  apply textless_chain_never_consults_pattern. reflexivity.
Defined.

(** ** The dispatch loop, by what it offers *)

Lemma attempts_app a b : attempts (a ++ b) = attempts a ++ attempts b.
Proof.
  induction a as [|[mc|mc|w|mc|w] a IH]; simpl; auto; now rewrite IH.
Qed.

Lemma sleeps_app a b : sleeps (a ++ b) = sleeps a + sleeps b.
Proof.
  induction a as [|[mc|mc|w|mc|w] a IH]; simpl; auto.
Qed.

Section Offers.
Variable math_log : float -> float.
Variable random_uniform : nat -> float -> float -> float.
Variable send_message : nat -> chain -> send_result.
Variable asyncio_sleep : nat -> float -> bool.
Variables (config : Config) (clean_pattern : text).

(** One iteration, by what it offers. *)
Lemma dispatch_one_offers n i seg evs e :
  dispatch_one math_log random_uniform send_message asyncio_sleep config
    clean_pattern n i seg = (evs, e) ->
  match e with
  | Returned =>
    offered clean_pattern seg = Done (attempts evs)
    /\ (evs = [] \/ exists mc,
          evs = [SendFailed mc] \/ evs = [Sent mc] \/
          exists w, evs = [Sent mc; Slept w] /\ i < n - 1)
  | Raises => evs = [] /\ offered clean_pattern seg = Raised
  | Diverges => evs = [] /\ offered clean_pattern seg = Diverged
  | Cancelled =>
    offered clean_pattern seg = Done (attempts evs)
    /\ exists mc,
         evs = [SendCancelled mc] \/
         exists w, evs = [Sent mc; SleepCancelled w] /\ i < n - 1
  end.
Proof.
  unfold dispatch_one, offered.
  destruct (negb (nonempty seg)); [intros [= <- <-]; simpl; auto|].
  destruct (cleanup clean_pattern seg) as [mc| |]; cbn [bind];
    try (intros [= <- <-]; auto).
  destruct (skipped mc); [intros [= <- <-]; simpl; auto|].
  destruct (send_message i mc).
  - destruct (Nat.ltb_spec i (n - 1)).
    + destruct (asyncio_sleep i _); intros [= <- <-]; simpl; split; auto;
        [right|]; exists mc; eauto.
    + intros [= <- <-]. simpl. split; auto. right. exists mc. auto.
  - intros [= <- <-]. simpl. split; auto. right. exists mc. auto.
  - intros [= <- <-]. simpl. split; auto. exists mc. auto.
Qed.

(** The loop, by what it offers: the chains handed to the sender are
    those that the segments offer, up to the segment at which the call is
    cancelled. *)
Lemma dispatch_offers n : forall segs i tr e,
  dispatch math_log random_uniform send_message asyncio_sleep config
    clean_pattern n i segs = (tr, e) ->
  (e <> Cancelled -> offered_all clean_pattern segs = (attempts tr, e))
  /\ (exists r, fst (offered_all clean_pattern segs) = attempts tr ++ r)
  /\ well_paced tr = true /\ starts_with_wait tr = false
  /\ sleeps tr <= length (attempts tr)
  /\ (i + length segs = n -> sleeps tr <= length segs - 1).
Proof.
  induction segs as [|seg segs IH]; intros i tr e H.
  - injection H as <- <-. simpl. repeat split; auto. now exists [].
  - cbn [dispatch offered_all] in *.
    destruct (dispatch_one _ _ _ _ _ _ n i seg) as [evs e0] eqn:E1.
    pose proof (dispatch_one_offers n i seg evs e0 E1) as Ho.
    destruct e0.
    + destruct Ho as (Ho & Hshape). rewrite Ho.
      destruct (dispatch _ _ _ _ _ _ n (S i) segs) as [tr' e'] eqn:E.
      injection H as <- <-.
      destruct (IH _ _ _ E) as (I1 & [r I0] & I2 & I3 & I4 & I5).
      rewrite attempts_app, sleeps_app, length_app.
      assert (Hp : well_paced (evs ++ tr') = true
                   /\ starts_with_wait (evs ++ tr') = false).
      { destruct Hshape as [->|(mc & [->|[->|(w & -> & _)]])]; simpl; auto.
        destruct tr' as [|[| | | |] tr']; simpl in *; auto; discriminate. }
      destruct Hp as [Hp1 Hp2].
      split; [intros He; now rewrite (I1 He)|].
      split.
      { exists r. destruct (offered_all clean_pattern segs) as [l0 e0].
        simpl in *. now rewrite I0, app_assoc. }
      split; [exact Hp1|]. split; [exact Hp2|].
      destruct Hshape as [->|(mc & [->|[->|(w & -> & Hlt)]])]; simpl;
        (split; [lia|]); intros Hn; specialize (I5 ltac:(lia)); lia.
    + destruct Ho as [-> Ho]. rewrite Ho. injection H as <- <-. simpl.
      repeat split; auto; try lia. now exists [].
    + destruct Ho as [-> Ho]. rewrite Ho. injection H as <- <-. simpl.
      repeat split; auto; try lia. now exists [].
    + destruct Ho as (Ho & mc & Hshape). rewrite Ho.
      injection H as <- <-.
      split; [congruence|].
      split.
      { destruct (offered_all clean_pattern segs) as [l0 e0]. simpl.
        now exists l0. }
      destruct Hshape as [->|(w & -> & Hlt)]; simpl; repeat split; auto;
        try lia.
Qed.

End Offers.

(** ** Cleanup *)

Lemma clean_chain_raises clean_pattern : forall seg,
  clean_chain clean_pattern seg = Raised -> Re.compile clean_pattern = None.
Proof.
  induction seg as [|c seg IH]; [discriminate|].
  destruct c as [[|x t]|n]; cbn [clean_chain].
  - destruct (clean_chain clean_pattern seg); cbn [bind]; auto; discriminate.
  - destruct (Re.compile clean_pattern); [|reflexivity].
    destruct (clean_chain clean_pattern seg); cbn [bind]; auto; discriminate.
  - destruct (clean_chain clean_pattern seg); cbn [bind]; auto; discriminate.
Qed.

Lemma clean_chain_never_diverges clean_pattern : forall seg,
  clean_chain clean_pattern seg <> Diverged.
Proof.
  induction seg as [|c seg IH]; [discriminate|].
  destruct c as [[|x t]|n]; cbn [clean_chain];
    try destruct (Re.compile clean_pattern); try discriminate;
    destruct (clean_chain clean_pattern seg); cbn [bind]; congruence.
Qed.

Lemma clean_chain_raises_on clean_pattern t : forall seg,
  Re.compile clean_pattern = None -> In (Plain t) seg -> t <> [] ->
  clean_chain clean_pattern seg = Raised.
Proof.
  induction seg as [|c seg IH]; intros Hc Hin Ht; [destruct Hin|].
  destruct c as [[|x u]|n]; cbn [clean_chain].
  - destruct Hin as [[= <-]|Hin]; [congruence|]. now rewrite IH.
  - now rewrite Hc.
  - destruct Hin as [[=]|Hin]. now rewrite IH.
Qed.

Lemma clean_chain_others clean_pattern : forall seg mc,
  clean_chain clean_pattern seg = Done mc ->
  others mc = others seg
  /\ forallb isinstance_Plain mc = forallb isinstance_Plain seg.
Proof.
  induction seg as [|c seg IH]; intros mc H.
  - now injection H as <-.
  - destruct c as [[|x t]|n]; cbn [clean_chain] in H;
      try (destruct (Re.compile clean_pattern); [|discriminate]);
      destruct (clean_chain clean_pattern seg) as [r| |]; cbn [bind] in H;
      try discriminate; injection H as <-;
      destruct (IH r eq_refl) as [I1 I2]; unfold others in *; simpl;
      now rewrite ?I1, ?I2.
Qed.

Lemma all_Plain_no_others mc :
  forallb isinstance_Plain mc = true -> others mc = [].
Proof.
  induction mc as [|[t|n] mc IH]; simpl; intros H; auto; discriminate.
Qed.

Lemma no_empty_Plain_is_sendable seg :
  seg <> [] -> no_empty_Plain seg ->
  forallb isinstance_Plain seg && negb (truthy (text_content seg)) = false.
Proof.
  intros Hne Hp. destruct seg as [|[t|n] seg]; [congruence| |reflexivity].
  simpl. destruct t as [|x t]; [|now rewrite andb_false_r].
  exfalso. apply (Hp []); simpl; auto.
Qed.

(** ** What is offered *)

Lemma offered_others clean_pattern seg l :
  offered clean_pattern seg = Done l -> others (concat l) = others seg.
Proof.
  unfold offered, cleanup, skipped.
  destruct seg as [|c seg]; cbn [nonempty negb].
  { now intros [= <-]. }
  assert (G : forall mc,
             others mc = others (c :: seg) ->
             (if forallb isinstance_Plain mc
                 && negb (truthy (text_content mc))
              then Done [] else Done [mc]) = Done l ->
             others (concat l) = others (c :: seg)).
  { intros mc E1.
    destruct (forallb isinstance_Plain mc) eqn:F; cbn [andb].
    - destruct (negb (truthy (text_content mc))); intros [= <-];
        cbn [concat]; rewrite ?app_nil_r; auto.
      rewrite <- E1. symmetry. now apply all_Plain_no_others.
    - intros [= <-]. cbn [concat]. now rewrite app_nil_r. }
  destruct (truthy clean_pattern).
  - destruct (clean_chain clean_pattern (c :: seg)) as [mc| |] eqn:E;
      cbn [bind]; try discriminate.
    apply clean_chain_others in E as [E1 _]. now apply G.
  - cbn [bind]. now apply G.
Qed.

Lemma offered_all_others clean_pattern : forall segs l,
  offered_all clean_pattern segs = (l, Returned) ->
  others (concat l) = others (concat segs).
Proof.
  induction segs as [|seg segs IH]; intros l H; cbn [offered_all] in H.
  - now injection H as <-.
  - destruct (offered clean_pattern seg) as [l1| |] eqn:E; try discriminate.
    destruct (offered_all clean_pattern segs) as [r e] eqn:E2.
    injection H as <- ->. simpl.
    rewrite concat_app, !others_app, (IH r eq_refl).
    now rewrite (offered_others _ _ _ E).
Qed.

Lemma offered_all_without_cleanup : forall segs,
  Forall (fun seg => seg <> [] /\ no_empty_Plain seg) segs ->
  offered_all [] segs = (segs, Returned).
Proof.
  induction 1 as [|seg segs [Hne Hp] _ IH]; [reflexivity|].
  cbn [offered_all]. unfold offered, cleanup, skipped.
  destruct seg as [|c seg]; [congruence|]. cbn [nonempty negb truthy bind].
  rewrite (no_empty_Plain_is_sendable _ Hne Hp). now rewrite IH.
Qed.

Lemma offered_all_never_diverges clean_pattern : forall segs l,
  offered_all clean_pattern segs <> (l, Diverges).
Proof.
  induction segs as [|seg segs IH]; intros l; cbn [offered_all];
    [discriminate|].
  destruct (offered clean_pattern seg) as [l1| |] eqn:E; try discriminate.
  - destruct (offered_all clean_pattern segs) as [r e] eqn:E2.
    intros [= _ ->]. now apply (IH r).
  - exfalso. unfold offered, cleanup, skipped in E.
    destruct (negb (nonempty seg)); [discriminate|].
    destruct (truthy clean_pattern).
    + pose proof (clean_chain_never_diverges clean_pattern seg).
      destruct (clean_chain clean_pattern seg); cbn [bind] in E;
        try congruence.
      destruct (_ && _); discriminate.
    + cbn [bind] in E. destruct (_ && _); discriminate.
Qed.

(** A cleanup pattern that does not compile raises on the first segment
    that holds text. *)
Lemma offered_all_raises clean_pattern : forall segs l,
  offered_all clean_pattern segs = (l, Raises) ->
  truthy clean_pattern = true /\ Re.compile clean_pattern = None.
Proof.
  induction segs as [|seg segs IH]; intros l H; cbn [offered_all] in H;
    [discriminate|].
  destruct (offered clean_pattern seg) as [l1| |] eqn:E; try discriminate.
  - destruct (offered_all clean_pattern segs) as [r e] eqn:E2.
    injection H as _ ->. now apply (IH r).
  - unfold offered, cleanup, skipped in E.
    destruct (negb (nonempty seg)); [discriminate|].
    destruct (truthy clean_pattern).
    + split; [reflexivity|].
      destruct (clean_chain clean_pattern seg) eqn:C; cbn [bind] in E.
      * destruct (_ && _); discriminate.
      * eapply clean_chain_raises; eauto.
      * discriminate.
    + cbn [bind] in E. destruct (_ && _); discriminate.
Qed.

Lemma offered_all_raises_at_once clean_pattern first rest :
  truthy clean_pattern = true -> Re.compile clean_pattern = None ->
  ends_with_Plain first ->
  offered_all clean_pattern (first :: rest) = ([], Raises).
Proof.
  intros Ht Hc (pre & t & Hne & ->). cbn [offered_all].
  unfold offered, cleanup, skipped.
  destruct (pre ++ [Plain t]) eqn:E; [now destruct pre|].
  cbn [nonempty negb]. rewrite Ht, <- E.
  rewrite (clean_chain_raises_on clean_pattern t); auto.
  apply in_or_app. right. simpl. auto.
Qed.

(** ** Non-text components through the segmenter, for every pattern *)

Lemma process_text_simple_others t pattern segs buf segs' buf' :
  _process_text_simple t pattern segs buf = Done (segs', buf') ->
  others (emitted segs' buf') = others (emitted segs buf).
Proof.
  unfold _process_text_simple. intros H.
  destruct (re_split_wrapped pattern t) as [parts| |]; cbn [bind] in H;
    try discriminate.
  destruct (simple_walk pattern parts [] segs buf) as [[[temp s1] b1]| |] eqn:E;
    cbn [bind] in H; try discriminate.
  injection H as <- <-.
  apply simple_walk_text in E as [_ E2].
  destruct temp as [|y temp]; cbn [truthy]; [exact E2|].
  rewrite emitted_push, others_app. simpl. now rewrite app_nil_r.
Qed.

Lemma chain_loop_others fuel pattern smart_mode :
  forall ch segs buf segs' buf',
    chain_loop fuel ch pattern smart_mode segs buf = Done (segs', buf') ->
    others (emitted segs' buf') = others (emitted segs buf) ++ others ch.
Proof.
  induction ch as [|c ch IH]; intros segs buf segs' buf' H.
  - injection H as <- <-. now rewrite app_nil_r.
  - destruct c as [[|x t]|n]; cbn [chain_loop] in H.
    + apply IH in H. exact H.
    + assert (Hp : forall s1 b1,
                 (if smart_mode
                  then _process_text_smart fuel (x :: t) pattern segs buf
                  else _process_text_simple (x :: t) pattern segs buf)
                 = Done (s1, b1) ->
                 others (emitted s1 b1) = others (emitted segs buf)).
      { intros s1 b1 E. destruct smart_mode.
        - eapply process_text_smart_text; eauto.
        - eapply process_text_simple_others; eauto. }
      destruct (if smart_mode then _ else _) as [[s1 b1]| |];
        cbn [bind] in H; try discriminate.
      apply IH in H. rewrite H, (Hp s1 b1 eq_refl). reflexivity.
    + apply IH in H. rewrite H, emitted_push, others_app. simpl.
      now rewrite <- app_assoc.
Qed.

Lemma split_chain_smart_others fuel ch pattern smart_mode segs :
  split_chain_smart fuel ch pattern smart_mode = Done segs ->
  others (concat segs) = others ch.
Proof.
  intros H.
  destruct (split_chain_smart_shape _ _ _ _ _ H) as (cl & b & E & _ & ->).
  apply chain_loop_others in E. simpl in E. unfold emitted in E.
  destruct b as [|c b]; cbn [nonempty].
  - now rewrite app_nil_r in E.
  - rewrite concat_app. simpl concat. now rewrite app_nil_r.
Qed.

(** ** The first of several capped segments ends with text *)

Lemma cap_segments_first segs M first second rest :
  cap_segments segs M = first :: second :: rest ->
  exists x tl, segs = first :: x :: tl.
Proof.
  unfold cap_segments.
  destruct (Z.gtb_spec (Z.of_nat (length segs)) M) as [Hlen|Hlen];
    destruct (Z.gtb_spec M 0) as [Hm|Hm]; cbn [andb]; eauto.
  destruct (Z.to_nat (M - 1)) as [|k] eqn:Ek; [discriminate|].
  destruct segs as [|s0 [|s1 tl]]; simpl in Hlen; try lia.
  simpl. intros [= <- _]. eauto.
Qed.

Lemma capped_first_closed fuel ch pattern smart_mode segs M first second
    rest :
  split_chain_smart fuel ch pattern smart_mode = Done segs ->
  cap_segments segs M = first :: second :: rest ->
  ends_with_Plain first.
Proof.
  intros H Hc. apply cap_segments_first in Hc as (x & tl & E).
  destruct (split_chain_smart_shape _ _ _ _ _ H) as (cl & b & _ & Hcl & Hs).
  rewrite E in Hs. destruct (nonempty b).
  - destruct cl as [|c0 cl]; [destruct tl; discriminate|].
    injection Hs as -> _. now inversion Hcl.
  - rewrite <- Hs in Hcl. now inversion Hcl.
Qed.

(** ** The handler, case by case *)

Section Cases.
Variable math_log : float -> float.
Variable random_uniform : nat -> float -> float -> float.
Variable send_message : nat -> chain -> send_result.
Variable asyncio_sleep : nat -> float -> bool.

Lemma handler_cases fuel config event event' tr e :
  on_decorating_result math_log random_uniform send_message asyncio_sleep
    fuel config event
  = (event', tr, e) ->
  (tr = [] /\ result_chain event' = result_chain event)
  \/
  exists c ch segs,
    is_llm_reply event = true /\ splitter_processed event = false /\
    result_chain event = Some (c :: ch) /\
    split_chain_smart fuel (c :: ch)
      (get (split_regex config) default_split_regex)
      (get (enable_smart_split config) true) = Done segs /\
    dispatch math_log random_uniform send_message asyncio_sleep config
      (get (clean_regex config) [])
      (length (cap_segments segs (get (max_segments config) 7%Z))) 0
      (cap_segments segs (get (max_segments config) 7%Z)) = (tr, e) /\
    result_chain event'
    = match e with Returned => Some [] | _ => Some (c :: ch) end.
Proof.
  unfold on_decorating_result.
  destruct (is_llm_reply event) eqn:L; cbn [negb].
  2:{ intros [= <- <- _]. now left. }
  destruct (splitter_processed event) eqn:P.
  { intros [= <- <- _]. now left. }
  cbn [result_chain mark_processed].
  destruct (result_chain event) as [[|c ch]|] eqn:R.
  1,3: intros [= <- <- _]; now left.
  destruct (split_chain_smart _ _ _ _) as [segs| |] eqn:Es.
  2,3: intros [= <- <- _]; now left.
  destruct (_ && _).
  { intros [= <- <- _]; now left. }
  destruct (dispatch _ _ _ _ _ _ _ _ _) as [tr0 e0] eqn:Ed.
  intros H. right. exists c, ch, segs.
  assert (tr0 = tr /\ e0 = e /\
          result_chain event'
          = match e0 with Returned => Some [] | _ => Some (c :: ch) end)
    as (-> & -> & Hr)
    by (destruct e0; injection H as <- <- <-; auto).
  auto 10.
Qed.

End Cases.

(** ** A cleanup pattern that does not compile *)

Lemma offered_raises clean_pattern first :
  truthy clean_pattern = true -> Re.compile clean_pattern = None ->
  ends_with_Plain first -> offered clean_pattern first = Raised.
Proof.
  intros Ht Hc (pre & t & Hne & ->). unfold offered, cleanup, skipped.
  destruct (pre ++ [Plain t]) eqn:E; [now destruct pre|].
  cbn [nonempty negb]. rewrite Ht, <- E.
  rewrite (clean_chain_raises_on clean_pattern t); auto.
  apply in_or_app. right. simpl. auto.
Qed.

Lemma offered_all_length clean_pattern : forall segs l e,
  offered_all clean_pattern segs = (l, e) -> length l <= length segs.
Proof.
  induction segs as [|seg segs IH]; intros l e H; cbn [offered_all] in H.
  - injection H as <- _. auto.
  - destruct (offered clean_pattern seg) as [l1| |] eqn:E;
      try (injection H as <- _; simpl; lia).
    destruct (offered_all clean_pattern segs) as [r e'] eqn:E2.
    injection H as <- _. specialize (IH r e' eq_refl).
    rewrite length_app. simpl.
    assert (length l1 <= 1); [|lia].
    unfold offered, cleanup, skipped in E. destruct (negb (nonempty seg));
      [injection E as <-; simpl; lia|].
    destruct (if truthy clean_pattern then _ else _); cbn [bind] in E;
      try discriminate.
    destruct (_ && _); injection E as <-; simpl; lia.
Qed.

Lemma split_chain_smart_text fuel ch pattern smart_mode segs :
  smart_mode = true \/ group_free_wrap pattern ->
  split_chain_smart fuel ch pattern smart_mode = Done segs ->
  text_content (concat segs) = text_content ch.
Proof.
  intros Hm H.
  destruct (split_chain_smart_shape _ _ _ _ _ H) as (cl & b & E & _ & ->).
  apply (chain_loop_text _ _ _ Hm) in E as [E _]. simpl in E.
  unfold emitted in E. destruct b as [|c b]; cbn [nonempty].
  - now rewrite app_nil_r in E.
  - rewrite concat_app. simpl concat. now rewrite app_nil_r.
Qed.

(** ** Outcomes of the handler *)

Section Cancellation.
Variable math_log : float -> float.
Variable random_uniform : nat -> float -> float -> float.
Variable send_message : nat -> chain -> send_result.
Variable asyncio_sleep : nat -> float -> bool.
Variables (config : Config) (clean_pattern : text).

(** A loop that is cancelled ends with the await that was interrupted. *)
Lemma dispatch_cancelled n : forall segs i tr,
  dispatch math_log random_uniform send_message asyncio_sleep config
    clean_pattern n i segs = (tr, Cancelled) ->
  exists tr0 mc,
    tr = tr0 ++ [SendCancelled mc] \/
    exists w, tr = tr0 ++ [Sent mc; SleepCancelled w].
Proof.
  induction segs as [|seg segs IH]; intros i tr H; [discriminate|].
  cbn [dispatch] in H.
  destruct (dispatch_one _ _ _ _ _ _ n i seg) as [evs e0] eqn:E1.
  pose proof (dispatch_one_offers _ _ _ _ _ _ _ _ _ _ _ E1) as Ho.
  destruct e0; try discriminate.
  - destruct (dispatch _ _ _ _ _ _ n (S i) segs) as [tr' e'] eqn:E.
    injection H as <- ->.
    destruct (IH _ _ E) as (tr0 & mc & [->|(w & ->)]);
      exists (evs ++ tr0), mc;
      [left | right; exists w]; now rewrite app_assoc.
  - injection H as <-. destruct Ho as (_ & mc & [->|(w & -> & _)]);
      exists [], mc; [now left | right; now exists w].
Qed.

(** Without an interrupted await the loop is not cancelled. *)
Lemma dispatch_not_cancelled n : forall segs i tr e,
  (forall j mc, send_message j mc <> Interrupted) ->
  (forall j w, asyncio_sleep j w = true) ->
  dispatch math_log random_uniform send_message asyncio_sleep config
    clean_pattern n i segs = (tr, e) ->
  e <> Cancelled.
Proof.
  intros segs i tr e Hsm Hsl.
  revert i tr e. induction segs as [|seg segs IH]; intros i tr e H.
  - injection H as _ <-. discriminate.
  - cbn [dispatch] in H.
    destruct (dispatch_one _ _ _ _ _ _ n i seg) as [evs e0] eqn:E1.
    assert (He0 : e0 <> Cancelled).
    { destruct (dispatch_one_cases _ _ _ _ _ _ _ _ _ _ _ E1)
        as [[_ Hne]|(mc & _ & _ & _ & Hcase)]; [exact Hne|].
      cbv zeta in Hcase.
      destruct Hcase
        as [(_ & _ & ->)|[(Hi & _)|(_ & [(_ & _ & ->)|(_ & Hw)])]];
        try discriminate.
      - now apply Hsm in Hi.
      - destruct Hw as [(_ & _ & ->)|(Hw & _)]; [discriminate|].
        now rewrite Hsl in Hw. }
    destruct e0; try (injection H as _ <-; exact He0).
    destruct (dispatch _ _ _ _ _ _ n (S i) segs) as [tr' e'] eqn:E.
    injection H as _ <-. eapply IH; eauto.
Qed.

End Cancellation.

(** X6: how a call of the handler can end.  A call that raises or never
    ends (a split or cleanup pattern that does not compile, a smart scan
    that never advances) has sent nothing, waited for nothing and leaves
    the chain of the event as it was.  A call that is cancelled at an
    await leaves the chain as it was, not cleared, and its trace ends
    with the send or the wait that was interrupted.  A call that returns
    has either done nothing to the outside and left the chain as it was,
    or cleared the chain. *)
Theorem handler_fails_before_sending :
  forall math_log random_uniform send_message asyncio_sleep fuel config
         event event' tr e,
    on_decorating_result math_log random_uniform send_message asyncio_sleep
      fuel config event = (event', tr, e) ->
    (e = Raises \/ e = Diverges ->
     tr = [] /\ result_chain event' = result_chain event)
    /\ (e = Cancelled ->
        result_chain event' = result_chain event
        /\ exists tr0 mc,
             tr = tr0 ++ [SendCancelled mc] \/
             exists w, tr = tr0 ++ [Sent mc; SleepCancelled w])
    /\ (e = Returned ->
        (tr = [] /\ result_chain event' = result_chain event)
        \/ result_chain event' = Some []).
Proof.
  intros ml ru sm sl fuel config event event' tr e H.
  destruct (handler_cases _ _ _ _ _ _ _ _ _ _ H)
    as [[-> Hr]|(c & ch & segs & _ & _ & Hc & Hs & Hd & Hr)].
  { split; [auto|]. split; [|auto].
    intros ->. exfalso. revert H. unfold on_decorating_result.
    destruct (negb (is_llm_reply event)); [discriminate|].
    destruct (splitter_processed event); [discriminate|].
    destruct (result_chain (mark_processed event)) as [[|c ch]|];
      try discriminate.
    destruct (split_chain_smart _ _ _ _) as [segs| |]; try discriminate.
    destruct (_ && _); [discriminate|].
    destruct (dispatch _ _ _ _ _ _ _ _ _) as [tr0 e0] eqn:Ed.
    destruct e0; try discriminate.
    intros [= _ E]. apply dispatch_cancelled in Ed
      as (t0 & mc & [->|(w & ->)]); now destruct t0. }
  split; [|split].
  - intros He. rewrite Hc.
    split; [|destruct He; subst e; exact Hr].
    destruct (dispatch_offers _ _ _ _ _ _ _ _ _ _ _ Hd) as (Ho & _).
    assert (Hnc : e <> Cancelled) by (destruct He; subst; discriminate).
    specialize (Ho Hnc).
    destruct He as [-> | ->];
      [|now apply offered_all_never_diverges in Ho].
    destruct (offered_all_raises _ _ _ Ho) as [Ht Hn].
    set (cs := cap_segments segs (get (max_segments config) 7%Z)) in *.
    assert (Hfirst : forall first rest, cs = first :: rest ->
               offered (get (clean_regex config) []) first = Raised).
    { intros first [|second rest] E.
      - rewrite E in Ho. cbn [offered_all] in Ho.
        destruct (offered _ first) as [l| |]; auto; discriminate.
      - apply offered_raises; auto.
        eapply capped_first_closed; eauto. }
    destruct cs as [|first rest] eqn:Ecs; [discriminate|].
    specialize (Hfirst first rest eq_refl).
    cbn [dispatch] in Hd.
    destruct (dispatch_one ml ru sm sl config (get (clean_regex config) [])
                (length (first :: rest)) 0 first) as [evs e0] eqn:E1.
    pose proof (dispatch_one_offers _ _ _ _ _ _ _ _ _ _ _ E1) as H1.
    destruct e0.
    + destruct H1 as [H1 _]. congruence.
    + destruct H1 as [-> _]. now injection Hd as <-.
    + destruct H1 as [_ H1]. congruence.
    + destruct H1 as [H1 _]. congruence.
  - intros ->. rewrite Hc. split; [exact Hr|].
    eapply dispatch_cancelled; eauto.
  - intros ->. now right.
Qed.

Lemma handler_fails_before_sending_witness :
  ([] = @nil effect
   /\ result_chain
        {| is_llm_reply := true; splitter_processed := true;
           result_chain := Some [Other 1; Plain (py "a。b")] |}
      = result_chain
          {| is_llm_reply := true; splitter_processed := false;
             result_chain := Some [Other 1; Plain (py "a。b")] |})
  /\
  (result_chain
     {| is_llm_reply := true; splitter_processed := true;
        result_chain := Some [Plain (py "a。b")] |}
   = result_chain
       {| is_llm_reply := true; splitter_processed := false;
          result_chain := Some [Plain (py "a。b")] |}
   /\ exists tr0 mc,
        [Sent [Plain (py "a。")]; SleepCancelled 1.5%float]
        = tr0 ++ [SendCancelled mc] \/
        exists w,
          [Sent [Plain (py "a。")]; SleepCancelled 1.5%float]
          = tr0 ++ [Sent mc; SleepCancelled w]).
Proof.
  split.
  - refine (proj1 (handler_fails_before_sending
                     (fun x => x) (fun _ a _ => a) (fun _ _ => Delivered)
                     (fun _ _ => true) 3
                     {| split_regex := None; clean_regex := Some (py "(");
                        enable_smart_split := None; max_segments := None;
                        delay_strategy := None; random_min := None;
                        random_max := None; log_base := None;
                        log_factor := None; fixed_delay := None |}
                     {| is_llm_reply := true; splitter_processed := false;
                        result_chain := Some [Other 1; Plain (py "a。b")] |}
                     _ [] Raises _) _).
    + vm_compute. reflexivity.
    + now left.
  - refine (proj1 (proj2 (handler_fails_before_sending
                     (fun x => x) (fun _ a _ => a) (fun _ _ => Delivered)
                     (fun _ _ => false) 3
                     {| split_regex := None; clean_regex := None;
                        enable_smart_split := None; max_segments := None;
                        delay_strategy := Some (py "fixed");
                        random_min := None; random_max := None;
                        log_base := None; log_factor := None;
                        fixed_delay := None |}
                     {| is_llm_reply := true; splitter_processed := false;
                        result_chain := Some [Plain (py "a。b")] |}
                     _ _ Cancelled _)) eq_refl).
    vm_compute. reflexivity.
Defined.

(** ** Bounds on what a call sends *)

(** X7: what one call may send.  Every wait follows a delivered chain
    directly, there are never more waits than chains handed to the
    sender, and with a positive [max_segments] (7 when the key is absent)
    at most that many chains are handed to the sender, with at most one
    wait fewer. *)
Theorem handler_sends_at_most_max_segments :
  forall math_log random_uniform send_message asyncio_sleep fuel config
         event event' tr e,
    on_decorating_result math_log random_uniform send_message asyncio_sleep
      fuel config event = (event', tr, e) ->
    well_paced tr = true
    /\ sleeps tr <= length (attempts tr)
    /\ ((0 < get (max_segments config) 7%Z)%Z ->
        length (attempts tr) <= Z.to_nat (get (max_segments config) 7%Z)
        /\ sleeps tr <= Z.to_nat (get (max_segments config) 7%Z) - 1).
Proof.
  intros ml ru sm sl fuel config event event' tr e H.
  destruct (handler_cases _ _ _ _ _ _ _ _ _ _ H)
    as [[-> Hr]|(c & ch & segs & _ & _ & Hc & Hs & Hd & Hr)].
  { simpl. repeat split; auto; lia. }
  destruct (dispatch_offers _ _ _ _ _ _ _ _ _ _ _ Hd)
    as (_ & [r Ho] & Hw & _ & Hsl & Hn).
  specialize (Hn eq_refl).
  destruct (offered_all (get (clean_regex config) [])
              (cap_segments segs (get (max_segments config) 7%Z)))
    as [l0 e0] eqn:Hoa.
  apply offered_all_length in Hoa. simpl in Ho.
  assert (Hlen : length (attempts tr) <= length l0)
    by (rewrite Ho, length_app; lia).
  split; [exact Hw|]. split; [exact Hsl|]. intros Hm.
  pose proof (cap_segments_length segs _ Hm). lia.
Qed.

Lemma handler_sends_at_most_max_segments_witness :
  well_paced [Sent [Plain (py "a。")]; Slept 0.5%float;
              Sent [Plain (py "b。"); Plain (py "c。")]] = true
  /\ sleeps [Sent [Plain (py "a。")]; Slept 0.5%float;
             Sent [Plain (py "b。"); Plain (py "c。")]]
     <= length (attempts [Sent [Plain (py "a。")]; Slept 0.5%float;
                          Sent [Plain (py "b。"); Plain (py "c。")]])
  /\ ((0 < 2)%Z ->
      length (attempts [Sent [Plain (py "a。")]; Slept 0.5%float;
                        Sent [Plain (py "b。"); Plain (py "c。")]])
      <= Z.to_nat 2
      /\ sleeps [Sent [Plain (py "a。")]; Slept 0.5%float;
                 Sent [Plain (py "b。"); Plain (py "c。")]]
         <= Z.to_nat 2 - 1).
Proof.
  refine (handler_sends_at_most_max_segments
            (fun x => (x - 1)%float) (fun _ a _ => a)
            (fun _ _ => Delivered) (fun _ _ => true) 6
            {| split_regex := None; clean_regex := None;
               enable_smart_split := None; max_segments := Some 2%Z;
               delay_strategy := Some (py "fixed"); random_min := None;
               random_max := None; log_base := None;
               log_factor := None; fixed_delay := Some 0.5%float |}
            {| is_llm_reply := true; splitter_processed := false;
               result_chain := Some [Plain (py "a。b。c。")] |}
            {| is_llm_reply := true; splitter_processed := true;
               result_chain := Some [] |} _ Returned _).
  vm_compute. reflexivity.
Defined.

(** ** What reaches the sender *)

(** X8: a send that fails changes nothing for the segments after it.
    Two calls on the same event with the same configuration, under any
    two behaviours of [send_message], [asyncio.sleep], [random.uniform]
    and [math.log]: if neither call is cancelled at an await, they hand
    the same chains to the sender in the same order, end the same way and
    leave the same event, whether the sends are delivered or refused;
    and the chains that a call handed to the sender before it was
    cancelled are the first of those that a call that is not cancelled
    hands over. *)
Theorem send_failures_do_not_change_the_offers :
  forall math_log random_uniform send_message asyncio_sleep
         math_log' random_uniform' send_message' asyncio_sleep'
         fuel config event ev1 tr1 e1 ev2 tr2 e2,
    on_decorating_result math_log random_uniform send_message asyncio_sleep
      fuel config event = (ev1, tr1, e1) ->
    on_decorating_result math_log' random_uniform' send_message'
      asyncio_sleep' fuel config event = (ev2, tr2, e2) ->
    (e1 <> Cancelled -> e2 <> Cancelled ->
     ev1 = ev2 /\ e1 = e2 /\ attempts tr1 = attempts tr2)
    /\ (e2 <> Cancelled -> exists r, attempts tr2 = attempts tr1 ++ r).
Proof.
  intros ml ru sm sl ml' ru' sm' sl' fuel config event
         ev1 tr1 e1 ev2 tr2 e2.
  unfold on_decorating_result.
  assert (Triv : forall (ev : Event) (e : ending),
             (ev, @nil effect, e) = (ev1, tr1, e1) ->
             (ev, @nil effect, e) = (ev2, tr2, e2) ->
             (e1 <> Cancelled -> e2 <> Cancelled ->
              ev1 = ev2 /\ e1 = e2 /\ attempts tr1 = attempts tr2)
             /\ (e2 <> Cancelled ->
                 exists r, attempts tr2 = attempts tr1 ++ r)).
  { intros ev e [= <- <- <-] [= <- <- <-]. split; auto.
    intros _. now exists []. }
  destruct (negb (is_llm_reply event)); [apply Triv|].
  destruct (splitter_processed event); [apply Triv|].
  destruct (result_chain (mark_processed event)) as [[|c ch]|];
    try apply Triv.
  destruct (split_chain_smart _ _ _ _) as [segs| |]; try apply Triv.
  cbv zeta.
  destruct (_ && _); [apply Triv|]. clear Triv.
  destruct (dispatch ml _ _ _ _ _ _ _ _) as [t1 x1] eqn:D1.
  destruct (dispatch ml' _ _ _ _ _ _ _ _) as [t2 x2] eqn:D2.
  apply dispatch_offers in D1 as (D1 & [r1 P1] & _).
  apply dispatch_offers in D2 as (D2 & _).
  intros H1 H2.
  assert (t1 = tr1 /\ x1 = e1) as [-> ->]
    by (destruct x1; injection H1 as _ <- <-; auto).
  assert (t2 = tr2 /\ x2 = e2) as [-> ->]
    by (destruct x2; injection H2 as _ <- <-; auto).
  split.
  - intros N1 N2. specialize (D1 N1). specialize (D2 N2).
    rewrite D1 in D2. injection D2 as Ha He. subst e2.
    destruct e1; injection H1 as <-; injection H2 as <-; auto.
  - intros N2. specialize (D2 N2). rewrite D2 in P1. simpl in P1.
    now exists r1.
Qed.

Lemma send_failures_do_not_change_the_offers_witness :
  ({| is_llm_reply := true; splitter_processed := true;
      result_chain := Some [] |}
   = {| is_llm_reply := true; splitter_processed := true;
        result_chain := Some [] |}
   /\ Returned = Returned
   /\ attempts [Sent [Plain (py "a。")]; Slept 1.5%float;
                Sent [Other 4; Plain (py "b")]]
      = attempts [SendFailed [Plain (py "a。")];
                  SendFailed [Other 4; Plain (py "b")]])
  /\
  (exists r,
      attempts [SendFailed [Plain (py "a。")];
                SendFailed [Other 4; Plain (py "b")]]
      = attempts [Sent [Plain (py "a。")]; SleepCancelled 1.5%float] ++ r).
Proof.
  split.
  - refine (proj1 (send_failures_do_not_change_the_offers
              (fun x => x) (fun _ a _ => a) (fun _ _ => Delivered)
              (fun _ _ => true)
              (fun x => x) (fun _ a _ => a) (fun _ _ => Refused)
              (fun _ _ => true) 4
              {| split_regex := None; clean_regex := None;
                 enable_smart_split := None; max_segments := None;
                 delay_strategy := Some (py "fixed"); random_min := None;
                 random_max := None; log_base := None;
                 log_factor := None; fixed_delay := None |}
              {| is_llm_reply := true; splitter_processed := false;
                 result_chain :=
                   Some [Plain (py "a。"); Other 4; Plain (py "b")] |}
              _ _ _ _ _ _ _ _) _ _);
      try (vm_compute; reflexivity); discriminate.
  - refine (proj2 (send_failures_do_not_change_the_offers
              (fun x => x) (fun _ a _ => a) (fun _ _ => Delivered)
              (fun _ _ => false)
              (fun x => x) (fun _ a _ => a) (fun _ _ => Refused)
              (fun _ _ => true) 4
              {| split_regex := None; clean_regex := None;
                 enable_smart_split := None; max_segments := None;
                 delay_strategy := Some (py "fixed"); random_min := None;
                 random_max := None; log_base := None;
                 log_factor := None; fixed_delay := None |}
              {| is_llm_reply := true; splitter_processed := false;
                 result_chain :=
                   Some [Plain (py "a。"); Other 4; Plain (py "b")] |}
              _ _ Cancelled _ _ Returned _ _) _);
      try (vm_compute; reflexivity); discriminate.
Defined.

(** X9: without a cleanup pattern, a reply that is split into more than
    one segment is handed to the sender completely, unless the call is
    cancelled.  The call returns or is cancelled at an await.  When it
    returns, the chain is cleared and the chains handed to the sender are
    exactly the capped segments, in order, whether the sends are
    delivered or refused; together they hold every non-text component of
    the reply, and, in smart mode or with a split pattern that has no
    capturing group, its whole text.  When it is cancelled, the chain is
    left as it was and the chains handed to the sender are the first of
    the capped segments.  It returns whenever no send and no wait is
    interrupted. *)
Theorem without_cleanup_every_segment_is_offered :
  forall math_log random_uniform send_message asyncio_sleep fuel config c ch
         segs,
    get (clean_regex config) [] = [] ->
    split_chain_smart fuel (c :: ch)
      (get (split_regex config) default_split_regex)
      (get (enable_smart_split config) true) = Done segs ->
    1 < length (cap_segments segs (get (max_segments config) 7%Z)) ->
    exists event' tr e,
      on_decorating_result math_log random_uniform send_message
        asyncio_sleep fuel config
        {| is_llm_reply := true; splitter_processed := false;
           result_chain := Some (c :: ch) |} = (event', tr, e)
      /\ (e = Returned \/ e = Cancelled)
      /\ (e = Returned ->
          event' = {| is_llm_reply := true; splitter_processed := true;
                      result_chain := Some [] |}
          /\ attempts tr = cap_segments segs (get (max_segments config) 7%Z)
          /\ others (concat (attempts tr)) = others (c :: ch)
          /\ (get (enable_smart_split config) true = true
              \/ group_free_wrap
                   (get (split_regex config) default_split_regex)
              -> text_content (concat (attempts tr))
                 = text_content (c :: ch)))
      /\ (e = Cancelled ->
          result_chain event' = Some (c :: ch)
          /\ exists r,
               cap_segments segs (get (max_segments config) 7%Z)
               = attempts tr ++ r)
      /\ ((forall i mc, send_message i mc <> Interrupted) ->
          (forall i w, asyncio_sleep i w = true) -> e = Returned).
Proof.
  intros ml ru sm sl fuel config c ch segs Hclean Hs Hlen.
  rewrite (handler_after_split ml ru sm sl _ _ _ _ _ Hs). cbv zeta.
  set (cs := cap_segments segs (get (max_segments config) 7%Z)) in *.
  destruct (Nat.leb_spec (length cs) 1) as [|_]; [lia|]. cbn [andb].
  destruct (dispatch ml ru sm sl config _ _ 0 cs) as [tr e] eqn:D.
  assert (Hnc : (forall i mc, sm i mc <> Interrupted) ->
                (forall i w, sl i w = true) -> e <> Cancelled)
    by (intros A B; eapply dispatch_not_cancelled; eauto).
  apply dispatch_offers in D as (D & [r P] & _). rewrite Hclean in D, P.
  rewrite offered_all_without_cleanup in D, P
    by (apply cap_segments_nonempty;
        eapply split_chain_smart_no_empty; eauto).
  simpl in P.
  assert (He : e = Returned \/ e = Cancelled).
  { destruct e; auto; specialize (D ltac:(discriminate)); discriminate. }
  destruct e; try (destruct He; discriminate).
  - specialize (D ltac:(discriminate)). injection D as Ha.
    eexists _, tr, Returned. split; [reflexivity|].
    split; [auto|]. split; [|split; [discriminate|auto]].
    intros _. split; [reflexivity|]. rewrite <- Ha.
    split; [reflexivity|]. unfold cs. rewrite cap_segments_concat. split.
    + eapply split_chain_smart_others; eauto.
    + intros Hm. eapply split_chain_smart_text; eauto.
  - eexists _, tr, Cancelled. split; [reflexivity|].
    split; [auto|]. split; [discriminate|]. split.
    + intros _. split; [reflexivity|]. now exists r.
    + intros H1 H2. exfalso. now apply (Hnc H1 H2).
Qed.

Lemma without_cleanup_every_segment_is_offered_witness :
  exists event' tr e,
    on_decorating_result (fun x => x) (fun _ a _ => a) (fun _ _ => Refused)
      (fun _ _ => true) 9 no_config
      {| is_llm_reply := true; splitter_processed := false;
         result_chain := Some [Plain (py "a。"); Other 4; Plain (py "b")] |}
    = (event', tr, e)
    /\ e = Returned
    /\ (e = Returned ->
        attempts tr = [[Plain (py "a。")]; [Other 4; Plain (py "b")]]).
Proof.
  destruct (without_cleanup_every_segment_is_offered
              (fun x => x) (fun _ a _ => a) (fun _ _ => Refused)
              (fun _ _ => true) 9 no_config
              (Plain (py "a。")) [Other 4; Plain (py "b")]
              [[Plain (py "a。")]; [Other 4; Plain (py "b")]]
              eq_refl eq_refl ltac:(vm_compute; lia))
    as (event' & tr & e & H1 & _ & H2 & _ & H3).
  exists event', tr, e. split; [exact H1|]. split.
  - apply H3; [discriminate | reflexivity].
  - intros He. exact (proj1 (proj2 (H2 He))).
Defined.

(** X10: cleanup and the skipping of segments never drop a non-text
    component.  When the call returns, either nothing was sent and the
    chain of the event is as it was, or the chain is cleared and the
    chains handed to the sender hold the non-text components of the
    original chain, all of them and in order, for every split pattern,
    cleanup pattern, mode and cap. *)
Theorem non_text_components_reach_the_sender :
  forall math_log random_uniform send_message asyncio_sleep fuel config
         event event' tr chain0,
    on_decorating_result math_log random_uniform send_message asyncio_sleep
      fuel config event = (event', tr, Returned) ->
    result_chain event = Some chain0 ->
    (tr = [] /\ result_chain event' = Some chain0)
    \/ (result_chain event' = Some []
        /\ others (concat (attempts tr)) = others chain0).
Proof.
  intros ml ru sm sl fuel config event event' tr chain0 H Hc.
  destruct (handler_cases _ _ _ _ _ _ _ _ _ _ H)
    as [[-> Hr]|(c & ch & segs & _ & _ & Hc' & Hs & Hd & Hr)].
  { left. split; congruence. }
  right. split; [exact Hr|].
  apply dispatch_offers in Hd as [Hd _].
  specialize (Hd ltac:(discriminate)).
  apply offered_all_others in Hd. rewrite Hd, cap_segments_concat.
  rewrite Hc' in Hc. injection Hc as <-.
  eapply split_chain_smart_others; eauto.
Qed.

Lemma non_text_components_reach_the_sender_witness :
  ([Sent [Plain (py "a。")]; Slept 1.5%float;
    Sent [Other 4; Plain (py "b")]] = []
   /\ Some [] = Some [Plain (py "a。"); Other 4; Plain (py "b")])
  \/ (Some [] = Some (@nil component)
      /\ others (concat (attempts
                           [Sent [Plain (py "a。")]; Slept 1.5%float;
                            Sent [Other 4; Plain (py "b")]]))
         = others [Plain (py "a。"); Other 4; Plain (py "b")]).
Proof.
  refine (non_text_components_reach_the_sender
            (fun x => x) (fun _ a _ => a) (fun _ _ => Delivered)
            (fun _ _ => true) 4
            {| split_regex := None; clean_regex := None;
               enable_smart_split := None; max_segments := None;
               delay_strategy := Some (py "fixed"); random_min := None;
               random_max := None; log_base := None;
               log_factor := None; fixed_delay := None |}
            {| is_llm_reply := true; splitter_processed := false;
               result_chain :=
                 Some [Plain (py "a。"); Other 4; Plain (py "b")] |}
            {| is_llm_reply := true; splitter_processed := true;
               result_chain := Some [] |} _ _ _ eq_refl).
  vm_compute. reflexivity.
Defined.

(** ** The processed flag *)

Lemma handler_marks_processed math_log random_uniform send_message asyncio_sleep
    fuel config event event1 tr1 e1 :
  is_llm_reply event = true ->
  on_decorating_result math_log random_uniform send_message asyncio_sleep
    fuel config event = (event1, tr1, e1) ->
  splitter_processed event1 = true.
Proof.
  unfold on_decorating_result. intros ->. cbn [negb].
  destruct (splitter_processed event) eqn:P.
  { now intros [= <- _ _]. }
  cbn [result_chain mark_processed].
  destruct (result_chain event) as [[|c ch]|].
  1,3: now intros [= <- _ _].
  destruct (split_chain_smart _ _ _ _) as [segs| |].
  2,3: now intros [= <- _ _].
  cbv zeta. destruct (_ && _); [now intros [= <- _ _]|].
  destruct (dispatch _ _ _ _ _ _ _ _ _) as [t []]; now intros [= <- _ _].
Qed.

(** X11: a reply is dispatched at most once.  After one call of
    [on_decorating_result] on an event flagged as an LLM reply, however
    that call ended, no sequence of later calls of the two handlers,
    with any configuration and any collaborators, sends anything or
    changes the chain that the call left. *)
Theorem processed_event_is_left_alone_for_good :
  forall math_log random_uniform send_message asyncio_sleep
         fuel config event ev1 tr1 e1
         calls,
    is_llm_reply event = true ->
    on_decorating_result math_log random_uniform send_message asyncio_sleep
      fuel config event = (ev1, tr1, e1) ->
    snd (run_calls calls ev1) = []
    /\ result_chain (fst (run_calls calls ev1)) = result_chain ev1.
Proof.
  intros ml ru sm sl fuel config event ev1 tr1 e1 calls Hl H.
  assert (Hp : splitter_processed ev1 = true).
  { eapply handler_marks_processed; eauto. }
  clear H. revert ev1 Hp.
  induction calls as [|[|ml' ru' sm' sl' fuel' config'] calls IH]; intros ev Hp.
  - auto.
  - cbn [run_calls]. destruct (IH (on_llm_response ev) Hp) as [-> ->]. auto.
  - cbn [run_calls].
    rewrite (handler_guarded ml' ru' sm' sl' fuel' config' ev) by auto.
    destruct (run_calls calls ev) as [ev' tr'] eqn:E.
    specialize (IH ev Hp). rewrite E in IH. exact IH.
Qed.

Lemma processed_event_is_left_alone_for_good_witness :
  snd (run_calls
         [Llm_response;
          Decorating_result (fun x => x) (fun _ a _ => a) (fun _ _ => Delivered)
            (fun _ _ => true)
            9 no_config;
          Llm_response]
         {| is_llm_reply := true; splitter_processed := true;
            result_chain := Some [] |}) = []
  /\ result_chain
       (fst (run_calls
               [Llm_response;
                Decorating_result (fun x => x) (fun _ a _ => a)
                  (fun _ _ => Delivered) (fun _ _ => true) 9 no_config;
                Llm_response]
               {| is_llm_reply := true; splitter_processed := true;
                  result_chain := Some [] |}))
     = result_chain {| is_llm_reply := true; splitter_processed := true;
                       result_chain := Some [] |}.
Proof.
  refine (processed_event_is_left_alone_for_good
            (fun x => x) (fun _ a _ => a) (fun _ _ => Delivered)
            (fun _ _ => true) 9 no_config
            {| is_llm_reply := true; splitter_processed := false;
               result_chain := Some [Plain (py "a。b")] |}
            _ [Sent [Plain (py "a。")]; Slept _; Sent [Plain (py "b")]]
            Returned _ eq_refl _).
  vm_compute. reflexivity.
Defined.

(** ** A cap of one segment *)

(** X14: with [max_segments] set to 1 and no cleanup pattern the plugin
    leaves every reply to the framework: the call sends nothing and the
    chain of the event is as it was, whatever the reply, the split
    pattern and the mode. *)
Theorem one_segment_cap_passes_reply_through :
  forall math_log random_uniform send_message asyncio_sleep
         fuel config event event' tr e,
    get (max_segments config) 7%Z = 1%Z ->
    get (clean_regex config) [] = [] ->
    on_decorating_result math_log random_uniform send_message asyncio_sleep
      fuel config event = (event', tr, e) ->
    tr = [] /\ result_chain event' = result_chain event.
Proof.
  intros ml ru sm sl fuel config event event' tr e Hm Hc.
  unfold on_decorating_result.
  destruct (negb (is_llm_reply event)); [now intros [= <- <- _]|].
  destruct (splitter_processed event); [now intros [= <- <- _]|].
  cbn [result_chain mark_processed].
  destruct (result_chain event) as [[|c ch]|] eqn:R;
    try (intros [= <- <- _]; now rewrite <- R).
  destruct (split_chain_smart _ _ _ _) as [segs| |];
    try (intros [= <- <- _]; now rewrite <- R).
  cbv zeta. rewrite Hm, Hc.
  pose proof (cap_segments_length segs 1 ltac:(lia)) as Hl.
  destruct (Nat.leb_spec (length (cap_segments segs 1)) 1) as [_|H];
    [|simpl in Hl; lia].
  cbn [truthy negb andb]. intros [= <- <- _]. now rewrite <- R.
Qed.

Lemma one_segment_cap_passes_reply_through_witness :
  [] = @nil effect
  /\ result_chain {| is_llm_reply := true; splitter_processed := true;
                     result_chain := Some [Plain (py "a。b。c")] |}
     = result_chain {| is_llm_reply := true; splitter_processed := false;
                       result_chain := Some [Plain (py "a。b。c")] |}.
Proof.
  refine (one_segment_cap_passes_reply_through
            (fun x => x) (fun _ a _ => a) (fun _ _ => Delivered)
            (fun _ _ => true) 9
            {| split_regex := None; clean_regex := None;
               enable_smart_split := None; max_segments := Some 1%Z;
               delay_strategy := None; random_min := None;
               random_max := None; log_base := None;
               log_factor := None; fixed_delay := None |}
            {| is_llm_reply := true; splitter_processed := false;
               result_chain := Some [Plain (py "a。b。c")] |}
            _ _ Returned eq_refl eq_refl _).
  vm_compute. reflexivity.
Defined.

(** ** The tracker on openers of either kind: pushed, kept, closed *)

Lemma quote_self_paired o c :
  dict_get pair_map o = Some c -> is_quote o = true -> c = o.
Proof.
  unfold is_quote. intros H Hq. apply orb_true_iff in Hq.
  destruct Hq as [Hq|Hq]; apply N.eqb_eq in Hq; subst o;
    vm_compute in H; congruence.
Qed.

Lemma quote_closer a b :
  dict_get pair_map a = Some b -> is_quote b = true -> a = b.
Proof.
  unfold pair_map; cbn [dict_get].
  repeat match goal with
         | |- context [N.eqb ?k a] =>
           destruct (N.eqb_spec k a);
           [ intros [= <-]; try (vm_compute; congruence); auto |]
         end.
  intros; discriminate.
Qed.

Lemma quote_is_opener x :
  is_quote x = true -> dict_contains pair_map x = true.
Proof.
  unfold is_quote. intros Hq. apply orb_true_iff in Hq.
  destruct Hq as [Hq|Hq]; apply N.eqb_eq in Hq; subst x; reflexivity.
Qed.

Section Openers.
Variables (p : Re.pattern) (t : text).

Lemma step_push st o c :
  dict_get pair_map o = Some c ->
  is_quote o = false \/ hd_error (stack st) <> Some o ->
  nth_error t (i st) = Some o ->
  smart_step p t st = consume st o (o :: stack st).
Proof.
  intros Ho Hq Hx. destruct (is_quote o) eqn:Q.
  - destruct Hq as [Hq|Hq]; [discriminate|].
    unfold smart_step. rewrite Hx, Q.
    destruct (stack st) as [|top below]; [reflexivity|].
    destruct (N.eqb_spec top o) as [->|]; [now elim Hq | reflexivity].
  - eapply step_opener; eauto.
Qed.

Lemma step_keep st o c x above below :
  dict_get pair_map o = Some c -> x <> c ->
  stack st = above ++ o :: below ->
  nth_error t (i st) = Some x ->
  exists above', smart_step p t st = consume st x (above' ++ o :: below).
Proof.
  intros Ho Hxc Hs Hx. destruct (is_quote o) eqn:Q.
  2: eapply step_inside; eauto.
  pose proof (quote_self_paired _ _ Ho Q) as ->.
  unfold smart_step. rewrite Hx, Hs.
  destruct above as [|top above]; cbn [app].
  - destruct (is_quote x).
    + destruct (N.eqb_spec o x) as [->|]; [congruence|]. now exists [x].
    + rewrite Ho. destruct (N.eqb_spec x o); [congruence|].
      destruct (dict_contains pair_map x); [now exists [x] | now exists []].
  - destruct (is_quote x).
    + destruct (top =? x)%N;
        [now exists above | now exists (x :: top :: above)].
    + destruct (dict_get pair_map top) as [closer|].
      * destruct (x =? closer)%N; [now exists above|].
        destruct (dict_contains pair_map x);
          [now exists (x :: top :: above) | now exists (top :: above)].
      * destruct (dict_contains pair_map x);
          [now exists (x :: top :: above) | now exists (top :: above)].
Qed.

Lemma step_plain st o c x below :
  dict_get pair_map o = Some c -> x <> c ->
  dict_contains pair_map x = false ->
  stack st = o :: below ->
  nth_error t (i st) = Some x ->
  smart_step p t st = consume st x (o :: below).
Proof.
  intros Ho Hxc Hn Hs Hx. unfold smart_step. rewrite Hx, Hs, Ho, Hn.
  destruct (is_quote x) eqn:Q.
  - apply quote_is_opener in Q. congruence.
  - destruct (N.eqb_spec x c); [congruence | reflexivity].
Qed.

Lemma step_close st o c below :
  dict_get pair_map o = Some c ->
  stack st = o :: below ->
  nth_error t (i st) = Some c ->
  smart_step p t st = consume st c below.
Proof.
  intros Ho Hs Hx. unfold smart_step. rewrite Hx, Hs, Ho.
  destruct (is_quote c) eqn:Q.
  - rewrite (quote_closer _ _ Ho Q). now rewrite N.eqb_refl.
  - now rewrite N.eqb_refl.
Qed.

End Openers.

Lemma firstn_succ_nth {A} (l : list A) k x :
  nth_error l k = Some x -> firstn (S k) l = firstn k l ++ [x].
Proof.
  revert k. induction l as [|a l IH]; intros [|k] E; simpl in *;
    try congruence.
  f_equal. now apply IH.
Qed.

(** The scanner on an opener whose closer does not occur in [mid]: the
    first [k] iterations push the opener and then keep it on the stack. *)
Lemma open_prefix p pre o c mid post st :
  dict_get pair_map o = Some c ->
  is_quote o = false \/ hd_error (stack st) <> Some o ->
  ~ In c mid -> i st = length pre ->
  let t := pre ++ (o :: mid) ++ post in
  forall k, k <= length (o :: mid) ->
    let st' := smart_steps p t k st in
    i st' = i st + k /\
    (0 < k -> exists above, stack st' = above ++ o :: stack st) /\
    current_chunk st' = current_chunk st ++ firstn k (o :: mid) /\
    buffer st' = buffer st /\ segments st' = segments st.
Proof.
  intros Ho Hq Hc Hi t k. induction k as [|k IH]; intros Hk.
  - simpl. rewrite Nat.add_0_r, app_nil_r. repeat split; auto. lia.
  - destruct IH as (Hi' & Hs' & Hch & Hb & Hsg); [lia|].
    cbn zeta in *. unfold smart_steps in *. rewrite Nat.iter_succ.
    set (sk := Nat.iter k (smart_step p t) st) in *.
    assert (Hn : nth_error t (i sk) = nth_error (o :: mid) k).
    { rewrite Hi', Hi. unfold t. apply nth_error_mid. lia. }
    destruct (nth_error (o :: mid) k) as [x|] eqn:Ex;
      [| apply nth_error_None in Ex; lia].
    pose proof (firstn_succ_nth _ _ _ Ex) as Hf.
    destruct k as [|k].
    + simpl in Ex. injection Ex as <-.
      subst sk. change (Nat.iter 0 (smart_step p t) st) with st in *.
      rewrite (step_push p t st o c Ho Hq Hn). simpl.
      repeat split; auto; try lia.
      intros _. now exists [].
    + destruct Hs' as [above Hs']; [lia|].
      assert (Hx : x <> c).
      { intros ->. apply Hc. simpl in Ex. eapply nth_error_In; eauto. }
      destruct (step_keep p t sk o c x above (stack st) Ho Hx Hs' Hn)
        as [above' ->].
      unfold consume; cbn [i stack current_chunk buffer segments].
      rewrite Hch, Hf, app_assoc. repeat split; auto; try lia.
      intros _. now exists above'.
Qed.

(** The same on a span whose inside holds no opener at all: the stack is
    the opener on top of what it was. *)
Lemma plain_prefix p pre o c mid post st :
  dict_get pair_map o = Some c ->
  is_quote o = false \/ hd_error (stack st) <> Some o ->
  (forall x, In x mid -> x <> c /\ dict_contains pair_map x = false) ->
  i st = length pre ->
  let t := pre ++ (o :: mid) ++ post in
  forall k, 0 < k -> k <= length (o :: mid) ->
    let st' := smart_steps p t k st in
    i st' = i st + k /\ stack st' = o :: stack st /\
    current_chunk st' = current_chunk st ++ firstn k (o :: mid) /\
    buffer st' = buffer st /\ segments st' = segments st.
Proof.
  intros Ho Hq Hc Hi t k. induction k as [|k IH]; intros Hk0 Hk; [lia|].
  cbn zeta in *. unfold smart_steps in *. rewrite Nat.iter_succ.
  set (sk := Nat.iter k (smart_step p t) st) in *.
  destruct k as [|k].
  - subst sk. change (Nat.iter 0 (smart_step p t) st) with st in *.
    assert (Hn : nth_error t (i st) = Some o).
    { rewrite Hi. unfold t. rewrite <- (Nat.add_0_r (length pre)).
      rewrite nth_error_mid; [reflexivity | simpl; lia]. }
    rewrite (step_push p t st o c Ho Hq Hn). simpl.
    repeat split; auto.
  - destruct IH as (Hi' & Hs' & Hch & Hb & Hsg); [lia|lia|].
    assert (Hn : nth_error t (i sk) = nth_error (o :: mid) (S k)).
    { rewrite Hi', Hi. unfold t. apply nth_error_mid. lia. }
    destruct (nth_error (o :: mid) (S k)) as [x|] eqn:Ex;
      [| apply nth_error_None in Ex; lia].
    pose proof (firstn_succ_nth _ _ _ Ex) as Hf.
    assert (Hin : In x mid) by (simpl in Ex; eapply nth_error_In; eauto).
    destruct (Hc x Hin) as [Hx Hnx].
    rewrite (step_plain p t sk o c x (stack st) Ho Hx Hnx Hs' Hn).
    unfold consume; cbn [i stack current_chunk buffer segments].
    rewrite Hch, Hf, app_assoc. repeat split; auto; lia.
Qed.

(** X12: an opener that is never closed keeps the rest of the text in
    one piece.  For every key [o] of [pair_map], the two same-glyph
    quotes included, whose closer does not occur in [rest]: (1) the loop
    that stands on [o] (for a quote: with another character, or nothing,
    on top of the stack) runs to the end of the text without closing a
    segment, whatever delimiters [rest] holds, and ends with [o] still on
    the stack; (2) a text that begins with [o] is appended to the buffer
    as one [Plain], with no segment closed. *)
Theorem unclosed_opener_keeps_rest_together :
  forall pattern compiled_pattern o c rest,
    Re.compile pattern = Some compiled_pattern ->
    dict_get pair_map o = Some c -> ~ In c rest ->
    (forall pre st fuel,
        i st = length pre ->
        is_quote o = false \/ hd_error (stack st) <> Some o ->
        exists stk,
          smart_loop (length rest + 1 + fuel) compiled_pattern
            (pre ++ o :: rest) st
          = Some {| i := length (pre ++ o :: rest);
                    stack := stk ++ [o] ++ stack st;
                    current_chunk := current_chunk st ++ o :: rest;
                    buffer := buffer st; segments := segments st |})
    /\ (forall fuel segs buf,
          length rest < fuel ->
          _process_text_smart fuel (o :: rest) pattern segs buf
          = Done (segs, buf ++ [Plain (o :: rest)])).
Proof.
  intros pattern cp o c rest Hcp Ho Hc.
  assert (L : forall pre st fuel,
        i st = length pre ->
        is_quote o = false \/ hd_error (stack st) <> Some o ->
        exists stk,
          smart_loop (length rest + 1 + fuel) cp (pre ++ o :: rest) st
          = Some {| i := length (pre ++ o :: rest);
                    stack := stk ++ [o] ++ stack st;
                    current_chunk := current_chunk st ++ o :: rest;
                    buffer := buffer st; segments := segments st |}).
  { intros pre st fuel Hi Hq.
    pose proof (open_prefix cp pre o c rest [] st Ho Hq Hc Hi) as P.
    cbn zeta in P. rewrite app_nil_r in P.
    destruct (P (length (o :: rest)) (le_n _)) as (Hi' & Hs' & Hch & Hb & Hsg).
    destruct Hs' as [above Hs']; [simpl; lia|]. exists above.
    replace (length rest + 1 + fuel) with (length (o :: rest) + fuel)
      by (simpl; lia).
    rewrite smart_loop_steps.
    - set (sk := smart_steps cp (pre ++ o :: rest) (length (o :: rest)) st)
        in *.
      assert (E : (i sk <? length (pre ++ o :: rest)) = false).
      { apply Nat.ltb_ge. rewrite Hi', Hi, length_app. simpl. lia. }
      rewrite firstn_all in Hch.
      assert (Es : sk = {| i := length (pre ++ o :: rest);
                           stack := above ++ [o] ++ stack st;
                           current_chunk := current_chunk st ++ o :: rest;
                           buffer := buffer st; segments := segments st |}).
      { destruct sk as [i1 s1 c1 b1 g1].
        cbn [i stack current_chunk buffer segments] in *.
        rewrite Hi', Hs', Hch, Hb, Hsg, Hi. f_equal.
        rewrite length_app. reflexivity. }
      destruct fuel; cbn [smart_loop]; rewrite E; now f_equal.
    - intros j Hj. destruct (P j ltac:(lia)) as (Hij & _).
      rewrite Hij, Hi, length_app. simpl in *. lia. }
  split; [exact L|].
  intros fuel segs buf Hf. unfold _process_text_smart. rewrite Hcp.
  destruct (L [] {| i := 0; stack := []; current_chunk := [];
                    buffer := buf; segments := segs |}
              (fuel - (length rest + 1)) eq_refl)
    as [stk E].
  { right. discriminate. }
  replace (length rest + 1 + (fuel - (length rest + 1))) with fuel in E
    by lia.
  cbn [app] in E. rewrite E. reflexivity.
Qed.

Lemma unclosed_opener_keeps_rest_together_witness :
  _process_text_smart 16 (py "'s fine! Thanks!") default_split_regex
    [] [Other 1]
  = Done ([], [Other 1] ++ [Plain (py "'s fine! Thanks!")]).
Proof.
  refine (proj2 (unclosed_opener_keeps_rest_together
                   default_split_regex _ 39%N 39%N (py "s fine! Thanks!")
                   _ _ _) 16 [] [Other 1] _).
  - vm_compute. reflexivity.
  - reflexivity.
  - vm_compute. intuition discriminate.
  - vm_compute. lia.
Defined.

(** X13: splitting resumes behind a closed span.  For every key [o] of
    [pair_map] with closer [c], the same-glyph quotes included, and a
    span [o mid c] whose inside holds no key of [pair_map] and no [c],
    the loop that stands on [o] goes on behind [c] with the stack, the
    buffer and the segments it had before the span, the span added to
    the chunk. *)
Theorem closed_span_restores_the_stack :
  forall p pre o c mid post st,
    dict_get pair_map o = Some c ->
    is_quote o = false \/ hd_error (stack st) <> Some o ->
    (forall x, In x mid -> x <> c /\ dict_contains pair_map x = false) ->
    i st = length pre ->
    forall fuel,
      smart_loop (length mid + 2 + fuel) p (pre ++ (o :: mid) ++ c :: post) st
      = smart_loop fuel p (pre ++ (o :: mid) ++ c :: post)
          {| i := i st + (length mid + 2); stack := stack st;
             current_chunk := current_chunk st ++ (o :: mid) ++ [c];
             buffer := buffer st; segments := segments st |}.
Proof.
  intros p pre o c mid post st Ho Hq Hc Hi fuel.
  set (t := pre ++ (o :: mid) ++ c :: post).
  pose proof (plain_prefix p pre o c mid (c :: post) st Ho Hq Hc Hi) as P.
  cbn zeta in P. fold t in P.
  destruct (P (length (o :: mid)) ltac:(simpl; lia) (le_n _))
    as (Hi' & Hs' & Hch & Hb & Hsg).
  set (sk := smart_steps p t (length (o :: mid)) st) in *.
  assert (Hn : nth_error t (i sk) = Some c).
  { rewrite Hi', Hi. unfold t. rewrite nth_error_app2 by lia.
    replace (length pre + length (o :: mid) - length pre)
      with (length (o :: mid)) by lia.
    rewrite nth_error_app2 by lia. now rewrite Nat.sub_diag. }
  replace (length mid + 2 + fuel) with (S (length (o :: mid)) + fuel)
    by (simpl; lia).
  rewrite smart_loop_steps.
  - f_equal. unfold smart_steps. rewrite Nat.iter_succ.
    fold (smart_steps p t (length (o :: mid)) st). fold sk.
    rewrite (step_close p t sk o c (stack st) Ho Hs' Hn). unfold consume.
    rewrite Hi', Hch, Hb, Hsg, firstn_all.
    f_equal; [simpl; lia | now rewrite <- app_assoc].
  - intros j Hj.
    assert (Hlen : length t = length pre + length (o :: mid) + 1 + length post).
    { unfold t. rewrite !length_app. simpl. lia. }
    destruct j as [|j]; [cbn; lia|].
    destruct (P (S j) ltac:(lia) ltac:(lia)) as (Hij & _).
    rewrite Hij, Hi, Hlen. lia.
Qed.

Lemma closed_span_restores_the_stack_witness :
  exists cp, Re.compile default_split_regex = Some cp /\
  forall fuel,
    smart_loop (3 + 2 + fuel) cp (py "'a。b'c。d")
      {| i := 0; stack := []; current_chunk := []; buffer := [];
         segments := [] |} =
    smart_loop fuel cp (py "'a。b'c。d")
      {| i := 5; stack := []; current_chunk := py "'a。b'";
         buffer := []; segments := [] |}.
Proof.
  eexists. split; [vm_compute; reflexivity|].
  refine (closed_span_restores_the_stack
            _ [] 39%N 39%N (py "a。b") (py "c。d")
            {| i := 0; stack := []; current_chunk := []; buffer := [];
               segments := [] |} _ _ _ _).
  - reflexivity.
  - right. discriminate.
  - intros x Hx. vm_compute in Hx.
    destruct Hx as [<-|[<-|[<-|[]]]]; split; (discriminate || reflexivity).
  - reflexivity.
Defined.
